(** * Session orchestrator of the relay: a shallow embedding

    The development follows [src/relay-core.ts] and [src/terminal-relay.ts]:
    the context budget tracker ([ContextTracker]), the text model shared by
    the turn segmenter and the flush scheduler, the approval gate, the
    single-flight message queue and the JSONL stream decoder.  The modules
    after [Binary64] go on to the code around these: the rate limiter,
    [sendResponse] and what reaches the chat or the terminal, the project
    names and the passes of the session sync, the protected paths, the
    context gauge, the fact budget of the memory context ([src/state.ts])
    and the shared loop [processQueryStream].

    Conventions.  A JavaScript number that only ever holds an integer
    (token counts, string lengths, indices, millisecond clocks) is a [Z].
    A JavaScript string is the list of its UTF-16 code units, because
    [length], [slice], [includes] and [lastIndexOf] all count code units.
    Two expressions of the source are evaluated in binary64 floating point:
    [tokens / CONTEXT_WINDOW * 100] and [unsent.length * 0.3].  The
    embedding evaluates them exactly, over the rationals; the two readings
    can only differ when the exact value is itself a rounding or comparison
    tie (tokens = 1000 modulo 2000, or an index equal to exactly three tenths
    of the length).  The module [Binary64] evaluates both expressions in
    binary64 at those ties, and [Percent] the percentage at every token
    count from 0 to 210 000; where a statement sits on such a tie, as the
    token thresholds of [Gauge] do, the value the runtime computes there is
    part of the statement. *)

From Stdlib Require Import ZArith Lia Bool Floats Uint63.
From stdpp Require Import base list gmap strings sorting.

Local Open Scope Z_scope.

(** ** Context window tracking *)

Module Tracker.

Definition CONTEXT_WINDOW : Z := 200000.
Definition SYSTEM_PROMPT_ESTIMATE : Z := 18000.
Definition TOOL_OVERHEAD_PER_TURN : Z := 500.

Record Warnings := { pct10 : bool; pct5 : bool }.

Record ContextTracker := {
  tokens : Z;
  warnings : Warnings;
  lastCompactionNotified : bool
}.

(** Field initialisers of the class. *)
Definition fresh : ContextTracker :=
  {| tokens := SYSTEM_PROMPT_ESTIMATE;
     warnings := {| pct10 := false; pct5 := false |};
     lastCompactionNotified := false |}.

Definition addTokens (n : Z) (t : ContextTracker) : ContextTracker :=
  {| tokens := tokens t + n;
     warnings := warnings t;
     lastCompactionNotified := lastCompactionNotified t |}.

Definition setTokens (n : Z) (t : ContextTracker) : ContextTracker :=
  {| tokens := n;
     warnings := warnings t;
     lastCompactionNotified := lastCompactionNotified t |}.

(** [Math.round (num / den)] for [den > 0]: the nearest integer, a half
    going up, which is the floor of the quotient plus one half. *)
Definition round_div (num den : Z) : Z := (2 * num + den) / (2 * den).

Definition usedPct (t : ContextTracker) : Z :=
  Z.min 100 (round_div (tokens t * 100) CONTEXT_WINDOW).

Definition remainingPct (t : ContextTracker) : Z := 100 - usedPct t.

Definition reset (t : ContextTracker) : ContextTracker := fresh.

(** The two messages [checkWarnings] can return; each carries the two
    percentages that the template string interpolates. *)
Inductive Warning :=
| CompactionImminent (used remaining : Z)
| CompactionApproaching (used remaining : Z).

Definition checkWarnings (t : ContextTracker) : option Warning * ContextTracker :=
  let remaining := remainingPct t in
  let used := usedPct t in
  if (remaining <=? 5) && negb (pct5 (warnings t)) then
    (Some (CompactionImminent used remaining),
     {| tokens := tokens t;
        warnings := {| pct10 := pct10 (warnings t); pct5 := true |};
        lastCompactionNotified := lastCompactionNotified t |})
  else if (remaining <=? 10) && negb (pct10 (warnings t)) then
    (Some (CompactionApproaching used remaining),
     {| tokens := tokens t;
        warnings := {| pct10 := true; pct5 := pct5 (warnings t) |};
        lastCompactionNotified := lastCompactionNotified t |})
  else (None, t).

(** The calls the relays make on the shared tracker. *)
Inductive Op :=
| AddTokens (n : Z)
| SetTokens (n : Z)
| CheckWarnings
| Reset.

Definition is_reset (o : Op) : bool :=
  match o with Reset => true | _ => false end.

Definition is_check (o : Op) : bool :=
  match o with CheckWarnings => true | _ => false end.

(** One call: the tracker afterwards, and what [checkWarnings] returned when
    the call was a check ([Some None] is the source's [null]). *)
Definition step (t : ContextTracker) (o : Op) : ContextTracker * option (option Warning) :=
  match o with
  | AddTokens n => (addTokens n t, None)
  | SetTokens n => (setTokens n t, None)
  | CheckWarnings => let '(w, t') := checkWarnings t in (t', Some w)
  | Reset => (reset t, None)
  end.

Fixpoint run (t : ContextTracker) (ops : list Op) : ContextTracker * list (option Warning) :=
  match ops with
  | [] => (t, [])
  | o :: ops' =>
      let '(t1, r) := step t o in
      let '(t2, rs) := run t1 ops' in
      (t2, match r with Some w => w :: rs | None => rs end)
  end.

Definition final (t : ContextTracker) (ops : list Op) : ContextTracker := fst (run t ops).
Definition results (t : ContextTracker) (ops : list Op) : list (option Warning) := snd (run t ops).

(** [usedPct ()] read after each call of a sequence. *)
Fixpoint pct_trace (t : ContextTracker) (ops : list Op) : list Z :=
  match ops with
  | [] => []
  | o :: ops' => let t1 := fst (step t o) in usedPct t1 :: pct_trace t1 ops'
  end.

Fixpoint token_trace (t : ContextTracker) (ops : list Op) : list Z :=
  match ops with
  | [] => []
  | o :: ops' => let t1 := fst (step t o) in tokens t1 :: token_trace t1 ops'
  end.

Fixpoint nondecreasing (l : list Z) : bool :=
  match l with
  | x :: ((y :: _) as tl) => (x <=? y) && nondecreasing tl
  | _ => true
  end.



Definition fired (rs : list (option Warning)) : list Warning := omap id rs.

Definition no_reset (ops : list Op) : bool := forallb (fun o => negb (is_reset o)) ops.

Definition only_tokens (ops : list Op) : bool :=
  forallb (fun o => negb (is_reset o) && negb (is_check o)) ops.

(** A sequence in which no call lowers the count: no reset, no negative
    increment, and every absolute override at or above the running count. *)
Fixpoint raising (t : ContextTracker) (ops : list Op) : bool :=
  match ops with
  | [] => true
  | o :: ops' =>
      match o with
      | AddTokens n => 0 <=? n
      | SetTokens n => tokens t <=? n
      | CheckWarnings => true
      | Reset => false
      end && raising (fst (step t o)) ops'
  end.

(** *** Facts about the tracker *)

(** Case analysis on the two guards of [checkWarnings]. *)
Ltac check_cases t :=
  unfold checkWarnings;
  let H5 := fresh "Hflag5" in
  let H10 := fresh "Hflag10" in
  let R5 := fresh "Hrem5" in
  let R10 := fresh "Hrem10" in
  destruct (pct5 (warnings t)) eqn:H5;
  destruct (pct10 (warnings t)) eqn:H10;
  destruct (remainingPct t <=? 5) eqn:R5;
  destruct (remainingPct t <=? 10) eqn:R10;
  cbn [andb negb fst snd warnings pct5 pct10 tokens];
  rewrite ?H5, ?H10.

Lemma step_tokens_check (t : ContextTracker) :
  tokens (snd (checkWarnings t)) = tokens t.
Proof. check_cases t; reflexivity. Qed.

Lemma usedPct_tokens (t u : ContextTracker) :
  tokens t = tokens u -> usedPct t = usedPct u.
Proof. unfold usedPct. intros ->. reflexivity. Qed.

Lemma round_div_mono (a b den : Z) :
  0 < den -> a <= b -> round_div a den <= round_div b den.
Proof.
  intros Hden Hab. unfold round_div.
  apply Z.div_le_mono; lia.
Qed.

Lemma usedPct_mono (t u : ContextTracker) :
  tokens t <= tokens u -> usedPct t <= usedPct u.
Proof.
  intros H. unfold usedPct.
  apply Z.min_le_compat_l, round_div_mono; [reflexivity | lia].
Qed.

Lemma run_cons (t : ContextTracker) (o : Op) (ops : list Op) :
  run t (o :: ops) =
  (final (fst (step t o)) ops,
   match snd (step t o) with
   | Some w => w :: results (fst (step t o)) ops
   | None => results (fst (step t o)) ops
   end).
Proof.
  unfold final, results. simpl.
  destruct (step t o) as [t1 r]. simpl.
  destruct (run t1 ops) as [t2 rs]. reflexivity.
Qed.

Lemma final_cons (t : ContextTracker) (o : Op) (ops : list Op) :
  final t (o :: ops) = final (fst (step t o)) ops.
Proof. unfold final at 1. rewrite run_cons. reflexivity. Qed.

Lemma results_cons (t : ContextTracker) (o : Op) (ops : list Op) :
  results t (o :: ops) =
  match snd (step t o) with
  | Some w => w :: results (fst (step t o)) ops
  | None => results (fst (step t o)) ops
  end.
Proof. unfold results at 1. rewrite run_cons. reflexivity. Qed.

Lemma final_app (t : ContextTracker) (a b : list Op) :
  final t (a ++ b) = final (final t a) b.
Proof.
  revert t. induction a as [|o a IH]; intros t; [reflexivity|].
  rewrite <- app_comm_cons, !final_cons. apply IH.
Qed.

Lemma results_app (t : ContextTracker) (a b : list Op) :
  results t (a ++ b) = results t a ++ results (final t a) b.
Proof.
  revert t. induction a as [|o a IH]; intros t; [reflexivity|].
  rewrite <- app_comm_cons, !results_cons, final_cons, IH.
  destruct (snd (step t o)); reflexivity.
Qed.








(** Token updates never return anything and never touch the flags. *)
Lemma only_tokens_quiet (ops : list Op) : forall t,
  only_tokens ops = true ->
  results t ops = [] /\ warnings (final t ops) = warnings t.
Proof.
  induction ops as [|o ops IH]; intros t H; [split; reflexivity|].
  simpl in H. apply andb_true_iff in H as [Ho H].
  rewrite results_cons, final_cons.
  destruct (IH (fst (step t o)) H) as [Hr Hw].
  destruct o; simpl in *; try discriminate; rewrite Hr, Hw; split; reflexivity.
Qed.





Lemma check_imminent (t : ContextTracker) :
  pct5 (warnings t) = false -> remainingPct t <= 5 ->
  checkWarnings t =
  (Some (CompactionImminent (usedPct t) (remainingPct t)),
   {| tokens := tokens t;
      warnings := {| pct10 := pct10 (warnings t); pct5 := true |};
      lastCompactionNotified := lastCompactionNotified t |}).
Proof.
  intros H5 Hrem. unfold checkWarnings. rewrite H5.
  replace (remainingPct t <=? 5) with true by (symmetry; apply Z.leb_le; lia).
  reflexivity.
Qed.

Lemma check_then_tokens (t : ContextTracker) (ops : list Op) :
  only_tokens ops = true ->
  results t (CheckWarnings :: ops) = [fst (checkWarnings t)] /\
  warnings (final t (CheckWarnings :: ops)) = warnings (snd (checkWarnings t)).
Proof.
  intros Hops. rewrite results_cons, final_cons. cbn [step].
  destruct (checkWarnings t) as [w t1]. cbn [fst snd].
  destruct (only_tokens_quiet ops t1 Hops) as [-> ->]. split; reflexivity.
Qed.

Lemma raising_step (t : ContextTracker) (o : Op) (ops : list Op) :
  raising t (o :: ops) = true ->
  tokens t <= tokens (fst (step t o)) /\ raising (fst (step t o)) ops = true.
Proof.
  cbn [raising]. intros H. apply andb_true_iff in H as [Ho Hrest].
  split; [|exact Hrest].
  destruct o; cbn [step fst addTokens setTokens tokens].
  - apply Z.leb_le in Ho. lia.
  - apply Z.leb_le in Ho. lia.
  - destruct (checkWarnings t) as [w t1] eqn:E. cbn [fst].
    pose proof (step_tokens_check t) as Htok. rewrite E in Htok. cbn in Htok. lia.
  - discriminate.
Qed.

(** *** The claims on the tracker *)



(** The input that refutes C5 as stated: the relay adds its own estimate of
    the prompt to the baseline (118000 tokens, 59 percent) and the backend then
    reports 50000 input tokens, which [setTokens] stores: 25 percent.  No
    [reset ()] is involved. *)
Lemma usedPct_drops_on_setTokens :
  no_reset [AddTokens 100000; SetTokens 50000] = true /\
  pct_trace fresh [AddTokens 100000; SetTokens 50000] = [59; 25] /\
  token_trace fresh [AddTokens 100000; SetTokens 50000] = [118000; 50000] /\
  nondecreasing (usedPct fresh :: pct_trace fresh [AddTokens 100000; SetTokens 50000]) = false.
Proof. repeat split; vm_compute; reflexivity. Qed.

(** C10.  With neither flag set and at most five percent remaining, one call
    of [checkWarnings] returns the five-percent warning alone and sets only
    [pct5]; the next call, made while at most ten percent remains, returns
    the ten-percent warning.  No call changes both flags, so the two
    thresholds are never reported by one call. *)
Theorem both_thresholds_fire_on_separate_calls :
  (forall (t : ContextTracker) (ops : list Op),
      warnings t = {| pct10 := false; pct5 := false |} ->
      remainingPct t <= 5 ->
      only_tokens ops = true ->
      remainingPct (final t (CheckWarnings :: ops)) <= 10 ->
      warnings (snd (checkWarnings t)) = {| pct10 := false; pct5 := true |} /\
      results t (CheckWarnings :: ops ++ [CheckWarnings]) =
      [Some (CompactionImminent (usedPct t) (remainingPct t));
       Some (CompactionApproaching (usedPct (final t (CheckWarnings :: ops)))
                                   (remainingPct (final t (CheckWarnings :: ops))))]) /\
  (forall t : ContextTracker,
      pct10 (warnings (snd (checkWarnings t))) = pct10 (warnings t) \/
      pct5 (warnings (snd (checkWarnings t))) = pct5 (warnings t)).
Proof.
  split.
  - intros t ops Hw Hrem Hops Hrem2.
    assert (H10 : pct10 (warnings t) = false) by (rewrite Hw; reflexivity).
    assert (H5 : pct5 (warnings t) = false) by (rewrite Hw; reflexivity).
    destruct (check_then_tokens t ops Hops) as [Hres Hwarn].
    rewrite (check_imminent t H5 Hrem) in *.
    cbn [fst snd warnings] in *. rewrite H10 in *.
    split; [reflexivity|].
    set (t2 := final t (CheckWarnings :: ops)) in *.
    change (CheckWarnings :: ops ++ [CheckWarnings])
      with ((CheckWarnings :: ops) ++ [CheckWarnings]).
    rewrite results_app, Hres. fold t2.
    rewrite results_cons. cbn [step].
    assert (Hc : checkWarnings t2 =
                 (Some (CompactionApproaching (usedPct t2) (remainingPct t2)),
                  {| tokens := tokens t2;
                     warnings := {| pct10 := true; pct5 := true |};
                     lastCompactionNotified := lastCompactionNotified t2 |})).
    { unfold checkWarnings. rewrite Hwarn. cbn [pct5 pct10 negb].
      rewrite andb_false_r, andb_true_r.
      replace (remainingPct t2 <=? 10) with true by (symmetry; apply Z.leb_le; lia).
      reflexivity. }
    rewrite Hc. reflexivity.
  - intros t. check_cases t; auto.
Qed.

Lemma both_thresholds_fire_on_separate_calls_witness :
  warnings (snd (checkWarnings (setTokens 196000 fresh))) = {| pct10 := false; pct5 := true |} /\
  results (setTokens 196000 fresh) (CheckWarnings :: [AddTokens 500] ++ [CheckWarnings]) =
  [Some (CompactionImminent 98 2); Some (CompactionApproaching 98 2)].
Proof.
  apply (proj1 both_thresholds_fire_on_separate_calls (setTokens 196000 fresh) [AddTokens 500]).
  - reflexivity.
  - vm_compute. discriminate.
  - reflexivity.
  - vm_compute. discriminate.
Defined.

End Tracker.

(** ** JavaScript strings as code-unit lists *)

Module Js.

(** A string is the list of its UTF-16 code units. *)
Abbreviation jsstring := (list N).

(** An ASCII literal of the source as a [jsstring]. *)
Definition str (s : string) : jsstring :=
  map (fun a => N.of_nat (Ascii.nat_of_ascii a)) (String.list_ascii_of_string s).

Definition lf : N := 10%N.
Definition space : N := 32%N.

Definition len (u : jsstring) : Z := Z.of_nat (length u).

(** Truthiness of a string: the empty string is the only falsy one. *)
Definition truthy (u : jsstring) : bool :=
  match u with [] => false | _ => true end.

(** [String.prototype.slice]: a negative index counts from the end, and both
    indices are clamped to the string. *)
Definition clamp (n i : Z) : Z :=
  if i <? 0 then Z.max (n + i) 0 else Z.min i n.

Definition slice (u : jsstring) (from to : Z) : jsstring :=
  let a := clamp (len u) from in
  let b := clamp (len u) to in
  take (Z.to_nat (b - a)) (drop (Z.to_nat a) u).

Definition slice_from (u : jsstring) (from : Z) : jsstring := slice u from (len u).

Fixpoint starts_with (pat u : jsstring) : bool :=
  match pat, u with
  | [], _ => true
  | p :: pat', c :: u' => (p =? c)%N && starts_with pat' u'
  | _ :: _, [] => false
  end.

(** [u.includes (pat)]. *)
Fixpoint includes (pat u : jsstring) : bool :=
  starts_with pat u ||
  match u with
  | [] => false
  | _ :: u' => includes pat u'
  end.

(** [u.lastIndexOf (pat)] for a non-empty [pat]: the greatest index at which
    [pat] occurs, or -1. *)
Fixpoint lastIndexOf (pat u : jsstring) : Z :=
  match u with
  | [] => -1
  | _ :: u' =>
      let r := lastIndexOf pat u' in
      if 0 <=? r then r + 1
      else if starts_with pat u then 0 else -1
  end.

(** White space and line terminators, which [trim] strips at both ends. *)
Definition is_space (c : N) : bool :=
  ((9 <=? c) && (c <=? 13) || (c =? 32) || (c =? 160) || (c =? 5760) ||
   (8192 <=? c) && (c <=? 8202) || (c =? 8232) || (c =? 8233) ||
   (c =? 8239) || (c =? 8287) || (c =? 12288) || (c =? 65279))%N.

Fixpoint trimStart (u : jsstring) : jsstring :=
  match u with
  | c :: u' => if is_space c then trimStart u' else u
  | [] => []
  end.

Definition trimEnd (u : jsstring) : jsstring := reverse (trimStart (reverse u)).

Definition trim (u : jsstring) : jsstring := trimEnd (trimStart u).

(** [parts.join (sep)] on an array of strings. *)
Fixpoint join (sep : jsstring) (parts : list jsstring) : jsstring :=
  match parts with
  | [] => []
  | [p] => p
  | p :: rest => p ++ sep ++ join sep rest
  end.

(** [pat] occurs in [u] at index [i]. *)
Definition occurs_at (pat u : jsstring) (i : Z) : Prop :=
  0 <= i /\ starts_with pat (drop (Z.to_nat i) u) = true.

(** *** Facts about the string operations *)

Lemma len_nonneg (u : jsstring) : 0 <= len u.
Proof. unfold len. lia. Qed.

Lemma len_cons (c : N) (u : jsstring) : len (c :: u) = len u + 1.
Proof. unfold len. cbn [length]. lia. Qed.

Lemma starts_with_len (pat u : jsstring) :
  starts_with pat u = true -> len pat <= len u.
Proof.
  revert u. induction pat as [|p pat IH]; intros u H.
  - apply len_nonneg.
  - destruct u as [|c u]; [discriminate|].
    cbn [starts_with] in H. apply andb_true_iff in H as [_ H].
    rewrite !len_cons. specialize (IH u H). lia.
Qed.

(** [lastIndexOf] returns -1 or the greatest index of an occurrence. *)
Lemma lastIndexOf_spec (pat u : jsstring) :
  (lastIndexOf pat u = -1 /\ forall i, ~ (occurs_at pat u i /\ i < len u)) \/
  (occurs_at pat u (lastIndexOf pat u) /\
   lastIndexOf pat u + len pat <= len u /\
   lastIndexOf pat u < len u /\
   forall i, occurs_at pat u i -> i < len u -> i <= lastIndexOf pat u).
Proof.
  induction u as [|c u IH].
  - left. split; [reflexivity|]. intros i [[Hi0 _] Hi]. unfold len in Hi. cbn in Hi. lia.
  - cbn [lastIndexOf]. rewrite len_cons.
    destruct IH as [[Hnone Hno] | (Hocc & Hfit & Hlt & Hmax)].
    + rewrite Hnone. cbn [Z.leb Z.compare].
      destruct (starts_with pat (c :: u)) eqn:Hs.
      * right. split; [split; [lia | exact Hs]|].
        split; [apply starts_with_len in Hs; rewrite len_cons in Hs; lia|].
        split; [pose proof (len_nonneg u); lia|].
        intros i [Hi0 Hi] Hil.
        destruct (Z.eq_dec i 0) as [->|Hne]; [lia|].
        exfalso. apply (Hno (i - 1)). split; [|lia].
        split; [lia|].
        replace (Z.to_nat i) with (S (Z.to_nat (i - 1))) in Hi by lia.
        exact Hi.
      * left. split; [reflexivity|].
        intros i [[Hi0 Hi] Hil].
        destruct (Z.eq_dec i 0) as [->|Hne].
        { change (Z.to_nat 0) with 0%nat in Hi. cbn [drop] in Hi. congruence. }
        apply (Hno (i - 1)). split; [|lia].
        split; [lia|].
        replace (Z.to_nat i) with (S (Z.to_nat (i - 1))) in Hi by lia.
        exact Hi.
    + destruct Hocc as [H0 Hocc].
      replace (0 <=? lastIndexOf pat u) with true by (symmetry; apply Z.leb_le; exact H0).
      right. split.
      * split; [lia|].
        replace (Z.to_nat (lastIndexOf pat u + 1)) with (S (Z.to_nat (lastIndexOf pat u))) by lia.
        exact Hocc.
      * split; [lia|]. split; [lia|].
        intros i [Hi0 Hi] Hil.
        destruct (Z.eq_dec i 0) as [->|Hne]; [lia|].
        assert (i - 1 <= lastIndexOf pat u); [|lia].
        apply Hmax; [|lia]. split; [lia|].
        replace (Z.to_nat i) with (S (Z.to_nat (i - 1))) in Hi by lia.
        exact Hi.
Qed.

Lemma lastIndexOf_bounds (pat u : jsstring) :
  -1 <= lastIndexOf pat u /\
  (0 <= lastIndexOf pat u -> lastIndexOf pat u + len pat <= len u) /\
  lastIndexOf pat u < Z.max 1 (len u + 1).
Proof.
  destruct (lastIndexOf_spec pat u) as [[-> _] | ([H0 _] & Hfit & Hlt & _)].
  - pose proof (len_nonneg u). repeat split; lia.
  - repeat split; lia.
Qed.

Lemma includes_lastIndexOf (pat u : jsstring) :
  pat <> [] -> includes pat u = (0 <=? lastIndexOf pat u).
Proof.
  intros Hpat. induction u as [|c u IH].
  - destruct pat; [congruence | reflexivity].
  - cbn [includes lastIndexOf]. rewrite IH.
    destruct (0 <=? lastIndexOf pat u) eqn:E.
    + rewrite orb_true_r. symmetry. apply Z.leb_le. apply Z.leb_le in E. lia.
    + rewrite orb_false_r. destruct (starts_with pat (c :: u)); reflexivity.
Qed.

Lemma len_slice_from (u : jsstring) (k : Z) :
  0 <= k <= len u -> len (slice_from u k) = len u - k.
Proof.
  intros Hk. unfold slice_from, slice, clamp.
  replace (k <? 0) with false by (symmetry; apply Z.ltb_ge; lia).
  replace (len u <? 0) with false by (symmetry; apply Z.ltb_ge; apply len_nonneg).
  rewrite Z.min_id, (Z.min_l k) by lia.
  unfold len in *. rewrite length_take, length_drop. lia.
Qed.

End Js.

(** ** Turn segmentation and flush scheduling (Telegram relay, [callAgent]) *)

Module Relay.
Import Js.

Definition paragraph_break : jsstring := [lf; lf].
Definition sentence_marks : list jsstring :=
  [str ". "; [46%N; lf]; str "? "; str "! "].

(** What [sendResponse] was asked to deliver.  [turn], [from] and [cut]
    record where the text was taken from: the number of turns archived
    before it, the value of [currentTurnSent], and the number of code units
    covered ([flushEnd], or the whole remaining tail). *)
Inductive Emission :=
| Chunk (turn : nat) (from cut : Z) (text : jsstring)
| Tail (turn : nat) (from cut : Z) (text : jsstring)
| ResultText (text : jsstring).

(** The local variables of the streaming loop, and the delivery log. *)
Record Stream := {
  allResponses : list jsstring;
  currentTurnText : jsstring;
  currentTurnSent : Z;
  lastFlush : Z;
  delivered : list Emission
}.

(** The messages of the SDK stream, as far as the text state reads them: an
    assistant message with the concatenation of its text blocks and the value
    [Date.now ()] has when it is handled, the final result with its [result]
    string, and every other message. *)
Inductive Msg :=
| Assistant (text : jsstring) (now : Z)
| Result (result : jsstring)
| Other.

Definition start (now : Z) : Stream :=
  {| allResponses := []; currentTurnText := []; currentTurnSent := 0;
     lastFlush := now; delivered := [] |}.

(** [text.length < currentTurnText.length && currentTurnText] *)
Definition isNewTurn (text current : jsstring) : bool :=
  (len text <? len current) && truthy current.

(** The boundary test and the two assignments that follow it. *)
Definition segment (text : jsstring) (s : Stream) : Stream :=
  if isNewTurn text (currentTurnText s) then
    {| allResponses :=
         if truthy (currentTurnText s)
         then allResponses s ++ [currentTurnText s] else allResponses s;
       currentTurnText := text;
       currentTurnSent := 0;
       lastFlush := lastFlush s;
       delivered := delivered s |}
  else
    {| allResponses := allResponses s;
       currentTurnText := text;
       currentTurnSent := currentTurnSent s;
       lastFlush := lastFlush s;
       delivered := delivered s |}.

Definition hasParagraphBreak (unsent : jsstring) : bool :=
  includes paragraph_break unsent && (80 <? len unsent).

Definition isLarge (unsent : jsstring) : bool := 400 <? len unsent.

Definition isStale (now last : Z) (unsent : jsstring) : bool :=
  (3000 <? now - last) && (40 <? len unsent).

Definition triggered (now last : Z) (unsent : jsstring) : bool :=
  hasParagraphBreak unsent || isLarge unsent || isStale now last unsent.

(** [i > n * 0.3], over the rationals. *)
Definition past30 (i n : Z) : bool := 3 * n <? 10 * i.

Definition sentenceEnd (unsent : jsstring) : Z :=
  Z.max (Z.max (lastIndexOf (str ". ") unsent) (lastIndexOf [46%N; lf] unsent))
        (Z.max (lastIndexOf (str "? ") unsent) (lastIndexOf (str "! ") unsent)).

(** The value of [flushEnd] when a trigger has fired. *)
Definition flushEnd (unsent : jsstring) : Z :=
  if hasParagraphBreak unsent then
    let paraIdx := lastIndexOf paragraph_break unsent in
    if 0 <? paraIdx then paraIdx else len unsent
  else
    if past30 (sentenceEnd unsent) (len unsent) then sentenceEnd unsent + 1
    else
      let lastSpace := lastIndexOf [space] unsent in
      if past30 lastSpace (len unsent) then lastSpace else len unsent.

(** The flush block, run after [segment]. *)
Definition flush (now : Z) (s : Stream) : Stream :=
  let unsent := slice_from (currentTurnText s) (currentTurnSent s) in
  if triggered now (lastFlush s) unsent then
    let chunk := trim (slice unsent 0 (flushEnd unsent)) in
    if truthy chunk then
      {| allResponses := allResponses s;
         currentTurnText := currentTurnText s;
         currentTurnSent := currentTurnSent s + flushEnd unsent;
         lastFlush := now;
         delivered := delivered s ++
           [Chunk (length (allResponses s)) (currentTurnSent s) (flushEnd unsent) chunk] |}
    else s
  else s.

(** The [result] branch: archive the last turn, force out its unsent tail,
    and fall back to the result string when no text was accumulated. *)
Definition onResult (result : jsstring) (s : Stream) : Stream :=
  let all1 :=
    if truthy (currentTurnText s)
    then allResponses s ++ [currentTurnText s] else allResponses s in
  let fullResponse := join paragraph_break all1 in
  let remaining := trim (slice_from (currentTurnText s) (currentTurnSent s)) in
  let log1 :=
    if truthy remaining
    then delivered s ++
         [Tail (length (allResponses s)) (currentTurnSent s)
               (len (currentTurnText s) - currentTurnSent s) remaining]
    else delivered s in
  let fallback := negb (truthy fullResponse) && truthy result in
  {| allResponses := if fallback then all1 ++ [result] else all1;
     currentTurnText := currentTurnText s;
     currentTurnSent := currentTurnSent s;
     lastFlush := lastFlush s;
     delivered := if fallback then log1 ++ [ResultText result] else log1 |}.

(** One iteration of [for await (const msg of q)]. *)
Definition step (s : Stream) (m : Msg) : Stream :=
  match m with
  | Assistant text now => if truthy text then flush now (segment text s) else s
  | Result result => onResult result s
  | Other => s
  end.

Definition run (s : Stream) (ms : list Msg) : Stream := fold_left step ms s.

Definition is_result (m : Msg) : bool :=
  match m with Result _ => true | _ => false end.

(** [0 <= currentTurnSent <= currentTurnText.length] *)
Definition offset_ok (s : Stream) : Prop :=
  0 <= currentTurnSent s <= len (currentTurnText s).

(** A piece of turn [k] taken at offset [from] comes after a piece that
    ended at offset [pos] of turn [turn]: it continues where that one ended,
    or it opens a later turn. *)
Definition follows (turn : nat) (pos : Z) (k : nat) (from : Z) : Prop :=
  (k = turn /\ from = pos) \/ ((turn < k)%nat /\ from = 0).

(** The deliveries of a log, turn by turn: within a turn every piece starts
    at the offset where the piece before it ended, so no code unit is
    delivered twice and the offsets only grow. *)
Fixpoint contiguous (turn : nat) (pos : Z) (log : list Emission) : Prop :=
  match log with
  | [] => True
  | Chunk k from cut _ :: rest =>
      follows turn pos k from /\ 0 < cut /\ contiguous k (from + cut) rest
  | Tail k from cut _ :: rest =>
      follows turn pos k from /\ 0 < cut /\ contiguous k (from + cut) rest
  | ResultText _ :: rest => contiguous turn pos rest
  end.

(** Turn and end offset of the latest piece of a log. *)
Fixpoint latest (turn : nat) (pos : Z) (log : list Emission) : nat * Z :=
  match log with
  | [] => (turn, pos)
  | Chunk k from cut _ :: rest => latest k (from + cut) rest
  | Tail k from cut _ :: rest => latest k (from + cut) rest
  | ResultText _ :: rest => latest turn pos rest
  end.

(** The cut index [c] of [unsent] is at a word boundary: a paragraph break
    starts there, or a space does, or the sentence mark that ends just
    before [c] is followed there by its space or line feed. *)
Definition at_boundary (unsent : jsstring) (c : Z) : bool :=
  starts_with paragraph_break (drop (Z.to_nat c) unsent) ||
  starts_with [space] (drop (Z.to_nat c) unsent) ||
  (1 <=? c) &&
  existsb (fun mark => starts_with mark (drop (Z.to_nat (c - 1)) unsent)) sentence_marks.

(** *** The cut point in the words of the specification *)

(** [pat] occurs in [u] at index [i]: [u] is [i] code units, then [pat],
    then the rest. *)
Definition occurs (pat u : jsstring) (i : Z) : Prop :=
  exists before after, u = before ++ pat ++ after /\ len before = i.

(** One of [marks] occurs in [u] at index [i]. *)
Definition marked (marks : list jsstring) (u : jsstring) (i : Z) : Prop :=
  exists mark, mark ∈ marks /\ occurs mark u i.

(** [i] is the last index of [u] at which one of [marks] occurs. *)
Definition last_mark (marks : list jsstring) (u : jsstring) (i : Z) : Prop :=
  marked marks u i /\ forall j, marked marks u j -> j <= i.

(** The paragraph trigger: the tail holds a paragraph break and is longer
    than 80 code units. *)
Definition paragraph_trigger (u : jsstring) : Prop :=
  (exists i, occurs paragraph_break u i) /\ 80 < len u.

(** The index [i] lies past 30% of the length of [u]. *)
Definition past_30_percent (u : jsstring) (i : Z) : Prop := 3 * len u < 10 * i.

(** *** Facts about the flush scheduler *)

Lemma sentenceEnd_bounds (u : jsstring) :
  -1 <= sentenceEnd u /\ (0 <= sentenceEnd u -> sentenceEnd u + 2 <= len u).
Proof.
  unfold sentenceEnd.
  pose proof (lastIndexOf_bounds (str ". ") u) as (A1 & A2 & _).
  pose proof (lastIndexOf_bounds [46%N; lf] u) as (B1 & B2 & _).
  pose proof (lastIndexOf_bounds (str "? ") u) as (C1 & C2 & _).
  pose proof (lastIndexOf_bounds (str "! ") u) as (D1 & D2 & _).
  change (len (str ". ")) with 2 in A2. change (len [46%N; lf]) with 2 in B2.
  change (len (str "? ")) with 2 in C2. change (len (str "! ")) with 2 in D2.
  lia.
Qed.

Lemma flushEnd_bounds (u : jsstring) : 0 <= flushEnd u <= len u.
Proof.
  pose proof (len_nonneg u) as Hn.
  unfold flushEnd.
  destruct (hasParagraphBreak u).
  - pose proof (lastIndexOf_bounds paragraph_break u) as (A1 & A2 & _).
    change (len paragraph_break) with 2 in A2.
    destruct (0 <? lastIndexOf paragraph_break u) eqn:E; [|lia].
    apply Z.ltb_lt in E. lia.
  - destruct (past30 (sentenceEnd u) (len u)) eqn:E.
    + unfold past30 in E. apply Z.ltb_lt in E.
      pose proof (sentenceEnd_bounds u) as [S1 S2]. lia.
    + pose proof (lastIndexOf_bounds [space] u) as (A1 & A2 & _).
      change (len [space]) with 1 in A2.
      destruct (past30 (lastIndexOf [space] u) (len u)) eqn:E2; [|lia].
      unfold past30 in E2. apply Z.ltb_lt in E2. lia.
Qed.

Lemma truthy_len (u : jsstring) : truthy u = true <-> 0 < len u.
Proof.
  destruct u as [|c u]; cbn [truthy].
  - split; [discriminate | unfold len; cbn; lia].
  - split; [intros _; rewrite len_cons; pose proof (len_nonneg u); lia | reflexivity].
Qed.

Lemma len_trimStart (u : jsstring) : len (trimStart u) <= len u.
Proof.
  induction u as [|c u IH]; [reflexivity|].
  cbn [trimStart]. destruct (is_space c); [rewrite len_cons; lia | lia].
Qed.

Lemma len_trim (u : jsstring) : len (trim u) <= len u.
Proof.
  unfold trim, trimEnd.
  pose proof (len_trimStart u) as H1.
  pose proof (len_trimStart (reverse (trimStart u))) as H2.
  unfold len in *. rewrite !length_reverse in *. lia.
Qed.

Lemma len_slice_to (u : jsstring) (k : Z) :
  0 <= k -> len (slice u 0 k) <= k.
Proof.
  intros Hk. unfold slice, clamp.
  pose proof (len_nonneg u) as Hn.
  replace (0 <? 0) with false by reflexivity.
  replace (k <? 0) with false by (symmetry; apply Z.ltb_ge; lia).
  unfold len in *. rewrite length_take. lia.
Qed.

(** A chunk that is sent covers at least one code unit. *)
Lemma sent_chunk_positive (u : jsstring) :
  truthy (trim (slice u 0 (flushEnd u))) = true -> 0 < flushEnd u.
Proof.
  intros H. apply truthy_len in H.
  pose proof (len_trim (slice u 0 (flushEnd u))) as H1.
  pose proof (len_slice_to u (flushEnd u) (proj1 (flushEnd_bounds u))) as H2.
  lia.
Qed.

Lemma isNewTurn_shorter (text current : jsstring) :
  isNewTurn text current = true <-> len text < len current.
Proof.
  unfold isNewTurn. rewrite andb_true_iff, Z.ltb_lt, truthy_len.
  pose proof (len_nonneg text). lia.
Qed.

Lemma segment_offset_ok (text : jsstring) (s : Stream) :
  offset_ok s -> offset_ok (segment text s).
Proof.
  unfold offset_ok, segment. intros H.
  destruct (isNewTurn text (currentTurnText s)) eqn:E; cbn.
  - pose proof (len_nonneg text). lia.
  - assert (~ len text < len (currentTurnText s)) as Hge.
    { intros Hlt. apply isNewTurn_shorter in Hlt. congruence. }
    lia.
Qed.

Lemma flush_offset_ok (now : Z) (s : Stream) :
  offset_ok s -> offset_ok (flush now s).
Proof.
  unfold offset_ok, flush. intros H.
  destruct (triggered _ _ _); [|exact H].
  destruct (truthy _); [|exact H]. cbn.
  pose proof (flushEnd_bounds (slice_from (currentTurnText s) (currentTurnSent s))) as Hb.
  rewrite (len_slice_from _ _ H) in Hb. lia.
Qed.

Lemma step_offset_ok (s : Stream) (m : Msg) :
  offset_ok s -> offset_ok (step s m).
Proof.
  intros H. destruct m as [text now | r |]; cbn [step].
  - destruct (truthy text); [|exact H].
    apply flush_offset_ok, segment_offset_ok, H.
  - exact H.
  - exact H.
Qed.

Lemma run_offset_ok (ms : list Msg) : forall s,
  offset_ok s -> offset_ok (run s ms).
Proof.
  induction ms as [|m ms IH]; intros s H; [exact H|].
  apply IH, step_offset_ok, H.
Qed.

(** Within a turn the offset only advances; it goes back to 0 only when
    the previous turn is archived. *)
Lemma step_advances (s : Stream) (m : Msg) :
  currentTurnSent s <= currentTurnSent (step s m) \/
  (allResponses (step s m) = allResponses s ++ [currentTurnText s] /\
   is_result m = false).
Proof.
  destruct m as [text now | r |]; cbn [step]; [| left; cbn; lia | left; lia].
  destruct (truthy text); [|left; lia].
  unfold flush.
  set (s1 := segment text s).
  assert (Hseg : currentTurnSent s <= currentTurnSent s1 \/
                 allResponses s1 = allResponses s ++ [currentTurnText s]).
  { unfold s1, segment. destruct (isNewTurn _ _) eqn:E; cbn; [right | left; lia].
    unfold isNewTurn in E. apply andb_true_iff in E as [_ ->]. reflexivity. }
  pose proof (flushEnd_bounds (slice_from (currentTurnText s1) (currentTurnSent s1))) as Hb.
  destruct (triggered _ _ _); [destruct (truthy _)|]; cbn;
    destruct Hseg as [Hle | Harch]; auto; left; lia.
Qed.

Lemma contiguous_snoc (log : list Emission) (e : Emission) : forall turn pos,
  contiguous turn pos (log ++ [e]) <->
  contiguous turn pos log /\
  contiguous (fst (latest turn pos log)) (snd (latest turn pos log)) [e].
Proof.
  induction log as [|x log IH]; intros turn pos.
  - cbn [app latest fst snd contiguous]. tauto.
  - destruct x; cbn [app contiguous latest]; rewrite IH; tauto.
Qed.

Lemma latest_snoc (log : list Emission) (e : Emission) : forall turn pos,
  latest turn pos (log ++ [e]) =
  latest (fst (latest turn pos log)) (snd (latest turn pos log)) [e].
Proof.
  induction log as [|x log IH]; intros turn pos; [reflexivity|].
  destruct x; cbn [app latest]; apply IH.
Qed.

(** The log is contiguous and the next piece of the current turn would
    continue it. *)
Definition log_ok (s : Stream) : Prop :=
  contiguous 0 0 (delivered s) /\
  follows (fst (latest 0 0 (delivered s))) (snd (latest 0 0 (delivered s)))
          (length (allResponses s)) (currentTurnSent s).

Lemma segment_log_ok (text : jsstring) (s : Stream) :
  log_ok s -> log_ok (segment text s).
Proof.
  unfold log_ok, segment. intros [Hc Hf].
  destruct (isNewTurn text (currentTurnText s)) eqn:E; cbn; [|tauto].
  split; [exact Hc|].
  unfold isNewTurn in E. apply andb_true_iff in E as [_ ->].
  rewrite length_app. cbn [length].
  right. split; [|reflexivity].
  destruct Hf as [[-> _] | [Hlt _]]; lia.
Qed.

Lemma flush_log_ok (now : Z) (s : Stream) :
  log_ok s -> log_ok (flush now s).
Proof.
  unfold log_ok, flush. intros [Hc Hf].
  destruct (triggered _ _ _); [|tauto].
  destruct (truthy _) eqn:Ht; [|tauto]. cbn.
  apply sent_chunk_positive in Ht.
  rewrite contiguous_snoc, latest_snoc. cbn [contiguous latest fst snd].
  split; [tauto|]. left. split; reflexivity.
Qed.

Lemma step_log_ok (s : Stream) (m : Msg) :
  is_result m = false -> log_ok s -> log_ok (step s m).
Proof.
  intros Hm H. destruct m as [text now | r |]; cbn [step]; try discriminate; [|exact H].
  destruct (truthy text); [|exact H].
  apply flush_log_ok, segment_log_ok, H.
Qed.

Lemma run_log_ok (ms : list Msg) : forall s,
  forallb (fun m => negb (is_result m)) ms = true ->
  log_ok s -> log_ok (run s ms).
Proof.
  induction ms as [|m ms IH]; intros s Hms H; [exact H|].
  cbn [forallb] in Hms. apply andb_true_iff in Hms as [Hm Hms].
  apply negb_true_iff in Hm.
  apply IH; [exact Hms|]. apply step_log_ok; assumption.
Qed.

Lemma onResult_contiguous (r : jsstring) (s : Stream) :
  offset_ok s -> log_ok s -> contiguous 0 0 (delivered (onResult r s)).
Proof.
  intros Hoff [Hc Hf]. unfold onResult. cbn [delivered].
  set (remaining := trim (slice_from (currentTurnText s) (currentTurnSent s))).
  assert (Hlog1 : contiguous 0 0
            (if truthy remaining
             then delivered s ++
                  [Tail (length (allResponses s)) (currentTurnSent s)
                        (len (currentTurnText s) - currentTurnSent s) remaining]
             else delivered s)).
  { destruct (truthy remaining) eqn:Ht; [|exact Hc].
    apply truthy_len in Ht. unfold remaining in Ht.
    pose proof (len_trim (slice_from (currentTurnText s) (currentTurnSent s))) as H1.
    rewrite (len_slice_from _ _ Hoff) in H1.
    rewrite contiguous_snoc. cbn [contiguous]. split; [exact Hc|].
    split; [exact Hf|]. split; [lia | exact I]. }
  destruct (_ && _); [|exact Hlog1].
  rewrite contiguous_snoc. split; [exact Hlog1 | exact I].
Qed.

Lemma flush_text_state (now : Z) (s : Stream) :
  allResponses (flush now s) = allResponses s /\
  currentTurnText (flush now s) = currentTurnText s.
Proof.
  unfold flush. destruct (triggered _ _ _); [destruct (truthy _)|]; split; reflexivity.
Qed.

(** What an assistant message with text does to the turn state, whatever the
    clock reads and whatever gets flushed. *)
Lemma step_text_state (s : Stream) (text : jsstring) (now : Z) :
  truthy text = true ->
  allResponses (step s (Assistant text now)) =
    (if isNewTurn text (currentTurnText s)
     then allResponses s ++ [currentTurnText s] else allResponses s) /\
  currentTurnText (step s (Assistant text now)) = text.
Proof.
  intros Ht. cbn [step]. rewrite Ht.
  destruct (flush_text_state now (segment text s)) as [-> ->].
  unfold segment. destruct (isNewTurn text (currentTurnText s)) eqn:E; cbn.
  - unfold isNewTurn in E. apply andb_true_iff in E as [_ ->]. split; reflexivity.
  - split; reflexivity.
Qed.

(** Whenever the cut is not the end of the unsent tail, it is at a word
    boundary. *)
Lemma flushEnd_boundary_unless_hard_cut (u : jsstring) :
  flushEnd u < len u -> at_boundary u (flushEnd u) = true.
Proof.
  unfold flushEnd, at_boundary.
  destruct (hasParagraphBreak u).
  - destruct (0 <? lastIndexOf paragraph_break u) eqn:E; [|lia].
    intros _. apply Z.ltb_lt in E.
    destruct (lastIndexOf_spec paragraph_break u) as [[Hn _] | ([_ Hocc] & _)]; [lia|].
    rewrite Hocc. reflexivity.
  - destruct (past30 (sentenceEnd u) (len u)) eqn:E.
    + intros _. unfold past30 in E. apply Z.ltb_lt in E.
      pose proof (len_nonneg u) as Hn.
      replace (1 <=? sentenceEnd u + 1) with true by (symmetry; apply Z.leb_le; lia).
      replace (sentenceEnd u + 1 - 1) with (sentenceEnd u) by lia.
      assert (Hmark : exists mark, mark ∈ sentence_marks /\
                        sentenceEnd u = lastIndexOf mark u).
      { unfold sentenceEnd, sentence_marks.
        set (a := lastIndexOf (str ". ") u). set (b := lastIndexOf [46%N; lf] u).
        set (c := lastIndexOf (str "? ") u). set (d := lastIndexOf (str "! ") u).
        destruct (Z.max_spec a b) as [[_ Hab]|[_ Hab]];
        destruct (Z.max_spec c d) as [[_ Hcd]|[_ Hcd]];
        destruct (Z.max_spec (Z.max a b) (Z.max c d)) as [[_ Hm]|[_ Hm]];
          rewrite Hm, ?Hab, ?Hcd;
          eexists; (split; [|reflexivity]); set_solver. }
      destruct Hmark as (mark & Hin & Heq).
      destruct (lastIndexOf_spec mark u) as [[Hnone _] | ([_ Hocc] & _)]; [lia|].
      rewrite <- Heq in Hocc.
      assert (existsb (fun m => starts_with m (drop (Z.to_nat (sentenceEnd u)) u))
                      sentence_marks = true) as ->.
      { apply existsb_exists. exists mark. split; [|exact Hocc].
        apply list_elem_of_In. exact Hin. }
      rewrite orb_true_r. reflexivity.
    + destruct (past30 (lastIndexOf [space] u) (len u)) eqn:E2; [|lia].
      intros _. unfold past30 in E2. apply Z.ltb_lt in E2.
      pose proof (len_nonneg u) as Hn.
      destruct (lastIndexOf_spec [space] u) as [[Hnone _] | ([_ Hocc] & _)]; [lia|].
      rewrite Hocc, orb_true_r. reflexivity.
Qed.

(** A stream of two assistant messages: the first ends inside the second
    paragraph of the answer, the second extends it and stops inside a word. *)
Definition first_paragraph : jsstring :=
  str "The first paragraph of the answer is long enough to cross the eighty character mark.".

Definition partial_answer : jsstring :=
  first_paragraph ++ paragraph_break ++ str "Second par".

Definition longer_answer : jsstring :=
  partial_answer ++
  str "agraph keeps streaming in and the tail grows past eighty code units, ending mid-wo".

Definition after_first_flush : Stream := step (start 0) (Assistant partial_answer 1000).

Definition after_second_flush : Stream := step after_first_flush (Assistant longer_answer 2000).

Definition second_tail : jsstring :=
  slice_from longer_answer (currentTurnSent after_first_flush).

(** An unsent tail that begins with the only paragraph break it has. *)
Definition tail_with_leading_break : jsstring :=
  paragraph_break ++ replicate 100 97%N.

(** An unsent tail of 500 code units whose paragraph break is at 120. *)
Definition tail_with_break_at_120 : jsstring :=
  replicate 120 97%N ++ paragraph_break ++ replicate 378 98%N.

(** *** The claims on the Telegram text pipeline *)

(** C1 says that every flush but the forced one on the result cuts at a
    word boundary: a paragraph break, a sentence end or a space.  The code
    departs from it on this stream.  The first message is flushed at its
    paragraph break, which leaves the break at the head of the unsent tail.
    On the second message the paragraph trigger fires on that leftover break,
    [lastIndexOf] returns 0, the guard [paraIdx > 0] fails and the cut stays
    at the end of the tail: the chunk ends with the letters [mid-wo], at no
    paragraph break, sentence end or space, although a space past 30% of
    the tail was there to cut at. *)
Theorem flush_cuts_inside_a_word :
  delivered after_first_flush = [Chunk 0 0 84 first_paragraph] /\
  hasParagraphBreak second_tail = true /\
  triggered 2000 (lastFlush after_first_flush) second_tail = true /\
  lastIndexOf paragraph_break second_tail = 0 /\
  flushEnd second_tail = len second_tail /\
  at_boundary second_tail (flushEnd second_tail) = false /\
  past30 (lastIndexOf [space] second_tail) (len second_tail) = true /\
  delivered after_second_flush =
    [Chunk 0 0 84 first_paragraph;
     Chunk 0 84 94
       (str "Second paragraph keeps streaming in and the tail grows past eighty code units, ending mid-wo")].
Proof. repeat split; vm_compute; reflexivity. Qed.

(** The input that refutes C8 as stated: the paragraph trigger fires, the
    last paragraph break of the tail is at index 0, and the cut is not there
    but at the end of the tail. *)
Lemma leading_break_is_not_the_cut :
  len tail_with_leading_break = 102 /\
  hasParagraphBreak tail_with_leading_break = true /\
  lastIndexOf paragraph_break tail_with_leading_break = 0 /\
  flushEnd tail_with_leading_break = 102.
Proof. repeat split; vm_compute; reflexivity. Qed.

(** [starts_with] is the test that [u] begins with [pat]. *)
Lemma starts_with_spec (pat u : jsstring) :
  starts_with pat u = true <-> exists after, u = pat ++ after.
Proof.
  revert u. induction pat as [|p pat IH]; intros u.
  - split; [intros _; exists u; reflexivity | reflexivity].
  - destruct u as [|c u]; cbn [starts_with].
    + split; [discriminate | intros [after H]; discriminate].
    + rewrite andb_true_iff, N.eqb_eq, IH. split.
      * intros [-> [after ->]]. exists after. reflexivity.
      * intros [after H]. injection H as -> ->. split; [reflexivity | eauto].
Qed.

Lemma occurs_occurs_at (pat u : jsstring) (i : Z) :
  pat <> [] -> occurs pat u i <-> occurs_at pat u i /\ i < len u.
Proof.
  intros Hpat. split.
  - intros (before & after & -> & <-). split; [split|].
    + apply len_nonneg.
    + unfold len. rewrite Nat2Z.id, drop_app_length.
      apply starts_with_spec. eauto.
    + unfold len. rewrite !length_app.
      destruct pat; [congruence | cbn [length]; lia].
  - intros [[Hi Hs] Hlt]. apply starts_with_spec in Hs as [after Hs].
    exists (take (Z.to_nat i) u), after. split.
    + rewrite <- Hs. symmetry. apply take_drop.
    + unfold len in *. rewrite length_take. lia.
Qed.

Lemma last_mark_unique (marks : list jsstring) (u : jsstring) (i j : Z) :
  last_mark marks u i -> last_mark marks u j -> i = j.
Proof.
  intros [Hi Hmaxi] [Hj Hmaxj].
  pose proof (Hmaxi j Hj). pose proof (Hmaxj i Hi). lia.
Qed.

(** [lastIndexOf] finds no occurrence and returns -1, or returns the last
    index at which the pattern occurs. *)
Lemma lastIndexOf_last_mark (pat u : jsstring) :
  pat <> [] ->
  (lastIndexOf pat u = -1 /\ forall j, ~ occurs pat u j) \/
  (0 <= lastIndexOf pat u /\ occurs pat u (lastIndexOf pat u) /\
   forall j, occurs pat u j -> j <= lastIndexOf pat u).
Proof.
  intros Hpat.
  destruct (lastIndexOf_spec pat u) as [[Hnone Hno] | (Hocc & _ & Hlt & Hmax)].
  - left. split; [exact Hnone|]. intros j Hj.
    apply (occurs_occurs_at _ _ _ Hpat) in Hj. exact (Hno j Hj).
  - right. split; [destruct Hocc; assumption|]. split.
    + apply (occurs_occurs_at _ _ _ Hpat). split; assumption.
    + intros j Hj. apply (occurs_occurs_at _ _ _ Hpat) in Hj as [Hj Hjlt].
      apply Hmax; assumption.
Qed.

Lemma last_mark_of_lastIndexOf (pat u : jsstring) (i : Z) :
  pat <> [] -> lastIndexOf pat u = i -> 0 <= i -> last_mark [pat] u i.
Proof.
  intros Hpat <- Hi.
  destruct (lastIndexOf_last_mark pat u Hpat) as [[Hnone _] | (_ & Hocc & Hmax)]; [lia|].
  split.
  - exists pat. split; [left | exact Hocc].
  - intros j (mark & Hin & Hj). apply list_elem_of_singleton in Hin. subst mark.
    apply Hmax, Hj.
Qed.

Lemma lastIndexOf_of_last_mark (pat u : jsstring) (i : Z) :
  pat <> [] -> last_mark [pat] u i -> lastIndexOf pat u = i.
Proof.
  intros Hpat Hlast.
  destruct (lastIndexOf_last_mark pat u Hpat) as [[_ Hno] | (Hpos & _ & _)].
  - destruct Hlast as [(mark & Hin & Hocc) _].
    apply list_elem_of_singleton in Hin. subst mark. destruct (Hno i Hocc).
  - apply (last_mark_unique [pat] u); [|exact Hlast].
    apply last_mark_of_lastIndexOf; [exact Hpat | reflexivity | exact Hpos].
Qed.

Lemma lastIndexOf_unmarked (pat u : jsstring) :
  pat <> [] -> (forall j, occurs pat u j -> j <= -1) -> lastIndexOf pat u = -1.
Proof.
  intros Hpat Hno.
  destruct (lastIndexOf_last_mark pat u Hpat) as [[Hnone _] | (Hpos & Hocc & _)];
    [exact Hnone|].
  specialize (Hno _ Hocc). lia.
Qed.

(** [sentenceEnd] is -1 when no sentence mark occurs, and otherwise the last
    index at which one of the four marks occurs. *)
Lemma sentenceEnd_last_mark (u : jsstring) :
  (sentenceEnd u = -1 /\ forall j, ~ marked sentence_marks u j) \/
  (0 <= sentenceEnd u /\ last_mark sentence_marks u (sentenceEnd u)).
Proof.
  assert (Hcases : forall pat, pat ∈ sentence_marks ->
            (lastIndexOf pat u = -1 /\ forall j, ~ occurs pat u j) \/
            (0 <= lastIndexOf pat u /\ occurs pat u (lastIndexOf pat u) /\
             forall j, occurs pat u j -> j <= lastIndexOf pat u)).
  { intros pat Hin. apply lastIndexOf_last_mark.
    unfold sentence_marks in Hin.
    repeat (apply elem_of_cons in Hin as [-> | Hin]; [discriminate|]).
    inversion Hin. }
  assert (Hle : forall pat, pat ∈ sentence_marks -> lastIndexOf pat u <= sentenceEnd u).
  { intros pat Hin. unfold sentence_marks in Hin. unfold sentenceEnd.
    repeat (apply elem_of_cons in Hin as [-> | Hin]; [lia|]). inversion Hin. }
  assert (Hone : exists pat, pat ∈ sentence_marks /\ sentenceEnd u = lastIndexOf pat u).
  { unfold sentenceEnd, sentence_marks.
    set (a := lastIndexOf (str ". ") u). set (b := lastIndexOf [46%N; lf] u).
    set (c := lastIndexOf (str "? ") u). set (d := lastIndexOf (str "! ") u).
    destruct (Z.max_spec (Z.max a b) (Z.max c d)) as [[_ ->] | [_ ->]].
    - destruct (Z.max_spec c d) as [[_ ->] | [_ ->]].
      + exists (str "! "). split; [|reflexivity]. do 3 right. left.
      + exists (str "? "). split; [|reflexivity]. do 2 right. left.
    - destruct (Z.max_spec a b) as [[_ ->] | [_ ->]].
      + exists [46%N; lf]. split; [|reflexivity]. right. left.
      + exists (str ". "). split; [|reflexivity]. left. }
  destruct Hone as (pat & Hin & Heq).
  destruct (Hcases pat Hin) as [[Hnone _] | (Hpos & Hocc & _)].
  - left. split; [lia|]. intros j (mark & Hmark & Hj).
    destruct (Hcases mark Hmark) as [[_ Hno] | (Hp & _ & _)].
    + exact (Hno j Hj).
    + pose proof (Hle mark Hmark). lia.
  - right. split; [lia|]. split.
    + exists pat. rewrite Heq. split; assumption.
    + intros j (mark & Hmark & Hj).
      destruct (Hcases mark Hmark) as [[_ Hno] | (_ & _ & Hmax)].
      * destruct (Hno j Hj).
      * pose proof (Hmax j Hj). pose proof (Hle mark Hmark). lia.
Qed.

Lemma hasParagraphBreak_trigger (u : jsstring) :
  hasParagraphBreak u = true <-> paragraph_trigger u.
Proof.
  unfold hasParagraphBreak, paragraph_trigger.
  rewrite andb_true_iff, Z.ltb_lt, includes_lastIndexOf by discriminate.
  rewrite Z.leb_le.
  destruct (lastIndexOf_last_mark paragraph_break u ltac:(discriminate))
    as [[Hnone Hno] | (Hpos & Hocc & _)].
  - split; [lia|]. intros [[i Hi] _]. destruct (Hno i Hi).
  - split; intros [_ Hlen]; (split; [|exact Hlen]); [eauto | exact Hpos].
Qed.

(** C8, amended.  When a flush fires, the cut is: the last paragraph break
    of the unsent tail, if the paragraph trigger fired and that break is not
    at index 0; if the paragraph trigger did not fire, just after the
    punctuation of the last sentence mark ([. ], [.\n], [? ], [! ]) when
    that mark lies past 30% of the tail; else the last space when it lies
    past 30%; else the end of the tail.  The last break, mark and space are
    the greatest indices at which the text itself holds them.  A tail of 500
    code units whose last paragraph break is at 120 is cut at 120. *)
Theorem cut_point_priority (unsent : jsstring) :
  (paragraph_trigger unsent ->
   forall i, last_mark [paragraph_break] unsent i -> 0 < i ->
   flushEnd unsent = i) /\
  (~ paragraph_trigger unsent ->
   forall i, last_mark sentence_marks unsent i -> past_30_percent unsent i ->
   flushEnd unsent = i + 1) /\
  (~ paragraph_trigger unsent ->
   (forall i, marked sentence_marks unsent i -> ~ past_30_percent unsent i) ->
   forall j, last_mark [[space]] unsent j -> past_30_percent unsent j ->
   flushEnd unsent = j) /\
  (~ paragraph_trigger unsent ->
   (forall i, marked sentence_marks unsent i -> ~ past_30_percent unsent i) ->
   (forall j, marked [[space]] unsent j -> ~ past_30_percent unsent j) ->
   flushEnd unsent = len unsent) /\
  (len unsent = 500 ->
   last_mark [paragraph_break] unsent 120 ->
   flushEnd unsent = 120).
Proof.
  assert (Hpast : forall i, past30 i (len unsent) = true <-> past_30_percent unsent i).
  { intros i. unfold past30, past_30_percent. apply Z.ltb_lt. }
  assert (Hnotpast : forall i, past30 i (len unsent) = false <-> ~ past_30_percent unsent i).
  { intros i. rewrite <- Hpast. destruct (past30 i (len unsent)); split; congruence. }
  assert (Hquiet : ~ paragraph_trigger unsent -> hasParagraphBreak unsent = false).
  { intros Hn. destruct (hasParagraphBreak unsent) eqn:E; [|reflexivity].
    apply hasParagraphBreak_trigger in E. contradiction. }
  assert (Hsentence : (forall i, marked sentence_marks unsent i -> ~ past_30_percent unsent i) ->
                      past30 (sentenceEnd unsent) (len unsent) = false).
  { intros Hnone. apply Hnotpast.
    destruct (sentenceEnd_last_mark unsent) as [[-> _] | [_ [Hm _]]].
    - unfold past_30_percent. pose proof (len_nonneg unsent). lia.
    - apply Hnone, Hm. }
  assert (Hpara : paragraph_trigger unsent ->
                  forall i, last_mark [paragraph_break] unsent i -> 0 < i ->
                  flushEnd unsent = i).
  { intros Htr i Hlast Hpos. unfold flushEnd.
    apply hasParagraphBreak_trigger in Htr. rewrite Htr.
    rewrite (lastIndexOf_of_last_mark paragraph_break unsent i) by (discriminate || exact Hlast).
    apply Z.ltb_lt in Hpos. rewrite Hpos. reflexivity. }
  split; [exact Hpara|]. split; [|split; [|split]].
  - intros Hn i Hlast Hp. unfold flushEnd. rewrite (Hquiet Hn).
    destruct (sentenceEnd_last_mark unsent) as [[_ Hno] | [_ Hse]].
    { destruct Hlast as [Hm _]. destruct (Hno i Hm). }
    rewrite (last_mark_unique _ _ _ _ Hse Hlast).
    apply Hpast in Hp. rewrite Hp. reflexivity.
  - intros Hn Hnone j Hlast Hp. unfold flushEnd.
    rewrite (Hquiet Hn), (Hsentence Hnone).
    rewrite (lastIndexOf_of_last_mark [space] unsent j) by (discriminate || exact Hlast).
    apply Hpast in Hp. rewrite Hp. reflexivity.
  - intros Hn Hnone Hnospace. unfold flushEnd.
    rewrite (Hquiet Hn), (Hsentence Hnone).
    replace (past30 (lastIndexOf [space] unsent) (len unsent)) with false; [reflexivity|].
    symmetry. apply Hnotpast.
    destruct (lastIndexOf_last_mark [space] unsent ltac:(discriminate))
      as [[-> _] | (_ & Hocc & _)].
    + unfold past_30_percent. pose proof (len_nonneg unsent). lia.
    + apply Hnospace. exists [space]. split; [left | exact Hocc].
  - intros Hlen Hlast. apply Hpara; [|exact Hlast | lia].
    split; [|lia]. destruct Hlast as [(mark & Hin & Hocc) _].
    apply list_elem_of_singleton in Hin. subst mark. eauto.
Qed.

Lemma cut_point_priority_witness :
  flushEnd tail_with_break_at_120 = 120.
Proof.
  apply (cut_point_priority tail_with_break_at_120).
  - vm_compute. reflexivity.
  - apply last_mark_of_lastIndexOf; [discriminate | vm_compute; reflexivity | lia].
Defined.

End Relay.

(** ** Turn segmentation in the terminal relay ([callAgent] of terminal-relay.ts) *)

Module Terminal.
Import Js.

(** What the loop writes to standard output. *)
Inductive Output :=
| Separator
| Printed (text : jsstring).

(** The local variables of the streaming loop, and what was written. *)
Record Console := {
  allResponses : list jsstring;
  currentTurnText : jsstring;
  currentTurnPrinted : Z;
  currentMsgUuid : jsstring;
  written : list Output
}.

Definition start : Console :=
  {| allResponses := []; currentTurnText := []; currentTurnPrinted := 0;
     currentMsgUuid := []; written := [] |}.

(** [(msgUuid && currentMsgUuid && msgUuid !== currentMsgUuid) ||
     (!msgUuid && text.length < currentTurnText.length && currentTurnText)] *)
Definition isNewTurn (msgUuid text : jsstring) (c : Console) : bool :=
  truthy msgUuid && truthy (currentMsgUuid c) &&
    negb (bool_decide (msgUuid = currentMsgUuid c)) ||
  negb (truthy msgUuid) && (len text <? len (currentTurnText c)) &&
    truthy (currentTurnText c).

(** The text branch for an assistant message whose text blocks join to
    [text] and whose [uuid] field, or the empty string, is [msgUuid]. *)
Definition onAssistant (text msgUuid : jsstring) (c : Console) : Console :=
  if truthy text then
    let new := isNewTurn msgUuid text c in
    let uuid1 := if truthy msgUuid then msgUuid else currentMsgUuid c in
    let all1 :=
      if new && truthy (currentTurnText c)
      then allResponses c ++ [currentTurnText c] else allResponses c in
    let out1 := if new then written c ++ [Separator] else written c in
    let printed1 := if new then 0 else currentTurnPrinted c in
    let newContent := slice_from text printed1 in
    {| allResponses := all1;
       currentTurnText := text;
       currentTurnPrinted := if truthy newContent then len text else printed1;
       currentMsgUuid := uuid1;
       written := if truthy newContent then out1 ++ [Printed newContent] else out1 |}
  else c.

(** The assistant messages of a stream, each as (text, uuid), in order. *)
Definition feed (c : Console) (ms : list (jsstring * jsstring)) : Console :=
  fold_left (fun c m => onAssistant (fst m) (snd m) c) ms c.

(** A recorded message identifier belongs to a recorded text. *)
Definition uuid_has_text (c : Console) : Prop :=
  truthy (currentMsgUuid c) = true -> truthy (currentTurnText c) = true.

(** What a stream leaves recorded, in the words of the specification: the
    text of the last message that carried text, and the identifier of the
    last message that carried text and an identifier; the empty string when
    there is none. *)
Definition last_text (ms : list (jsstring * jsstring)) : jsstring :=
  default [] (fst <$> last (filter (fun m => truthy m.1 = true) ms)).

Definition last_uuid (ms : list (jsstring * jsstring)) : jsstring :=
  default [] (snd <$> last (filter (fun m => truthy m.1 && truthy m.2 = true) ms)).

(** The texts of the assistant messages of a Telegram stream that carry
    text. *)
Definition spoken (ms : list Relay.Msg) : list jsstring :=
  omap (fun m => match m with
                 | Relay.Assistant text _ => if truthy text then Some text else None
                 | _ => None
                 end) ms.

(** *** Facts about the terminal segmenter *)

Lemma onAssistant_uuid_has_text (text msgUuid : jsstring) (c : Console) :
  uuid_has_text c -> uuid_has_text (onAssistant text msgUuid c).
Proof.
  unfold uuid_has_text, onAssistant. intros H.
  destruct (truthy text) eqn:Ht; [|exact H].
  cbn [currentMsgUuid currentTurnText]. intros _. exact Ht.
Qed.

Lemma feed_uuid_has_text (ms : list (jsstring * jsstring)) : forall c,
  uuid_has_text c -> uuid_has_text (feed c ms).
Proof.
  induction ms as [|m ms IH]; intros c H; [exact H|].
  apply IH, onAssistant_uuid_has_text, H.
Qed.

Lemma truthy_nonempty (u : jsstring) : truthy u = true <-> u <> [].
Proof. destruct u; cbn; split; congruence. Qed.

Lemma isNewTurn_spec (msgUuid text : jsstring) (c : Console) :
  isNewTurn msgUuid text c = true <->
  (msgUuid <> [] /\ currentMsgUuid c <> [] /\ msgUuid <> currentMsgUuid c) \/
  (msgUuid = [] /\ len text < len (currentTurnText c)).
Proof.
  unfold isNewTurn.
  rewrite orb_true_iff, !andb_true_iff, !negb_true_iff, Z.ltb_lt.
  rewrite bool_decide_eq_false, !truthy_nonempty.
  pose proof (len_nonneg text) as Hn.
  split.
  - intros [[[H1 H2] H3] | [[H1 H2] H3]]; [left; tauto | right].
    destruct msgUuid; [split; [reflexivity | exact H2] | discriminate].
  - intros [(H1 & H2 & H3) | [-> H2]]; [left; tauto | right].
    split; [split; [reflexivity | exact H2]|].
    intros Heq. rewrite Heq in H2. unfold len in H2. cbn in H2. lia.
Qed.

Lemma telegram_step_archives (s : Relay.Stream) (text : jsstring) (now : Z)
    (all : list jsstring) (cur : jsstring) (b : bool) :
  truthy text = true ->
  Relay.allResponses s = all -> Relay.currentTurnText s = cur ->
  Relay.isNewTurn text cur = b ->
  Relay.allResponses (Relay.step s (Relay.Assistant text now)) =
    (if b then all ++ [cur] else all) /\
  Relay.currentTurnText (Relay.step s (Relay.Assistant text now)) = text.
Proof.
  intros Ht <- <- <-. apply Relay.step_text_state, Ht.
Qed.

Lemma feed_last (ms : list (jsstring * jsstring)) (m : jsstring * jsstring) (c : Console) :
  feed c (ms ++ [m]) = onAssistant m.1 m.2 (feed c ms).
Proof. unfold feed. rewrite fold_left_app. reflexivity. Qed.

Lemma last_text_snoc (ms : list (jsstring * jsstring)) (m : jsstring * jsstring) :
  last_text (ms ++ [m]) = if truthy m.1 then m.1 else last_text ms.
Proof.
  unfold last_text. rewrite filter_app, filter_cons, filter_nil.
  destruct (truthy m.1) eqn:Ht.
  - rewrite decide_True by reflexivity. rewrite last_snoc. reflexivity.
  - rewrite decide_False by discriminate. rewrite app_nil_r. reflexivity.
Qed.

Lemma last_uuid_snoc (ms : list (jsstring * jsstring)) (m : jsstring * jsstring) :
  last_uuid (ms ++ [m]) = if truthy m.1 && truthy m.2 then m.2 else last_uuid ms.
Proof.
  unfold last_uuid. rewrite filter_app, filter_cons, filter_nil.
  destruct (truthy m.1 && truthy m.2) eqn:Ht.
  - rewrite decide_True by reflexivity. rewrite last_snoc. reflexivity.
  - rewrite decide_False by discriminate. rewrite app_nil_r. reflexivity.
Qed.

(** The state the terminal loop is in, read off the stream alone. *)
Lemma feed_records (ms : list (jsstring * jsstring)) :
  currentTurnText (feed start ms) = last_text ms /\
  currentMsgUuid (feed start ms) = last_uuid ms.
Proof.
  induction ms as [|m ms [IHt IHu]] using rev_ind; [split; reflexivity|].
  rewrite feed_last, last_text_snoc, last_uuid_snoc. unfold onAssistant.
  destruct (truthy m.1) eqn:Ht; cbn [andb currentTurnText currentMsgUuid].
  - split; [reflexivity|]. destruct (truthy m.2); [reflexivity | exact IHu].
  - split; assumption.
Qed.

Lemma spoken_snoc (ms : list Relay.Msg) (m : Relay.Msg) :
  spoken (ms ++ [m]) =
  spoken ms ++ match m with
               | Relay.Assistant text _ => if truthy text then [text] else []
               | _ => []
               end.
Proof.
  unfold spoken. rewrite omap_app.
  destruct m as [text now | result |]; [destruct (truthy text) eqn:Ht|..];
    cbn; rewrite ?Ht; reflexivity.
Qed.

Lemma run_records (ms : list Relay.Msg) : forall s : Relay.Stream,
  Relay.currentTurnText (Relay.run s ms) =
  default (Relay.currentTurnText s) (last (spoken ms)).
Proof.
  induction ms as [|m ms IH] using rev_ind; intros s; [reflexivity|].
  rewrite spoken_snoc. unfold Relay.run in *. rewrite fold_left_app. cbn [fold_left].
  destruct m as [text now | result |].
  - destruct (truthy text) eqn:Ht.
    + rewrite last_snoc. cbn [default]. apply Relay.step_text_state, Ht.
    + cbn [Relay.step]. rewrite Ht, app_nil_r. apply IH.
  - rewrite app_nil_r. cbn [Relay.step Relay.onResult Relay.currentTurnText]. apply IH.
  - rewrite app_nil_r. cbn [Relay.step]. apply IH.
Qed.

(** *** The claim on turn detection *)

(** C7.  For an assistant message that carries text, the Telegram relay
    detects a new turn exactly when the text is strictly shorter than the
    recorded one, and the terminal relay exactly when the message has an
    identifier that differs from the recorded one, or has none and its text
    is strictly shorter.  On detection the recorded text is appended to
    [allResponses]; in every case the new text becomes [currentTurnText],
    and on the terminal the identifier of the message, when it has one,
    becomes the recorded one.  The recorded text is that of the last
    message with text, and the recorded identifier that of the last message
    with text and an identifier, so the terminal detects a turn exactly
    where the identifier changes from one such message to the next.  The
    stream [Hi], [Hi there], [Hi there!], [Sure,] leaves [Hi there!]
    archived and [Sure,] current, in both relays; a message [m1] followed by
    three updates of a message [m2] makes two turns on the terminal. *)
Theorem new_turn_detection :
  (forall (s : Relay.Stream) (text : jsstring) (now : Z),
      truthy text = true ->
      (Relay.isNewTurn text (Relay.currentTurnText s) = true <->
       len text < len (Relay.currentTurnText s)) /\
      Relay.allResponses (Relay.step s (Relay.Assistant text now)) =
        (if Relay.isNewTurn text (Relay.currentTurnText s)
         then Relay.allResponses s ++ [Relay.currentTurnText s]
         else Relay.allResponses s) /\
      Relay.currentTurnText (Relay.step s (Relay.Assistant text now)) = text) /\
  (forall (ms : list (jsstring * jsstring)) (text msgUuid : jsstring),
      truthy text = true ->
      (isNewTurn msgUuid text (feed start ms) = true <->
       (msgUuid <> [] /\ currentMsgUuid (feed start ms) <> [] /\
        msgUuid <> currentMsgUuid (feed start ms)) \/
       (msgUuid = [] /\ len text < len (currentTurnText (feed start ms)))) /\
      allResponses (onAssistant text msgUuid (feed start ms)) =
        (if isNewTurn msgUuid text (feed start ms)
         then allResponses (feed start ms) ++ [currentTurnText (feed start ms)]
         else allResponses (feed start ms)) /\
      currentTurnText (onAssistant text msgUuid (feed start ms)) = text) /\
  (forall now0 n1 n2 n3 n4 : Z,
      Relay.allResponses
        (Relay.run (Relay.start now0)
           [Relay.Assistant (str "Hi") n1; Relay.Assistant (str "Hi there") n2;
            Relay.Assistant (str "Hi there!") n3; Relay.Assistant (str "Sure,") n4])
        = [str "Hi there!"] /\
      Relay.currentTurnText
        (Relay.run (Relay.start now0)
           [Relay.Assistant (str "Hi") n1; Relay.Assistant (str "Hi there") n2;
            Relay.Assistant (str "Hi there!") n3; Relay.Assistant (str "Sure,") n4])
        = str "Sure,") /\
  (allResponses
     (feed start [(str "Hi", []); (str "Hi there", []); (str "Hi there!", []); (str "Sure,", [])])
     = [str "Hi there!"] /\
   currentTurnText
     (feed start [(str "Hi", []); (str "Hi there", []); (str "Hi there!", []); (str "Sure,", [])])
     = str "Sure,") /\
  (forall (c : Console) (text msgUuid : jsstring),
      truthy text = true ->
      currentMsgUuid (onAssistant text msgUuid c) =
        if truthy msgUuid then msgUuid else currentMsgUuid c) /\
  (forall ms : list (jsstring * jsstring),
      currentTurnText (feed start ms) = last_text ms /\
      currentMsgUuid (feed start ms) = last_uuid ms) /\
  (forall (ms : list (jsstring * jsstring)) (text msgUuid : jsstring),
      truthy text = true ->
      (isNewTurn msgUuid text (feed start ms) = true <->
       (msgUuid <> [] /\ last_uuid ms <> [] /\ msgUuid <> last_uuid ms) \/
       (msgUuid = [] /\ len text < len (last_text ms)))) /\
  (forall (now0 : Z) (ms : list Relay.Msg) (text : jsstring),
      truthy text = true ->
      (Relay.isNewTurn text (Relay.currentTurnText (Relay.run (Relay.start now0) ms)) = true <->
       len text < len (default [] (last (spoken ms))))) /\
  (allResponses
     (feed start [(str "one", str "m1"); (str "t", str "m2"); (str "tw", str "m2");
                  (str "two", str "m2")])
     = [str "one"] /\
   currentTurnText
     (feed start [(str "one", str "m1"); (str "t", str "m2"); (str "tw", str "m2");
                  (str "two", str "m2")])
     = str "two" /\
   written
     (feed start [(str "one", str "m1"); (str "t", str "m2"); (str "tw", str "m2");
                  (str "two", str "m2")])
     = [Printed (str "one"); Separator; Printed (str "t"); Printed (str "w");
        Printed (str "o")]).
Proof.
  split; [|split; [|split; [|split; [|split; [|split; [|split; [|split]]]]]]].
  - intros s text now Ht. split; [apply Relay.isNewTurn_shorter|].
    apply Relay.step_text_state, Ht.
  - intros ms text msgUuid Ht.
    split; [apply isNewTurn_spec|].
    assert (Hinv : uuid_has_text (feed start ms)).
    { apply feed_uuid_has_text. intros H. discriminate. }
    unfold onAssistant. rewrite Ht. cbn [allResponses currentTurnText].
    split; [|reflexivity].
    destruct (isNewTurn msgUuid text (feed start ms)) eqn:E; [|reflexivity].
    assert (Hcur : truthy (currentTurnText (feed start ms)) = true).
    { apply isNewTurn_spec in E as [(_ & Hu & _) | [_ Hlt]].
      - apply Hinv, truthy_nonempty, Hu.
      - apply Relay.truthy_len. pose proof (len_nonneg text). lia. }
    rewrite Hcur. reflexivity.
  - intros now0 n1 n2 n3 n4. unfold Relay.run. cbn [fold_left].
    destruct (telegram_step_archives (Relay.start now0) (str "Hi") n1 [] [] false
                eq_refl eq_refl eq_refl eq_refl) as [A1 T1].
    destruct (telegram_step_archives _ (str "Hi there") n2 _ _ false
                eq_refl A1 T1 eq_refl) as [A2 T2].
    destruct (telegram_step_archives _ (str "Hi there!") n3 _ _ false
                eq_refl A2 T2 eq_refl) as [A3 T3].
    exact (telegram_step_archives _ (str "Sure,") n4 _ _ true
             eq_refl A3 T3 eq_refl).
  - split; vm_compute; reflexivity.
  - intros c text msgUuid Ht. unfold onAssistant. rewrite Ht. reflexivity.
  - apply feed_records.
  - intros ms text msgUuid Ht.
    destruct (feed_records ms) as [<- <-]. apply isNewTurn_spec.
  - intros now0 ms text Ht. rewrite run_records. apply Relay.isNewTurn_shorter.
  - repeat split; vm_compute; reflexivity.
Qed.

Lemma new_turn_detection_witness :
  Relay.allResponses
    (Relay.step (Relay.step (Relay.start 0) (Relay.Assistant (str "Hi there!") 5))
                (Relay.Assistant (str "Sure,") 9)) = [str "Hi there!"] /\
  allResponses
    (onAssistant (str "Sure,") (str "m2") (feed start [(str "Hi there!", str "m1")]))
    = [str "Hi there!"] /\
  currentMsgUuid
    (onAssistant (str "Sure,") (str "m2") (feed start [(str "Hi there!", str "m1")]))
    = str "m2" /\
  isNewTurn (str "m2") (str "Sure, I") (feed start [(str "Hi there!", str "m1"); (str "Sure,", str "m2")])
    = false.
Proof.
  pose proof new_turn_detection as (H1 & H2 & _ & _ & H5 & _ & H7 & _).
  split; [|split; [|split]].
  - exact (proj1 (proj2 (H1 (Relay.step (Relay.start 0) (Relay.Assistant (str "Hi there!") 5))
                            (str "Sure,") 9 eq_refl))).
  - exact (proj1 (proj2 (H2 [(str "Hi there!", str "m1")] (str "Sure,") (str "m2") eq_refl))).
  - exact (H5 (feed start [(str "Hi there!", str "m1")]) (str "Sure,") (str "m2") eq_refl).
  - destruct (isNewTurn (str "m2") (str "Sure, I")
                (feed start [(str "Hi there!", str "m1"); (str "Sure,", str "m2")])) eqn:E;
      [|reflexivity].
    apply (H7 [(str "Hi there!", str "m1"); (str "Sure,", str "m2")] (str "Sure, I") (str "m2")
              eq_refl) in E.
    destruct E as [(_ & _ & Hne) | [Hempty _]]; [|discriminate Hempty].
    exfalso. apply Hne. reflexivity.
Defined.

End Terminal.

(** ** Message queue: one query at a time ([enqueue] of the Telegram relay) *)

Module Queue.

Section Entries.

(** An entry is the pair [{ ctx, handler }] of the source. *)
Context {Entry : Type}.

(** What the outside sees: a handler is called, the sender is told that its
    message waits, an awaited handler settles (fulfilled or rejected), or the
    stop command answers that it stopped the query, or that nothing runs. *)
Inductive Observed :=
| Started (e : Entry)
| Deferred (e : Entry)
| Settled (e : Entry) (fulfilled : bool)
| Stopped
| NothingRunning.

(** [processing], [messageQueue] and [abortController] (set or null) are
    module variables.  [awaiting] holds the calls of [enqueue] that are
    suspended at [await handler ()], oldest first. *)
Record State := {
  processing : bool;
  messageQueue : list Entry;
  abortController : bool;
  awaiting : list Entry;
  observed : list Observed
}.

Definition idle : State :=
  {| processing := false; messageQueue := []; abortController := false;
     awaiting := []; observed := [] |}.

(** A call of [enqueue], up to its first suspension.  Every handler the
    relay passes to [enqueue] begins by calling [callAgent], which sets
    [abortController] before it first suspends. *)
Definition enqueue (e : Entry) (st : State) : State :=
  if processing st then
    {| processing := true;
       messageQueue := messageQueue st ++ [e];
       abortController := abortController st;
       awaiting := awaiting st;
       observed := observed st ++ [Deferred e] |}
  else
    {| processing := true;
       messageQueue := messageQueue st;
       abortController := true;
       awaiting := awaiting st ++ [e];
       observed := observed st ++ [Started e] |}.

(** The [finally] block of the call of [enqueue] that is [k]-th in
    [awaiting], entered when its handler settles either way: clear the flag,
    shift the queue, and call [enqueue] on what came out. *)
Definition finally (k : nat) (e : Entry) (fulfilled : bool) (st : State) : State :=
  let st1 :=
    {| processing := false;
       messageQueue := tail (messageQueue st);
       abortController := abortController st;
       awaiting := delete k (awaiting st);
       observed := observed st ++ [Settled e fulfilled] |} in
  match messageQueue st with
  | next :: _ => enqueue next st1
  | [] => st1
  end.

(** The [finally] block of [callAgent]. *)
Definition queryEnds (st : State) : State :=
  {| processing := processing st;
     messageQueue := messageQueue st;
     abortController := false;
     awaiting := awaiting st;
     observed := observed st |}.

(** The stop command, [/stop] or one of the words [stop], [cancel],
    [nevermind], [nvm], [abort], [kill it]: with a query to abort it clears
    [abortController] and [processing], though the handler of that query is
    still awaited. *)
Definition stop (st : State) : State :=
  if abortController st then
    {| processing := false;
       messageQueue := messageQueue st;
       abortController := false;
       awaiting := awaiting st;
       observed := observed st ++ [Stopped] |}
  else
    {| processing := processing st;
       messageQueue := messageQueue st;
       abortController := abortController st;
       awaiting := awaiting st;
       observed := observed st ++ [NothingRunning] |}.

(** What happens to the relay: a message arrives and its handler is handed to
    [enqueue]; the query of a running handler ends; the [k]-th of the awaited
    handlers settles; the stop command arrives. *)
Inductive Event :=
| Arrive (e : Entry)
| QueryEnds
| Settle (k : nat) (fulfilled : bool)
| Stop.

(** Only a handler that is awaited can settle. *)
Definition step (st : State) (ev : Event) : option State :=
  match ev with
  | Arrive e => Some (enqueue e st)
  | QueryEnds => Some (queryEnds st)
  | Settle k fulfilled =>
      match awaiting st !! k with
      | Some e => Some (finally k e fulfilled st)
      | None => None
      end
  | Stop => Some (stop st)
  end.

Fixpoint run (st : State) (evs : list Event) : option State :=
  match evs with
  | [] => Some st
  | ev :: evs' =>
      match step st ev with
      | Some st' => run st' evs'
      | None => None
      end
  end.









End Entries.

Arguments State : clear implicits.
Arguments Event : clear implicits.
Arguments Observed : clear implicits.

(** *** Facts about the queue *)

Section Facts.

Context {Entry : Type}.
Implicit Types (e : Entry) (st : State Entry) (arr : list Entry).















End Facts.

(** *** The claim on the queue *)




End Queue.

(** ** Approval of dangerous commands *)

Module Approval.
Import Js.

(** [10 * 60 * 1000] milliseconds. *)
Definition TIMEOUT : Z := 10 * 60 * 1000.

(** *** Telegram: a button tap, or ten minutes *)

(** A value of the map [pendingApprovals]: the [resolve] function of the
    promise that [requestTelegramApproval] returned, named by the number of
    that promise, and the handle of its timer. *)
Record Pending := { resolve : nat; timer : nat }.

(** An armed timer.  Its callback deletes [target] from the map and calls
    the [resolve] of the promise created with it; the two are created
    together and share their number, [handle]. *)
Record Timer := { handle : nat; due : Z; target : string }.

(** Texts given to [answerCallbackQuery]. *)
Inductive Answer :=
| NotAuthorized
| UnknownAction
| Expired
| Approved
| Rejected.

(** What a call of [requestTelegramApproval] meets: no [currentCtx]; a
    [currentCtx] whose [reply] rejects; or one whose [reply] is fulfilled. *)
Inductive Context :=
| NoContext
| ReplyRejects
| ReplySent.

(** The calls of [requestTelegramApproval] are numbered in their order, and
    so are the promises they return.  [resolutions] records every call of
    a [resolve] function (and the [return false] of a call without context);
    [thrown] the promises rejected with the error of [reply]. *)
Record Gate := {
  now : Z;
  pendingApprovals : gmap string Pending;
  timers : list Timer;
  fresh : nat;
  resolutions : list (nat * bool);
  thrown : list nat;
  answers : list Answer
}.

Definition empty : Gate :=
  {| now := 0; pendingApprovals := ∅; timers := []; fresh := 0%nat;
     resolutions := []; thrown := []; answers := [] |}.

(** [requestTelegramApproval], with the identifier [Math.random] produced.
    Without a context the promise is fulfilled with [false] at once and
    nothing is stored.  With one, the prompt is sent first and awaited: when
    that fails the function throws before it has made a timer or touched the
    map; when it succeeds, [now g] being the time at which it has, the timer
    is set and the entry stored. *)
Definition request (id : string) (ctx : Context) (g : Gate) : Gate :=
  match ctx with
  | NoContext =>
      {| now := now g;
         pendingApprovals := pendingApprovals g;
         timers := timers g;
         fresh := S (fresh g);
         resolutions := resolutions g ++ [(fresh g, false)];
         thrown := thrown g;
         answers := answers g |}
  | ReplyRejects =>
      {| now := now g;
         pendingApprovals := pendingApprovals g;
         timers := timers g;
         fresh := S (fresh g);
         resolutions := resolutions g;
         thrown := thrown g ++ [fresh g];
         answers := answers g |}
  | ReplySent =>
      {| now := now g;
         pendingApprovals :=
           <[id := {| resolve := fresh g; timer := fresh g |}]> (pendingApprovals g);
         timers := timers g ++ [{| handle := fresh g; due := now g + TIMEOUT; target := id |}];
         fresh := S (fresh g);
         resolutions := resolutions g;
         thrown := thrown g;
         answers := answers g |}
  end.

Definition reply (a : Answer) (g : Gate) : Gate :=
  {| now := now g; pendingApprovals := pendingApprovals g; timers := timers g;
     fresh := fresh g; resolutions := resolutions g; thrown := thrown g;
     answers := answers g ++ [a] |}.

(** The [callback_query:data] handler.  [authorized] is the outcome of the
    test on the presser; [data] is what the pattern [^(approve|reject)_(.+)$]
    extracts: nothing, or the action and the identifier. *)
Definition press (authorized : bool) (data : option (bool * string)) (g : Gate) : Gate :=
  if negb authorized then reply NotAuthorized g
  else
    match data with
    | None => reply UnknownAction g
    | Some (approve, id) =>
        match pendingApprovals g !! id with
        | None => reply Expired g
        | Some p =>
            {| now := now g;
               pendingApprovals := delete id (pendingApprovals g);
               timers := filter (fun t => handle t <> timer p) (timers g);
               fresh := fresh g;
               resolutions := resolutions g ++ [(resolve p, approve)];
               thrown := thrown g;
               answers := answers g ++ [if approve then Approved else Rejected] |}
        end
    end.

(** The callbacks of the timers in [ts] run, in that order. *)
Definition fire (ts : list Timer) (m : gmap string Pending) : gmap string Pending :=
  fold_left (fun m t => delete (target t) m) ts m.

(** [dt] milliseconds pass: every timer that is due by then runs, and stays
    armed no longer. *)
Definition elapse (dt : N) (g : Gate) : Gate :=
  let now' := now g + Z.of_N dt in
  let fired := filter (fun t => due t <= now') (timers g) in
  {| now := now';
     pendingApprovals := fire fired (pendingApprovals g);
     timers := filter (fun t => ~ due t <= now') (timers g);
     fresh := fresh g;
     resolutions := resolutions g ++ ((fun t => (handle t, false)) <$> fired);
     thrown := thrown g;
     answers := answers g |}.

Inductive Event :=
| Request (id : string) (ctx : Context)
| Press (authorized : bool) (data : option (bool * string))
| Elapse (dt : N).

Definition step (g : Gate) (ev : Event) : Gate :=
  match ev with
  | Request id ctx => request id ctx g
  | Press authorized data => press authorized data g
  | Elapse dt => elapse dt g
  end.

Definition run (g : Gate) (evs : list Event) : Gate := fold_left step evs g.

(** How many times the promise [p] was resolved. *)
Definition times_resolved (p : nat) (rs : list (nat * bool)) : nat :=
  length (filter (fun r => r.1 = p) rs).

Definition elapsed (evs : list Event) : Z :=
  foldr (fun ev acc => match ev with Elapse dt => Z.of_N dt + acc | _ => acc end) 0 evs.

(** An event that is neither a decision on [id] by the authorized user nor
    a second request under [id]. *)
Definition undecided (id : string) (ev : Event) : Prop :=
  match ev with
  | Request id' _ => id' <> id
  | Press true (Some (_, id')) => id' <> id
  | _ => True
  end.

Definition quiet (id : string) (evs : list Event) : Prop :=
  Forall (undecided id) evs.

(** *** Terminal: a typed answer, and no clock *)

(** The calls of [requestTerminalApproval] are numbered in their order, and
    so are the promises they return.  [verdicts] holds the promises that
    are fulfilled, with their values, in the order in which they were. *)
Record Prompt := {
  clock : Z;
  asked : nat;
  verdicts : list (nat * bool)
}.

Definition silent : Prompt :=
  {| clock := 0; asked := 0%nat; verdicts := [] |}.

(** [answer.toLowerCase ().startsWith ("y")] *)
Definition says_yes (answer : jsstring) : bool :=
  match answer with
  | c :: _ => (c =? 121)%N || (c =? 89)%N
  | [] => false
  end.

(** The [resolve] function of promise [q], called with [v]: the promise is
    fulfilled with [v], unless it is fulfilled already, and then the call
    does nothing. *)
Definition fulfil (q : nat) (v : bool) (p : Prompt) : Prompt :=
  if bool_decide (q ∈ (verdicts p).*1) then p
  else {| clock := clock p; asked := asked p; verdicts := verdicts p ++ [(q, v)] |}.

(** [requestTerminalApproval]: a new promise, whose executor writes the
    command and gives [rl.question] the callback below.  It sets no timer
    and looks at no other approval. *)
Definition requestTerminalApproval (p : Prompt) : Prompt :=
  {| clock := clock p; asked := S (asked p); verdicts := verdicts p |}.

(** The callback [requestTerminalApproval] gave to [rl.question] for promise
    [q], called with [answer]. *)
Definition answered (q : nat) (answer : jsstring) (p : Prompt) : Prompt :=
  fulfil q (says_yes answer) p.

(** What happens at the terminal.  Which of the callbacks it was given
    [readline] calls, with which line and when, is its own business: the
    model takes it as an input, and only a callback that was given can be
    called. *)
Inductive Input :=
| Ask
| Called (q : nat) (answer : jsstring)
| Wait (dt : N).

Definition feed (p : Prompt) (i : Input) : Prompt :=
  match i with
  | Ask => requestTerminalApproval p
  | Called q answer => if bool_decide (q < asked p)%nat then answered q answer p else p
  | Wait dt =>
      {| clock := clock p + Z.of_N dt; asked := asked p; verdicts := verdicts p |}
  end.

Definition feed_all (p : Prompt) (inputs : list Input) : Prompt :=
  fold_left feed inputs p.

(** The answers that the callback of the approval numbered [q] was called
    with, oldest first, [count] approvals having been requested before
    [inputs]. *)
Fixpoint heard (q count : nat) (inputs : list Input) : list jsstring :=
  match inputs with
  | [] => []
  | Ask :: rest => heard q (S count) rest
  | Called q' answer :: rest =>
      if bool_decide (q' = q /\ (q < count)%nat) then answer :: heard q count rest
      else heard q count rest
  | Wait _ :: rest => heard q count rest
  end.

(** The calls of [resolve] functions that concern promise [q]. *)
Definition about (q : nat) (rs : list (nat * bool)) : list (nat * bool) :=
  filter (fun r => r.1 = q) rs.

(** *** Facts about the Telegram gate *)

Lemma times_resolved_app (p : nat) (a b : list (nat * bool)) :
  times_resolved p (a ++ b) = (times_resolved p a + times_resolved p b)%nat.
Proof. unfold times_resolved. rewrite filter_app, length_app. reflexivity. Qed.

Lemma times_resolved_one (p q : nat) (v : bool) :
  times_resolved p [(q, v)] = if decide (q = p) then 1%nat else 0%nat.
Proof.
  unfold times_resolved. rewrite filter_cons. cbn [fst].
  destruct (decide (q = p)); reflexivity.
Qed.

Lemma handles_filter (P : Timer -> Prop) `{!forall t, Decision (P t)}
    (ts : list Timer) (h : nat) :
  h ∈ handle <$> filter P ts -> h ∈ handle <$> ts.
Proof.
  rewrite !list_elem_of_fmap. intros (t & -> & Ht).
  apply list_elem_of_filter in Ht as [_ Ht]. eauto.
Qed.

Lemma NoDup_handles_filter (P : Timer -> Prop) `{!forall t, Decision (P t)}
    (ts : list Timer) :
  NoDup (handle <$> ts) -> NoDup (handle <$> filter P ts).
Proof.
  induction ts as [|t ts IH]; [intros _; constructor|].
  rewrite fmap_cons, NoDup_cons. intros [Hnotin Hnd].
  rewrite filter_cons. destruct (decide (P t)); [|apply IH, Hnd].
  rewrite fmap_cons, NoDup_cons. split; [|apply IH, Hnd].
  intros Hin. apply Hnotin. eapply handles_filter, Hin.
Qed.

(** Two armed timers with the same handle are the same timer. *)
Lemma handle_inj (ts : list Timer) (t t' : Timer) :
  NoDup (handle <$> ts) -> t ∈ ts -> t' ∈ ts -> handle t = handle t' -> t = t'.
Proof.
  induction ts as [|x ts IH]; [intros _ H; inversion H|].
  rewrite fmap_cons, NoDup_cons. intros [Hnotin Hnd] Ht Ht' Heq.
  apply elem_of_cons in Ht as [-> | Ht]; apply elem_of_cons in Ht' as [-> | Ht'].
  - reflexivity.
  - exfalso. apply Hnotin. rewrite Heq. apply list_elem_of_fmap_2, Ht'.
  - exfalso. apply Hnotin. rewrite <- Heq. apply list_elem_of_fmap_2, Ht.
  - apply IH; assumption.
Qed.

Lemma times_resolved_fired_out (p : nat) (ts : list Timer) :
  p ∉ handle <$> ts ->
  times_resolved p ((fun t => (handle t, false)) <$> ts) = 0%nat.
Proof.
  induction ts as [|t ts IH]; [reflexivity|].
  rewrite !fmap_cons, not_elem_of_cons. intros [Hne Hnotin].
  change (times_resolved p ((handle t, false) :: ((fun t => (handle t, false)) <$> ts)))
    with (times_resolved p ([(handle t, false)] ++ ((fun t => (handle t, false)) <$> ts))).
  rewrite times_resolved_app, times_resolved_one, (IH Hnotin).
  destruct (decide (handle t = p)); [congruence | reflexivity].
Qed.

Lemma times_resolved_fired_in (p : nat) (ts : list Timer) :
  NoDup (handle <$> ts) -> p ∈ handle <$> ts ->
  times_resolved p ((fun t => (handle t, false)) <$> ts) = 1%nat.
Proof.
  induction ts as [|t ts IH]; [intros _ H; inversion H|].
  rewrite !fmap_cons, NoDup_cons, elem_of_cons. intros [Hnotin Hnd] Hin.
  change (times_resolved p ((handle t, false) :: ((fun t => (handle t, false)) <$> ts)))
    with (times_resolved p ([(handle t, false)] ++ ((fun t => (handle t, false)) <$> ts))).
  rewrite times_resolved_app, times_resolved_one.
  destruct (decide (handle t = p)) as [<- | Hne].
  - rewrite (times_resolved_fired_out _ _ Hnotin). reflexivity.
  - destruct Hin as [-> | Hin]; [congruence|]. rewrite (IH Hnd Hin). reflexivity.
Qed.

Lemma fire_lookup (ts : list Timer) : forall (m : gmap string Pending) (id : string),
  fire ts m !! id = if decide (id ∈ target <$> ts) then None else m !! id.
Proof.
  induction ts as [|t ts IH]; intros m id.
  - cbn. destruct (decide (id ∈ [])) as [H|]; [inversion H | reflexivity].
  - unfold fire. cbn [fold_left]. fold (fire ts (delete (target t) m)).
    rewrite IH, fmap_cons.
    destruct (decide (id ∈ target <$> ts)) as [Hin | Hnotin].
    + rewrite decide_True by (apply elem_of_cons; auto). reflexivity.
    + destruct (decide (id = target t)) as [-> | Hne].
      * rewrite decide_True by (apply elem_of_cons; auto). apply lookup_delete_eq.
      * rewrite decide_False by (rewrite elem_of_cons; tauto).
        apply lookup_delete_ne. congruence.
Qed.

Lemma now_step (g : Gate) (ev : Event) :
  now (step g ev) = now g + match ev with Elapse dt => Z.of_N dt | _ => 0 end.
Proof.
  destruct ev as [id ctx | authorized data | dt]; cbn [step].
  - unfold request. destruct ctx; cbn [now]; lia.
  - unfold press, reply. destruct (negb authorized); [cbn [now]; lia|].
    destruct data as [[approve id]|]; [|cbn [now]; lia].
    destruct (pendingApprovals g !! id); cbn [now]; lia.
  - unfold elapse. cbn [now]. reflexivity.
Qed.

Lemma now_run (evs : list Event) : forall g, now (run g evs) = now g + elapsed evs.
Proof.
  induction evs as [|ev evs IH]; intros g.
  - unfold run, elapsed. cbn [fold_left foldr]. lia.
  - change (run g (ev :: evs)) with (run (step g ev) evs).
    rewrite IH, now_step.
    change (elapsed (ev :: evs))
      with (match ev with Elapse dt => Z.of_N dt + elapsed evs | _ => elapsed evs end).
    destruct ev; lia.
Qed.

(** What every reachable state of the gate satisfies: timers have distinct
    handles; an armed timer belongs to a promise that is neither resolved nor
    rejected yet and is due within the timeout; a promise with no armed timer
    that was not rejected has been resolved once; a rejected promise is not
    resolved; and every entry of the map has its timer armed. *)
Definition sound (g : Gate) : Prop :=
  NoDup (handle <$> timers g) /\
  (forall t, t ∈ timers g ->
     (handle t < fresh g)%nat /\ now g < due t <= now g + TIMEOUT /\
     times_resolved (handle t) (resolutions g) = 0%nat /\
     handle t ∉ thrown g) /\
  (forall p, (p < fresh g)%nat -> p ∉ handle <$> timers g -> p ∉ thrown g ->
     times_resolved p (resolutions g) = 1%nat) /\
  (forall p, (fresh g <= p)%nat -> times_resolved p (resolutions g) = 0%nat) /\
  (forall p, p ∈ thrown g ->
     (p < fresh g)%nat /\ times_resolved p (resolutions g) = 0%nat) /\
  (forall id P, pendingApprovals g !! id = Some P ->
     timer P = resolve P /\
     exists t, t ∈ timers g /\ handle t = resolve P /\ target t = id).

Lemma empty_sound : sound empty.
Proof.
  unfold sound, empty. cbn [now pendingApprovals timers fresh resolutions thrown answers].
  split; [constructor|].
  split; [intros t Ht; inversion Ht|].
  split; [intros p Hp; lia|].
  split; [intros p _; reflexivity|].
  split; [intros p Hp; inversion Hp|].
  intros id P HP. rewrite lookup_empty in HP. discriminate.
Qed.

Lemma request_sound (id : string) (ctx : Context) (g : Gate) :
  sound g -> sound (request id ctx g).
Proof.
  intros (Hnd & Harmed & Hdone & Hnew & Hthrown & Hmap).
  unfold request. destruct ctx; unfold sound;
    cbn [now pendingApprovals timers fresh resolutions thrown answers].
  - split; [exact Hnd|]. split; [|split; [|split; [|split]]].
    + intros t Ht. destruct (Harmed t Ht) as (H1 & H2 & H3 & H4).
      repeat split; try lia; [|exact H4].
      rewrite times_resolved_app, times_resolved_one, H3.
      destruct (decide (fresh g = handle t)); [lia | reflexivity].
    + intros p Hp Hnotin Hnt. rewrite times_resolved_app, times_resolved_one.
      destruct (decide (fresh g = p)) as [<- | Hne].
      * rewrite (Hnew (fresh g)) by lia. reflexivity.
      * rewrite (Hdone p) by (try lia; assumption). reflexivity.
    + intros p Hp. rewrite times_resolved_app, times_resolved_one.
      rewrite (Hnew p) by lia. destruct (decide (fresh g = p)); [lia | reflexivity].
    + intros p Hp. destruct (Hthrown p Hp) as [Hlt H0]. split; [lia|].
      rewrite times_resolved_app, times_resolved_one, H0.
      destruct (decide (fresh g = p)); [lia | reflexivity].
    + exact Hmap.
  - split; [exact Hnd|]. split; [|split; [|split; [|split]]].
    + intros t Ht. destruct (Harmed t Ht) as (H1 & H2 & H3 & H4).
      repeat split; try lia.
      rewrite not_elem_of_app, list_elem_of_singleton. split; [exact H4 | lia].
    + intros p Hp Hnotin Hnt. rewrite not_elem_of_app, list_elem_of_singleton in Hnt.
      destruct Hnt as [Hnt Hne]. apply Hdone; [lia | exact Hnotin | exact Hnt].
    + intros p Hp. apply Hnew. lia.
    + intros p Hp. apply elem_of_app in Hp as [Hp | Hp].
      * destruct (Hthrown p Hp) as [Hlt H0]. split; [lia | exact H0].
      * apply list_elem_of_singleton in Hp. subst p. split; [lia|]. apply Hnew. lia.
    + exact Hmap.
  - split; [|split; [|split; [|split; [|split]]]].
    + rewrite fmap_app, NoDup_app. split; [exact Hnd|]. split; [|apply NoDup_singleton].
      intros h Hin Hin'. apply list_elem_of_singleton in Hin'. subst h.
      apply list_elem_of_fmap in Hin as (t & Heq & Ht).
      destruct (Harmed t Ht) as [Hlt _]. cbn in Heq. lia.
    + intros t Ht. apply elem_of_app in Ht as [Ht | Ht].
      * destruct (Harmed t Ht) as (H1 & H2 & H3 & H4). repeat split; try lia; exact H4.
      * apply list_elem_of_singleton in Ht. subst t. cbn [handle due target].
        unfold TIMEOUT. repeat split; try lia; [apply Hnew; lia|].
        intros Hin. destruct (Hthrown _ Hin). lia.
    + intros p Hp Hnotin Hnt. rewrite fmap_app, not_elem_of_app in Hnotin.
      destruct Hnotin as [Hn1 Hn2]. cbn in Hn2. rewrite list_elem_of_singleton in Hn2.
      apply Hdone; [lia | exact Hn1 | exact Hnt].
    + intros p Hp. apply Hnew. lia.
    + intros p Hp. destruct (Hthrown p Hp) as [Hlt H0]. split; [lia | exact H0].
    + intros id' P HP. destruct (decide (id = id')) as [<- | Hne].
      * rewrite lookup_insert_eq in HP. injection HP as <-. cbn [timer resolve].
        split; [reflexivity|]. eexists. split; [apply elem_of_app; right; apply list_elem_of_singleton; reflexivity|].
        split; reflexivity.
      * rewrite lookup_insert_ne in HP by exact Hne.
        destruct (Hmap id' P HP) as (H1 & t & Ht & H2 & H3).
        split; [exact H1|]. exists t. split; [apply elem_of_app; left; exact Ht|]. auto.
Qed.

Lemma press_sound (authorized : bool) (data : option (bool * string)) (g : Gate) :
  sound g -> sound (press authorized data g).
Proof.
  intros Hs. unfold press, reply.
  destruct (negb authorized); [exact Hs|].
  destruct data as [[approve id]|]; [|exact Hs].
  destruct (pendingApprovals g !! id) as [P|] eqn:HP; [|exact Hs].
  destruct Hs as (Hnd & Harmed & Hdone & Hnew & Hthrown & Hmap).
  destruct (Hmap id P HP) as (Htp & t0 & Ht0 & Hh0 & Htg0).
  destruct (Harmed t0 Ht0) as (Hlt0 & _ & Hres0 & Hnt0).
  unfold sound. cbn [now pendingApprovals timers fresh resolutions thrown answers].
  split; [|split; [|split; [|split; [|split]]]].
  - apply NoDup_handles_filter, Hnd.
  - intros t Ht. apply list_elem_of_filter in Ht as [Hne Ht].
    destruct (Harmed t Ht) as (H1 & H2 & H3 & H4). repeat split; try lia; [|exact H4].
    rewrite times_resolved_app, times_resolved_one, H3.
    destruct (decide (resolve P = handle t)); [congruence | reflexivity].
  - intros p Hp Hnotin Hnt. rewrite times_resolved_app, times_resolved_one.
    destruct (decide (resolve P = p)) as [<- | Hne].
    + rewrite <- Hh0, Hres0. reflexivity.
    + rewrite (Hdone p Hp); [reflexivity | | exact Hnt].
      intros Hin. apply Hnotin.
      apply list_elem_of_fmap in Hin as (t & -> & Ht).
      apply list_elem_of_fmap_2, list_elem_of_filter. split; [congruence | exact Ht].
  - intros p Hp. rewrite times_resolved_app, times_resolved_one, (Hnew p Hp).
    destruct (decide (resolve P = p)); [lia | reflexivity].
  - intros p Hp. destruct (Hthrown p Hp) as [Hlt H0]. split; [exact Hlt|].
    rewrite times_resolved_app, times_resolved_one, H0.
    destruct (decide (resolve P = p)) as [<- | Hne]; [|reflexivity].
    exfalso. apply Hnt0. rewrite Hh0. exact Hp.
  - intros id' P' HP'.
    destruct (decide (id = id')) as [<- | Hne].
    { rewrite lookup_delete_eq in HP'. discriminate. }
    rewrite lookup_delete_ne in HP' by exact Hne.
    destruct (Hmap id' P' HP') as (H1 & t & Ht & H2 & H3).
    split; [exact H1|]. exists t. split; [|auto].
    apply list_elem_of_filter. split; [|exact Ht].
    intros Heq. apply Hne.
    rewrite <- Htg0, <- H3. f_equal.
    apply (handle_inj (timers g)); [exact Hnd | exact Ht0 | exact Ht | congruence].
Qed.

Lemma elapse_sound (dt : N) (g : Gate) : sound g -> sound (elapse dt g).
Proof.
  intros (Hnd & Harmed & Hdone & Hnew & Hthrown & Hmap).
  unfold elapse, sound. cbn [now pendingApprovals timers fresh resolutions thrown answers].
  set (now' := now g + Z.of_N dt).
  set (fired := filter (fun t => due t <= now') (timers g)).
  set (kept := filter (fun t => ~ due t <= now') (timers g)).
  assert (Hsplit : forall t, t ∈ timers g -> t ∈ fired \/ t ∈ kept).
  { intros t Ht. destruct (decide (due t <= now')).
    - left. apply list_elem_of_filter. auto.
    - right. apply list_elem_of_filter. auto. }
  assert (Hapart : forall t, t ∈ kept -> handle t ∉ handle <$> fired).
  { intros t Ht Hin. apply list_elem_of_filter in Ht as [Hlate Ht].
    apply list_elem_of_fmap in Hin as (t' & Heq & Ht').
    apply list_elem_of_filter in Ht' as [Hdue Ht'].
    assert (t = t') by (apply (handle_inj (timers g)); assumption).
    subst t'. contradiction. }
  assert (Hndf : NoDup (handle <$> fired)) by apply NoDup_handles_filter, Hnd.
  split; [|split; [|split; [|split; [|split]]]].
  - apply NoDup_handles_filter, Hnd.
  - intros t Ht. pose proof Ht as Ht'.
    apply list_elem_of_filter in Ht' as [Hlate Ht'].
    destruct (Harmed t Ht') as (H1 & H2 & H3 & H4).
    split; [exact H1|]. split; [lia|]. split; [|exact H4].
    rewrite times_resolved_app, H3, (times_resolved_fired_out _ _ (Hapart t Ht)).
    reflexivity.
  - intros p Hp Hnotin Hnt. rewrite times_resolved_app.
    destruct (decide (p ∈ handle <$> timers g)) as [Hin | Hout].
    + apply list_elem_of_fmap in Hin as (t & -> & Ht).
      destruct (Hsplit t Ht) as [Hf | Hk].
      * destruct (Harmed t Ht) as (_ & _ & H3 & _).
        rewrite H3, (times_resolved_fired_in _ _ Hndf); [reflexivity|].
        apply list_elem_of_fmap_2, Hf.
      * exfalso. apply Hnotin, list_elem_of_fmap_2, Hk.
    + rewrite (Hdone p Hp Hout Hnt), times_resolved_fired_out; [reflexivity|].
      intros Hin. apply Hout. eapply handles_filter, Hin.
  - intros p Hp. rewrite times_resolved_app, (Hnew p Hp), times_resolved_fired_out; [reflexivity|].
    intros Hin. apply list_elem_of_fmap in Hin as (t & -> & Ht).
    apply list_elem_of_filter in Ht as [_ Ht].
    destruct (Harmed t Ht) as (H1 & _). lia.
  - intros p Hp. destruct (Hthrown p Hp) as [Hlt H0]. split; [exact Hlt|].
    rewrite times_resolved_app, H0, times_resolved_fired_out; [reflexivity|].
    intros Hin. apply list_elem_of_fmap in Hin as (t & -> & Ht).
    apply list_elem_of_filter in Ht as [_ Ht].
    destruct (Harmed t Ht) as (_ & _ & _ & H4). contradiction.
  - intros id P HP. rewrite fire_lookup in HP.
    destruct (decide (id ∈ target <$> fired)) as [Hin | Hout]; [discriminate|].
    destruct (Hmap id P HP) as (H1 & t & Ht & H2 & H3).
    split; [exact H1|]. exists t. split; [|auto].
    destruct (Hsplit t Ht) as [Hf | Hk]; [|exact Hk].
    exfalso. apply Hout. rewrite <- H3. apply list_elem_of_fmap_2, Hf.
Qed.

Lemma step_sound (g : Gate) (ev : Event) : sound g -> sound (step g ev).
Proof.
  destruct ev; cbn [step];
    [apply request_sound | apply press_sound | apply elapse_sound].
Qed.

Lemma run_sound (evs : list Event) : forall g, sound g -> sound (run g evs).
Proof.
  induction evs as [|ev evs IH]; intros g H; [exact H|].
  apply IH, step_sound, H.
Qed.

(** The promise [p], requested under [id] with its timer due at [deadline],
    is still waiting, or its timer ran: rejected, and [id] gone. *)
Definition waiting_or_rejected (p : nat) (id : string) (deadline : Z) (g : Gate) : Prop :=
  (exists t, t ∈ timers g /\ handle t = p /\ target t = id /\ due t = deadline) \/
  ((p, false) ∈ resolutions g /\ pendingApprovals g !! id = None).

Lemma step_waiting (p : nat) (id : string) (deadline : Z) (g : Gate) (ev : Event) :
  sound g -> undecided id ev ->
  waiting_or_rejected p id deadline g ->
  waiting_or_rejected p id deadline (step g ev).
Proof.
  intros Hs Hev Hw. pose proof Hs as (Hnd & Harmed & _ & _ & _ & Hmap).
  destruct ev as [id' ctx | authorized data | dt]; cbn [step undecided] in *.
  - unfold request, waiting_or_rejected.
    destruct ctx; cbn [timers resolutions pendingApprovals];
      destruct Hw as [(t & Ht & H1 & H2 & H3) | [Hres Hgone]].
    + left. exists t. auto.
    + right. split; [apply elem_of_app; left; exact Hres | exact Hgone].
    + left. exists t. auto.
    + right. split; [exact Hres | exact Hgone].
    + left. exists t. split; [apply elem_of_app; left; exact Ht | auto].
    + right. split; [exact Hres|]. rewrite lookup_insert_ne by exact Hev. exact Hgone.
  - unfold press, reply.
    destruct authorized; cbn [negb]; [|exact Hw].
    destruct data as [[approve id'']|]; [|exact Hw].
    destruct (pendingApprovals g !! id'') as [P|] eqn:HP; [|exact Hw].
    destruct (Hmap id'' P HP) as (Htp & t0 & Ht0 & Hh0 & Htg0).
    unfold waiting_or_rejected. cbn [timers resolutions pendingApprovals].
    destruct Hw as [(t & Ht & H1 & H2 & H3) | [Hres Hgone]].
    + left. exists t. split; [|auto].
      apply list_elem_of_filter. split; [|exact Ht].
      intros Heq. apply Hev. rewrite <- Htg0, <- H2. f_equal.
      apply (handle_inj (timers g)); [exact Hnd | exact Ht0 | exact Ht | congruence].
    + right. split; [apply elem_of_app; left; exact Hres|].
      rewrite lookup_delete_ne by exact Hev. exact Hgone.
  - unfold elapse, waiting_or_rejected. cbn [timers resolutions pendingApprovals].
    destruct Hw as [(t & Ht & H1 & H2 & H3) | [Hres Hgone]].
    + destruct (decide (due t <= now g + Z.of_N dt)) as [Hdue | Hlate].
      * right. split.
        -- apply elem_of_app. right. apply list_elem_of_fmap.
           exists t. split; [rewrite H1; reflexivity|].
           apply list_elem_of_filter. auto.
        -- rewrite fire_lookup, decide_True; [reflexivity|].
           apply list_elem_of_fmap. exists t. split; [auto|].
           apply list_elem_of_filter. auto.
      * left. exists t. split; [|auto]. apply list_elem_of_filter. auto.
    + right. split; [apply elem_of_app; left; exact Hres|].
      rewrite fire_lookup, Hgone. destruct (decide _); reflexivity.
Qed.

Lemma run_waiting (p : nat) (id : string) (deadline : Z) (evs : list Event) : forall g,
  sound g -> quiet id evs ->
  waiting_or_rejected p id deadline g ->
  waiting_or_rejected p id deadline (run g evs).
Proof.
  induction evs as [|ev evs IH]; intros g Hs Hq Hw; [exact Hw|].
  apply Forall_cons in Hq as [Hev Hq].
  apply IH; [apply step_sound, Hs | exact Hq | apply step_waiting; assumption].
Qed.

Lemma at_most_once (g : Gate) (p : nat) :
  sound g -> (times_resolved p (resolutions g) <= 1)%nat.
Proof.
  intros (_ & Harmed & Hdone & Hnew & Hthrown & _).
  destruct (decide (p ∈ handle <$> timers g)) as [Hin | Hout].
  - apply list_elem_of_fmap in Hin as (t & -> & Ht).
    destruct (Harmed t Ht) as (_ & _ & -> & _). lia.
  - destruct (decide (p ∈ thrown g)) as [Hth | Hnt].
    + destruct (Hthrown p Hth) as [_ ->]. lia.
    + destruct (decide (p < fresh g)%nat) as [Hlt | Hge].
      * rewrite (Hdone p Hlt Hout Hnt). lia.
      * rewrite (Hnew p) by lia. lia.
Qed.

Lemma resolved_at_least_once (p : nat) (v : bool) (rs : list (nat * bool)) :
  (p, v) ∈ rs -> (1 <= times_resolved p rs)%nat.
Proof.
  intros Hin. unfold times_resolved.
  assert (Hf : (p, v) ∈ filter (fun r => r.1 = p) rs)
    by (apply list_elem_of_filter; split; [reflexivity | exact Hin]).
  destruct (filter _ rs); [inversion Hf | cbn; lia].
Qed.

(** *** Facts about the terminal prompt *)

Lemma about_app (q : nat) (a b : list (nat * bool)) :
  about q (a ++ b) = about q a ++ about q b.
Proof. apply filter_app. Qed.

Lemma about_one (q q' : nat) (v : bool) :
  about q [(q', v)] = if decide (q' = q) then [(q', v)] else [].
Proof.
  unfold about. rewrite filter_cons. cbn [fst].
  destruct (decide (q' = q)); reflexivity.
Qed.

Lemma about_unresolved (q : nat) (rs : list (nat * bool)) :
  q ∉ rs.*1 -> about q rs = [].
Proof.
  induction rs as [|[q' v] rs IH]; [reflexivity|].
  rewrite fmap_cons, not_elem_of_cons. cbn [fst]. intros [Hne Hnotin].
  unfold about. rewrite filter_cons. cbn [fst].
  destruct (decide (q' = q)); [congruence | apply IH, Hnotin].
Qed.

Lemma feed_all_cons (p : Prompt) (i : Input) (rest : list Input) :
  feed_all p (i :: rest) = feed_all (feed p i) rest.
Proof. reflexivity. Qed.

(** The verdict on [q] after [inputs]: the one it had, or, if it had none,
    the one of the first answer its callback is called with. *)
Lemma feed_all_about (q : nat) (inputs : list Input) : forall p,
  about q (verdicts (feed_all p inputs)) =
  if bool_decide (q ∈ (verdicts p).*1) then about q (verdicts p)
  else (fun answer => (q, says_yes answer)) <$> take 1 (heard q (asked p) inputs).
Proof.
  induction inputs as [|i rest IH]; intros p.
  - cbn [feed_all fold_left heard]. destruct (bool_decide_reflect (q ∈ (verdicts p).*1)) as [Hin | Hout].
    + reflexivity.
    + rewrite take_nil. apply about_unresolved, Hout.
  - rewrite feed_all_cons, IH.
    destruct i as [| q' answer | dt]; cbn [feed heard].
    + reflexivity.
    + destruct (bool_decide_reflect (q' < asked p)%nat) as [Hlt | Hge].
      * unfold answered, fulfil.
        destruct (bool_decide_reflect (q' ∈ (verdicts p).*1)) as [Hin' | Hout'].
        -- destruct (bool_decide_reflect (q ∈ (verdicts p).*1)) as [Hin | Hout]; [reflexivity|].
           rewrite bool_decide_eq_false_2; [reflexivity|].
           intros [-> _]. contradiction.
        -- cbn [verdicts asked]. rewrite fmap_app. cbn [fmap list_fmap fst].
           destruct (decide (q' = q)) as [-> | Hne].
           ++ rewrite (bool_decide_eq_true_2 (q ∈ (verdicts p).*1 ++ [q]))
                by (apply elem_of_app; right; apply list_elem_of_singleton; reflexivity).
              rewrite (bool_decide_eq_false_2 (q ∈ (verdicts p).*1)) by exact Hout'.
              rewrite bool_decide_eq_true_2 by (split; [reflexivity | exact Hlt]).
              rewrite about_app, about_one, decide_True by reflexivity.
              rewrite (about_unresolved _ _ Hout'). reflexivity.
           ++ rewrite (bool_decide_eq_false_2 (q' = q /\ _)) by (intros [? _]; contradiction).
              rewrite about_app, about_one, decide_False, app_nil_r by exact Hne.
              destruct (bool_decide_reflect (q ∈ (verdicts p).*1)) as [Hin | Hout].
              ** rewrite bool_decide_eq_true_2; [reflexivity|].
                 apply elem_of_app. left. exact Hin.
              ** rewrite bool_decide_eq_false_2; [reflexivity|].
                 rewrite not_elem_of_app, list_elem_of_singleton. split; [exact Hout | congruence].
      * rewrite (bool_decide_eq_false_2 (q' = q /\ _)); [reflexivity|].
        intros [-> Hlt]. contradiction.
    + reflexivity.
Qed.

Lemma waits_resolve_nothing (waits : list N) : forall p,
  verdicts (feed_all p (Wait <$> waits)) = verdicts p /\
  asked (feed_all p (Wait <$> waits)) = asked p /\
  clock (feed_all p (Wait <$> waits)) = clock p + foldr (fun dt acc => Z.of_N dt + acc) 0 waits.
Proof.
  induction waits as [|dt waits IH]; intros p.
  - cbn. repeat split. lia.
  - rewrite fmap_cons, feed_all_cons.
    destruct (IH (feed p (Wait dt))) as (H1 & H2 & H3).
    rewrite H1, H2, H3. cbn [feed verdicts asked clock foldr]. repeat split. lia.
Qed.

(** *** The claim on approvals *)

(** The input that refutes C2 as stated: on the terminal an approval is
    asked and twenty minutes pass without an answer; the promise is still
    unresolved. *)
Lemma terminal_approval_has_no_timeout :
  feed_all silent [Ask; Wait 600000; Wait 600000] =
    {| clock := 1200000; asked := 1%nat; verdicts := [] |} /\
  times_resolved 0 (verdicts (feed_all silent [Ask; Wait 600000; Wait 600000])) = 0%nat.
Proof. split; reflexivity. Qed.

(** C2, amended.  On Telegram every approval is resolved at most once; one
    whose prompt was sent, or that found no chat to ask, is resolved exactly
    once by the time ten minutes have passed, and its value is a boolean,
    approved or rejected.  An approval whose prompt was sent under [id] and
    on which no decision arrives while 600 000 ms pass, no other request
    drawing the same [id] meanwhile, is resolved to rejected, once, and [id]
    is no longer in the map.  A decision on a
    pending [id] resolves its approval to that decision and removes [id]; a
    decision on an [id] that is not pending changes nothing and is answered
    [Expired].  On the terminal an approval is resolved at most once, whatever
    is asked, answered or waited for: by the first answer its callback is
    called with, to approved when that answer starts with y or Y and to
    rejected otherwise; while its callback is not called it stays unresolved,
    however much time passes. *)
Theorem approvals_resolve_once :
  (forall (evs : list Event) (p : nat),
      (times_resolved p (resolutions (run empty evs)) <= 1)%nat /\
      ((p < fresh (run empty evs))%nat ->
       p ∉ thrown (run empty evs) ->
       times_resolved p (resolutions (run empty (evs ++ [Elapse 600000]))) = 1%nat)) /\
  (forall (pre mid : list Event) (id : string),
      quiet id mid ->
      TIMEOUT <= elapsed mid ->
      (fresh (run empty pre), false) ∈
        resolutions (run empty (pre ++ Request id ReplySent :: mid)) /\
      times_resolved (fresh (run empty pre))
        (resolutions (run empty (pre ++ Request id ReplySent :: mid))) = 1%nat /\
      pendingApprovals (run empty (pre ++ Request id ReplySent :: mid)) !! id = None) /\
  (forall (evs : list Event) (id : string) (P : Pending) (approve : bool),
      pendingApprovals (run empty evs) !! id = Some P ->
      resolutions (press true (Some (approve, id)) (run empty evs)) =
        resolutions (run empty evs) ++ [(resolve P, approve)] /\
      times_resolved (resolve P)
        (resolutions (press true (Some (approve, id)) (run empty evs))) = 1%nat /\
      pendingApprovals (press true (Some (approve, id)) (run empty evs)) !! id = None) /\
  (forall (g : Gate) (id : string) (approve : bool),
      pendingApprovals g !! id = None ->
      press true (Some (approve, id)) g = reply Expired g) /\
  (forall (inputs : list Input) (q : nat),
      about q (verdicts (feed_all silent inputs)) =
        (fun answer => (q, says_yes answer)) <$> take 1 (heard q 0 inputs) /\
      (times_resolved q (verdicts (feed_all silent inputs)) <= 1)%nat) /\
  (forall (inputs : list Input) (waits : list N),
      verdicts (feed_all silent (inputs ++ (Wait <$> waits))) =
        verdicts (feed_all silent inputs)) /\
  (forall (answer : jsstring),
      says_yes answer = true <->
      exists rest, answer = 121%N :: rest \/ answer = 89%N :: rest).
Proof.
  split; [|split; [|split; [|split; [|split; [|split]]]]].
  - intros evs p.
    pose proof (run_sound evs empty empty_sound) as Hs.
    split; [apply at_most_once, Hs|].
    intros Hp Hnt. unfold run. rewrite fold_left_app. cbn [fold_left step].
    fold (run empty evs).
    pose proof (elapse_sound 600000 _ Hs) as (_ & _ & Hdone & _ & _).
    apply Hdone; [exact Hp | | exact Hnt].
    cbn [timers elapse]. intros Hin.
    apply list_elem_of_fmap in Hin as (t & _ & Ht).
    apply list_elem_of_filter in Ht as [Hlate Ht].
    destruct Hs as (_ & Harmed & _).
    destruct (Harmed t Ht) as (_ & Hdue & _).
    apply Hlate. change (Z.of_N 600000) with TIMEOUT. lia.
  - intros pre mid id Hq Hlong.
    pose proof (run_sound pre empty empty_sound) as Hs0.
    set (g0 := run empty pre) in *.
    assert (Hrun : run empty (pre ++ Request id ReplySent :: mid) =
                   run (request id ReplySent g0) mid).
    { unfold run. rewrite fold_left_app. reflexivity. }
    rewrite Hrun.
    pose proof (request_sound id ReplySent g0 Hs0) as Hs1.
    pose proof (run_sound mid _ Hs1) as Hs2.
    assert (Hw : waiting_or_rejected (fresh g0) id (now g0 + TIMEOUT)
                   (run (request id ReplySent g0) mid)).
    { apply run_waiting; [exact Hs1 | exact Hq |].
      left. exists {| handle := fresh g0; due := now g0 + TIMEOUT; target := id |}.
      split; [|repeat split].
      cbn [request timers]. apply elem_of_app. right. apply list_elem_of_singleton.
      reflexivity. }
    destruct Hw as [(t & Ht & _ & _ & Hdue) | [Hres Hgone]].
    + exfalso. destruct Hs2 as (_ & Harmed & _).
      destruct (Harmed t Ht) as (_ & Hnow & _).
      rewrite now_run in Hnow. cbn [request now] in Hnow. lia.
    + split; [exact Hres|]. split; [|exact Hgone].
      pose proof (at_most_once _ (fresh g0) Hs2).
      pose proof (resolved_at_least_once _ _ _ Hres). lia.
  - intros evs id P approve HP.
    pose proof (run_sound evs empty empty_sound) as Hs.
    pose proof (press_sound true (Some (approve, id)) _ Hs) as Hs'.
    revert Hs'. unfold press. cbn [negb]. rewrite HP. intros Hs'.
    cbn [resolutions pendingApprovals].
    split; [reflexivity|]. split; [|apply lookup_delete_eq].
    pose proof (at_most_once _ (resolve P) Hs') as Hle. cbn [resolutions] in Hle.
    assert (Hin : (resolve P, approve) ∈ resolutions (run empty evs) ++ [(resolve P, approve)]).
    { apply elem_of_app. right. apply list_elem_of_singleton. reflexivity. }
    pose proof (resolved_at_least_once _ _ _ Hin). lia.
  - intros g id approve Hnone. unfold press. cbn [negb]. rewrite Hnone. reflexivity.
  - intros inputs q.
    pose proof (feed_all_about q inputs silent) as H.
    rewrite bool_decide_eq_false_2 in H by (cbn; apply not_elem_of_nil).
    cbn [asked silent] in H. split; [exact H|].
    unfold times_resolved. fold (about q (verdicts (feed_all silent inputs))).
    rewrite H, length_fmap, length_take. lia.
  - intros inputs waits. unfold feed_all. rewrite fold_left_app.
    apply (waits_resolve_nothing waits).
  - intros answer. split.
    + destruct answer as [|c rest]; [discriminate|]. cbn [says_yes].
      intros H. exists rest. apply orb_true_iff in H as [H | H]; apply N.eqb_eq in H; subst c; auto.
    + intros (rest & [-> | ->]); reflexivity.
Qed.

Lemma approvals_resolve_once_witness :
  ((0%nat, false) ∈
     resolutions (run empty ([] ++ Request "k3x9qa" ReplySent :: [Elapse 300000; Elapse 300000])) /\
   pendingApprovals
     (run empty ([] ++ Request "k3x9qa" ReplySent :: [Elapse 300000; Elapse 300000]))
     !! "k3x9qa" = None) /\
  resolutions
    (run empty [Request "a1" ReplySent; Request "b2" ReplyRejects; Request "c3" NoContext;
                Request "d4" ReplySent; Elapse 1000; Press true (Some (true, "d4"));
                Press true (Some (false, "d4")); Elapse 600000]) =
    [(2%nat, false); (3%nat, true); (0%nat, false)] /\
  verdicts
    (feed_all silent [Ask; Wait 700000; Ask; Called 1 (str "yes"); Called 0 (str "no");
                      Called 1 (str "no"); Called 2 (str "y")]) =
    [(1%nat, true); (0%nat, false)].
Proof.
  split; [|split; vm_compute; reflexivity].
  pose proof (proj1 (proj2 approvals_resolve_once) []
                [Elapse 300000; Elapse 300000] "k3x9qa") as H.
  destruct H as (H1 & _ & H3).
  - repeat constructor.
  - vm_compute. discriminate.
  - split; [exact H1 | exact H3].
Defined.

End Approval.

(** ** JSONL decoding and the sync loop ([parseLine], [syncFile]) *)

Module Decoder.
Import Js.

(** How a piece of JavaScript ends: with a value, or by throwing. *)
Inductive Completion (A : Type) :=
| Normal (a : A)
| Thrown.
Arguments Normal {A} a.
Arguments Thrown {A}.

Definition bind {A B : Type} (c : Completion A) (k : A -> Completion B) : Completion B :=
  match c with
  | Normal a => k a
  | Thrown => Thrown
  end.

Notation "'let*' x ':=' c 'in' k" := (bind c (fun x => k))
  (at level 10, x name, c at level 100, k at level 200).

(** [try { body } catch { return fallback }] *)
Definition try_catch {A : Type} (body : Completion A) (fallback : A) : Completion A :=
  match body with
  | Normal a => Normal a
  | Thrown => Normal fallback
  end.

Fixpoint mapM {A B : Type} (f : A -> Completion B) (l : list A) : Completion (list B) :=
  match l with
  | [] => Normal []
  | x :: l' =>
      let* y := f x in
      let* ys := mapM f l' in
      Normal (y :: ys)
  end.

Section Runtime.

Local Set Warnings "-register-all".

(** The numbers of the runtime, and which of them are falsy (the zeros). *)
Context {Number : Type}.
Variable number_falsy : Number -> bool.

(** A value built by [JSON.parse]. *)
Inductive Json :=
| JNull
| JBool (b : bool)
| JNumber (n : Number)
| JString (s : jsstring)
| JArray (items : list Json)
| JObject (fields : list (jsstring * Json)).

(** [JSON.parse]: [None] when it throws a [SyntaxError]. *)
Variable JSON_parse : jsstring -> option Json.

(** The string conversion that [join] applies to an element that is neither
    a string, nor [null], nor [undefined]. *)
Variable ToString : Json -> jsstring.

(** [new Date ().toISOString ()] *)
Variable now_iso : jsstring.

(** Secret redaction and the memory-intent pass, which rewrite a text before
    it is stored. *)
Variable redactSecrets : jsstring -> jsstring.
Variable processMemoryIntents : jsstring -> jsstring.

(** A value or [undefined]. *)
Definition Value := option Json.

Definition truthy_value (v : Value) : bool :=
  match v with
  | None => false
  | Some JNull => false
  | Some (JBool b) => b
  | Some (JNumber n) => negb (number_falsy n)
  | Some (JString s) => truthy s
  | Some (JArray _) => true
  | Some (JObject _) => true
  end.

(** The last binding of [key], as [JSON.parse] keeps it. *)
Fixpoint own_property (key : jsstring) (fields : list (jsstring * Json)) : Value :=
  match fields with
  | [] => None
  | (k, v) :: rest =>
      match own_property key rest with
      | Some w => Some w
      | None => if bool_decide (k = key) then Some v else None
      end
  end.

(** [v.key] for the keys the decoder reads ([type], [message], [timestamp],
    [sessionId], [role], [content], [text]): a [TypeError] on [null], the own
    property of an object, and [undefined] on any other value, none of which
    inherits a property of such a name. *)
Definition get (v : Json) (key : jsstring) : Completion Value :=
  match v with
  | JNull => Thrown
  | JObject fields => Normal (own_property key fields)
  | _ => Normal None
  end.

Definition is_string (v : Value) (s : jsstring) : bool :=
  match v with
  | Some (JString s') => bool_decide (s' = s)
  | _ => false
  end.

Definition skipTypes : list jsstring :=
  [str "file-history-snapshot"; str "progress"; str "queue-operation"; str "system"].

Definition skipped (ty : Value) : bool :=
  existsb (is_string ty) skipTypes.

Inductive Kind := user_text | assistant_text.

Record ParsedMessage := {
  type : Kind;
  text : jsstring;
  timestamp : Json;
  sessionId : Json
}.

(** [a || b] where [b] is a string. *)
Definition or_string (v : Value) (s : jsstring) : Json :=
  match v with
  | Some j => if truthy_value v then j else JString s
  | None => JString s
  end.

(** An element of [textParts] as [join] renders it. *)
Definition joined (v : Value) : jsstring :=
  match v with
  | None => []
  | Some JNull => []
  | Some (JString s) => s
  | Some j => ToString j
  end.

(** [content.filter (b => b.type === "text").map (b => b.text)]: the callback
    of [filter] throws on a [null] element. *)
Definition textParts (content : list Json) : Completion (list Value) :=
  let* marked :=
    mapM (fun b => let* ty := get b (str "type") in
                   Normal (b, is_string ty (str "text"))) content in
  mapM (fun b => get b (str "text")) (fst <$> filter (fun m => m.2 = true) marked).

(** The body of the [try] block. *)
Definition parseLine_body (line : jsstring) : Completion (option ParsedMessage) :=
  match JSON_parse line with
  | None => Thrown
  | Some d =>
      let* ty := get d (str "type") in
      if skipped ty then Normal None
      else
        let* msg := get d (str "message") in
        match msg with
        | None => Normal None
        | Some m =>
            if negb (truthy_value msg) then Normal None
            else
              let* ts := get d (str "timestamp") in
              let* sid := get d (str "sessionId") in
              let* role := get m (str "role") in
              let* content := get m (str "content") in
              let stamp := or_string ts now_iso in
              let session := or_string sid [] in
              match content with
              | Some (JString s) =>
                  if is_string ty (str "user") && is_string role (str "user")
                  then Normal (Some {| type := user_text; text := s;
                                       timestamp := stamp; sessionId := session |})
                  else Normal None
              | Some (JArray items) =>
                  if is_string ty (str "assistant") && is_string role (str "assistant")
                  then
                    let* parts := textParts items in
                    if 0 <? Z.of_nat (length parts)
                    then Normal (Some {| type := assistant_text;
                                         text := concat (joined <$> parts);
                                         timestamp := stamp; sessionId := session |})
                    else Normal None
                  else Normal None
              | _ => Normal None
              end
        end
  end.

(** [parseLine]: the body, inside [try] and [catch { return null }]. *)
Definition parseLine (line : jsstring) : Completion (option ParsedMessage) :=
  try_catch (parseLine_body line) None.

(** What [parseLine] hands back for a line: a message, or [null]. *)
Definition decoded (line : jsstring) : option ParsedMessage :=
  match parseLine_body line with
  | Normal r => r
  | Thrown => None
  end.

(** A call of [saveMessage] (followed by [appendSessionLog] with the same
    text), with the role and the text stored. *)
Inductive Saved :=
| SavedUser (text : jsstring)
| SavedAssistant (text : jsstring).

(** The local variables of [syncFile], and what it stored so far. *)
Record Sync := {
  lastAssistantText : jsstring;
  lastAssistantTimestamp : Json;
  lastAssistantSessionId : Json;
  synced : Z;
  saved : list Saved
}.

Definition fresh_sync : Sync :=
  {| lastAssistantText := []; lastAssistantTimestamp := JString [];
     lastAssistantSessionId := JString []; synced := 0; saved := [] |}.

Definition flushAssistant (st : Sync) : Sync :=
  if negb (truthy (lastAssistantText st)) then st
  else
    {| lastAssistantText := [];
       lastAssistantTimestamp := lastAssistantTimestamp st;
       lastAssistantSessionId := lastAssistantSessionId st;
       synced := synced st + 1;
       saved := saved st ++
                [SavedAssistant (processMemoryIntents (redactSecrets (lastAssistantText st)))] |}.

Definition buffer (p : ParsedMessage) (st : Sync) : Sync :=
  {| lastAssistantText := text p;
     lastAssistantTimestamp := timestamp p;
     lastAssistantSessionId := sessionId p;
     synced := synced st;
     saved := saved st |}.

(** The loop body for a line that decoded to [p].  The feedback signals
    recorded for a user text go to a table of their own and are left out. *)
Definition onMessage (st : Sync) (p : ParsedMessage) : Sync :=
  match type p with
  | user_text =>
      let st1 := flushAssistant st in
      {| lastAssistantText := lastAssistantText st1;
         lastAssistantTimestamp := lastAssistantTimestamp st1;
         lastAssistantSessionId := lastAssistantSessionId st1;
         synced := synced st1 + 1;
         saved := saved st1 ++ [SavedUser (redactSecrets (text p))] |}
  | assistant_text =>
      if len (lastAssistantText st) <=? len (text p)
      then buffer p st
      else buffer p (flushAssistant st)
  end.

(** [for (let i = lastLine; i < lines.length; i++)], on the lines from
    [lastLine] on. *)
Fixpoint syncLoop (st : Sync) (lines : list jsstring) : Completion Sync :=
  match lines with
  | [] => Normal st
  | line :: rest =>
      let* parsed := parseLine line in
      match parsed with
      | None => syncLoop st rest
      | Some p => syncLoop (onMessage st p) rest
      end
  end.

(** [syncFile] on the non-empty lines of the file and the recorded
    [lastLine]: the number of messages stored, what was stored, and the new
    [lastLine]. *)
Definition syncFile (lines : list jsstring) (lastLine : nat)
  : Completion (Z * list Saved * nat) :=
  if bool_decide (length lines <= lastLine)%nat then Normal (0, [], lastLine)
  else
    let* st := syncLoop fresh_sync (drop lastLine lines) in
    Normal (synced (flushAssistant st), saved (flushAssistant st), length lines).

(** *** Facts about the decoder *)

Lemma parseLine_decoded (line : jsstring) : parseLine line = Normal (decoded line).
Proof.
  unfold parseLine, decoded, try_catch.
  destruct (parseLine_body line); reflexivity.
Qed.

Lemma decoded_cons (line : jsstring) (rest : list jsstring) :
  omap decoded (line :: rest) =
  match decoded line with
  | Some p => p :: omap decoded rest
  | None => omap decoded rest
  end.
Proof. reflexivity. Qed.

Lemma syncLoop_fold (lines : list jsstring) : forall st,
  syncLoop st lines = Normal (fold_left onMessage (omap decoded lines) st).
Proof.
  induction lines as [|line rest IH]; intros st; [reflexivity|].
  cbn [syncLoop]. rewrite parseLine_decoded, decoded_cons. cbn [bind].
  destruct (decoded line) as [p|]; cbn [fold_left]; apply IH.
Qed.

Lemma get_not_user_or_assistant (d : Json) (ty : Value) (line : jsstring) :
  JSON_parse line = Some d ->
  get d (str "type") = Normal ty ->
  is_string ty (str "user") = false ->
  is_string ty (str "assistant") = false ->
  parseLine_body line = Thrown \/ parseLine_body line = Normal None.
Proof.
  intros Hd Hty Hu Ha. unfold parseLine_body. rewrite Hd, Hty. cbn [bind].
  destruct (skipped ty); [right; reflexivity|].
  destruct (get d (str "message")) as [msg|]; [|left; reflexivity]. cbn [bind].
  destruct msg as [m|]; [|right; reflexivity].
  destruct (negb (truthy_value (Some m))); [right; reflexivity|].
  destruct (get d (str "timestamp")) as [ts|]; [|left; reflexivity]. cbn [bind].
  destruct (get d (str "sessionId")) as [sid|]; [|left; reflexivity]. cbn [bind].
  destruct (get m (str "role")) as [role|]; [|left; reflexivity]. cbn [bind].
  destruct (get m (str "content")) as [content|]; [|left; reflexivity]. cbn [bind].
  rewrite Hu, Ha. cbn [andb].
  destruct content as [[| | |s|items|]|]; right; reflexivity.
Qed.

(** *** The claim on the decoder *)

(** C9.  [parseLine] never throws: for every line it returns a message or
    [null].  It returns [null] when [JSON.parse] throws and when the [type]
    of the parsed value is neither [user] nor [assistant].  The loop of
    [syncFile] never ends by a decoding failure; what it does is what it
    would do on the decoded messages alone, taken in the order of their
    lines, so a line that decodes to [null] leaves no trace in what is
    stored. *)
Theorem decoder_is_total_and_skips :
  (forall line : jsstring, parseLine line = Normal (decoded line)) /\
  (forall line : jsstring, JSON_parse line = None -> parseLine line = Normal None) /\
  (forall (line : jsstring) (d : Json) (ty : Value),
      JSON_parse line = Some d ->
      get d (str "type") = Normal ty ->
      is_string ty (str "user") = false ->
      is_string ty (str "assistant") = false ->
      parseLine line = Normal None) /\
  (forall (lines : list jsstring) (st : Sync),
      syncLoop st lines = Normal (fold_left onMessage (omap decoded lines) st)) /\
  (forall (before after : list jsstring) (line : jsstring) (st : Sync),
      parseLine line = Normal None ->
      syncLoop st (before ++ line :: after) = syncLoop st (before ++ after)).
Proof.
  split; [|split; [|split; [|split]]].
  - apply parseLine_decoded.
  - intros line Hbad. unfold parseLine, parseLine_body. rewrite Hbad. reflexivity.
  - intros line d ty Hd Hty Hu Ha. unfold parseLine.
    destruct (get_not_user_or_assistant d ty line Hd Hty Hu Ha) as [-> | ->]; reflexivity.
  - apply syncLoop_fold.
  - intros before after line st Hnull.
    rewrite parseLine_decoded in Hnull. injection Hnull as Hnull.
    rewrite !syncLoop_fold, !omap_app, decoded_cons, Hnull. reflexivity.
Qed.

End Runtime.

(** A runtime to run the decoder on: integers for numbers, and a parser that
    accepts the line [null] and nothing else. *)
Definition parse_only_null (line : jsstring) : option (@Json Z) :=
  if bool_decide (line = str "null") then Some JNull else None.

Lemma decoder_is_total_and_skips_witness :
  parseLine (Z.eqb 0) parse_only_null (fun _ => []) [] (str "{oops") = Normal None /\
  syncLoop (Z.eqb 0) parse_only_null (fun _ => []) [] (fun s => s) (fun s => s)
    fresh_sync ([str "null"] ++ str "{oops" :: [str "null"]) =
  syncLoop (Z.eqb 0) parse_only_null (fun _ => []) [] (fun s => s) (fun s => s)
    fresh_sync ([str "null"] ++ [str "null"]).
Proof.
  pose proof (decoder_is_total_and_skips (Z.eqb 0) parse_only_null (fun _ => []) []
                (fun s => s) (fun s => s)) as (_ & Hbad & _ & _ & Hskip).
  split.
  - apply Hbad. reflexivity.
  - apply Hskip. reflexivity.
Defined.

End Decoder.

(** ** The two floating-point expressions, as the runtime evaluates them *)

Module Binary64.

(** The binary64 value of an integer below 2^53 in magnitude. *)
Definition of_int (z : Z) : float :=
  if z <? 0 then PrimFloat.opp (PrimFloat.of_uint63 (Uint63.of_Z (- z)))
  else PrimFloat.of_uint63 (Uint63.of_Z z).

(** [Math.round] on a finite binary64 value: the floor of the value plus one
    half, computed exactly from its mantissa and exponent. *)
Definition js_round (x : float) : Z :=
  match Prim2SF x with
  | S754_finite s m e =>
      let n := if s then - Z.pos m else Z.pos m in
      if 0 <=? e then n * 2 ^ e else (2 * n + 2 ^ (- e)) / 2 ^ (1 - e)
  | _ => 0
  end.

(** [Math.min (100, Math.round ((tokens / CONTEXT_WINDOW) * 100))] *)
Definition usedPct (tokens : Z) : Z :=
  Z.min 100
    (js_round (PrimFloat.mul (PrimFloat.div (of_int tokens) (of_int Tracker.CONTEXT_WINDOW))
                             (of_int 100))).

(** [i > n * 0.3], with the binary64 number nearest to three tenths. *)
Definition past30 (i n : Z) : bool :=
  PrimFloat.ltb (PrimFloat.mul (of_int n) 0x1.3333333333333p-2%float) (of_int i).

(** [f] holds at [from], [from + 1], ... ([count] integers). *)
Fixpoint holds_from (f : Z -> bool) (count : nat) (from : Z) : bool :=
  match count with
  | O => true
  | S k => f from && holds_from f k (from + 1)
  end.

(** The token counts at which binary64 rounds the percentage down where the
    exact quotient is a half and rounds up. *)
Definition rounding_ties : list Z := [29000; 57000; 113000; 115000].

(** The [k]-th token count whose exact percentage ends in one half. *)
Definition tie (k : Z) : Z := 1000 + 2000 * k.

Definition same_pct (k : Z) : bool :=
  (usedPct (tie k) =? Tracker.usedPct (Tracker.setTokens (tie k) Tracker.fresh)) ||
  bool_decide (tie k ∈ rounding_ties).

(** At length [10 * m] the index [3 * m] is exactly three tenths. *)
Definition same_past30 (m : Z) : bool :=
  Bool.eqb (past30 (3 * m) (10 * m)) (Relay.past30 (3 * m) (10 * m)).

Lemma holds_from_spec (f : Z -> bool) (count : nat) : forall from x,
  holds_from f count from = true ->
  from <= x < from + Z.of_nat count -> f x = true.
Proof.
  induction count as [|k IH]; intros from x H Hx; [lia|].
  cbn [holds_from] in H. apply andb_true_iff in H as [H0 H].
  destruct (Z.eq_dec x from) as [-> | Hne]; [exact H0|].
  apply (IH (from + 1)); [exact H | lia].
Qed.

(** The exact quotient of [Tracker.usedPct] and the runtime's can only part
    where the exact percentage ends in one half, for away from those counts
    it is at least one part in two thousand off a half, far more than two
    roundings move it.  Of the 105 such counts up to 210 000 tokens, beyond
    the whole context window, the two agree at all but four, where the
    runtime's percentage is one less. *)
Lemma usedPct_exact_up_to_ties (k : Z) :
  0 <= k < 105 ->
  tie k ∉ rounding_ties ->
  usedPct (tie k) = Tracker.usedPct (Tracker.setTokens (tie k) Tracker.fresh).
Proof.
  intros Hk Hnot.
  assert (Hall : holds_from same_pct 105 0 = true) by (vm_compute; reflexivity).
  pose proof (holds_from_spec same_pct 105 0 k Hall) as H.
  unfold same_pct in H at 1.
  apply orb_true_iff in H as [H | H]; [apply Z.eqb_eq, H | | lia].
  apply bool_decide_eq_true in H. contradiction.
Qed.

Lemma usedPct_at_ties :
  usedPct <$> rounding_ties = [14; 28; 56; 57] /\
  (fun t => Tracker.usedPct (Tracker.setTokens t Tracker.fresh)) <$> rounding_ties
    = [15; 29; 57; 58].
Proof. split; vm_compute; reflexivity. Qed.

(** The test [i > n * 0.3] can only part from the exact one where [i] is
    exactly three tenths of [n].  Up to a length of 10 000 code units it
    does not: the product is then the integer itself. *)
Lemma past30_exact_at_ties (m : Z) :
  0 <= m < 1001 ->
  past30 (3 * m) (10 * m) = Relay.past30 (3 * m) (10 * m).
Proof.
  intros Hm.
  assert (Hall : holds_from same_past30 1001 0 = true) by (vm_compute; reflexivity).
  pose proof (holds_from_spec same_past30 1001 0 m Hall) as H.
  apply Bool.eqb_prop, H. lia.
Qed.

End Binary64.

(** ** The percentage as the runtime computes it, count by count *)

Module Percent.
Import Tracker.

(** The token counts up to which the runtime's percentage is evaluated: the
    context window and a twentieth more. *)
Definition CHECKED : Z := 210000.

(** [Binary64.js_round], with shifts for the powers of two. *)
Definition round_shift (x : float) : Z :=
  match Prim2SF x with
  | S754_finite s m e =>
      let n := if s then - Z.pos m else Z.pos m in
      if 0 <=? e then Z.shiftl n e else Z.shiftr (2 * n + Z.shiftl 1 (- e)) (1 - e)
  | _ => 0
  end.

(** [Binary64.usedPct] at a token count held in a 63-bit integer. *)
Definition pct_of (i : int) : Z :=
  Z.min 100
    (round_shift
       (PrimFloat.mul (PrimFloat.div (PrimFloat.of_uint63 i) (PrimFloat.of_uint63 200000))
                      (PrimFloat.of_uint63 100))).

(** The percentage of the exact quotient at [t] tokens. *)
Definition exact (t : Z) : Z := usedPct (setTokens t fresh).

(** The runtime's percentage [v] at [t] tokens is the exact one, or one less
    at the four counts of [Binary64.rounding_ties]. *)
Definition agrees (t v : Z) : bool :=
  if existsb (Z.eqb t) Binary64.rounding_ties then v =? exact t - 1 else v =? exact t.

(** [agrees] at [t], [t + 1], ... ([count] token counts); [i] is [t] as a
    63-bit integer. *)
Fixpoint agree_from (count : nat) (i : int) (t : Z) : bool :=
  match count with
  | O => true
  | S k => agrees t (pct_of i) && agree_from k (Uint63.add i 1) (t + 1)
  end.

(** The percentages the runtime reads after each call of a sequence. *)
Definition runtime_trace (t : ContextTracker) (ops : list Op) : list Z :=
  Binary64.usedPct <$> (tokens t :: token_trace t ops).

(** *** Facts *)

Lemma round_shift_js_round (x : float) : round_shift x = Binary64.js_round x.
Proof.
  unfold round_shift, Binary64.js_round.
  destruct (Prim2SF x) as [| | |s m e]; try reflexivity.
  destruct (0 <=? e) eqn:He.
  - apply Z.leb_le in He. apply Z.shiftl_mul_pow2, He.
  - apply Z.leb_gt in He.
    rewrite Z.shiftr_div_pow2 by lia. rewrite Z.shiftl_mul_pow2 by lia.
    rewrite Z.mul_1_l. reflexivity.
Qed.

Lemma pct_of_usedPct (t : Z) : 0 <= t -> pct_of (Uint63.of_Z t) = Binary64.usedPct t.
Proof.
  intros Ht. unfold pct_of, Binary64.usedPct, Binary64.of_int.
  rewrite round_shift_js_round.
  replace (t <? 0) with false by (symmetry; apply Z.ltb_ge; exact Ht).
  reflexivity.
Qed.

Lemma of_Z_succ (t : Z) : Uint63.of_Z (t + 1) = Uint63.add (Uint63.of_Z t) 1.
Proof.
  apply Uint63.to_Z_inj.
  rewrite Uint63.add_spec, !Uint63.of_Z_spec.
  change (Uint63.to_Z 1) with 1.
  rewrite Zplus_mod_idemp_l. reflexivity.
Qed.

Lemma agree_from_spec (count : nat) : forall t x,
  0 <= t ->
  agree_from count (Uint63.of_Z t) t = true ->
  t <= x < t + Z.of_nat count ->
  agrees x (Binary64.usedPct x) = true.
Proof.
  induction count as [|k IH]; intros t x Ht H Hx; [lia|].
  cbn [agree_from] in H. apply andb_true_iff in H as [H0 H].
  destruct (Z.eq_dec x t) as [-> | Hne].
  - rewrite <- pct_of_usedPct by exact Ht. exact H0.
  - apply (IH (t + 1)); [lia | | lia]. rewrite of_Z_succ. exact H.
Qed.

(** Every token count from 0 to 210 000 evaluated: the runtime's
    percentage is the one of the exact quotient, but for the four counts of
    [Binary64.rounding_ties], where it is one less. *)
Lemma runtime_agrees (t : Z) :
  0 <= t <= CHECKED ->
  Binary64.usedPct t =
  if bool_decide (t ∈ Binary64.rounding_ties) then exact t - 1 else exact t.
Proof.
  intros Ht.
  assert (Hall : agree_from (Z.to_nat 210001) (Uint63.of_Z 0) 0 = true)
    by (vm_compute; reflexivity).
  pose proof (agree_from_spec _ 0 t ltac:(lia) Hall) as H.
  rewrite Z2Nat.id in H by lia. unfold CHECKED in Ht. specialize (H ltac:(lia)).
  unfold agrees in H.
  destruct (existsb (Z.eqb t) Binary64.rounding_ties) eqn:E.
  - apply Z.eqb_eq in H. rewrite bool_decide_eq_true_2; [exact H|].
    apply existsb_exists in E as (y & Hy & Heq). apply Z.eqb_eq in Heq. subst y.
    apply list_elem_of_In, Hy.
  - apply Z.eqb_eq in H. rewrite bool_decide_eq_false_2; [exact H|].
    intros Hin. apply list_elem_of_In in Hin.
    assert (existsb (Z.eqb t) Binary64.rounding_ties = true); [|congruence].
    apply existsb_exists. exists t. split; [exact Hin | apply Z.eqb_refl].
Qed.

Lemma exact_mono (a b : Z) : a <= b -> exact a <= exact b.
Proof. intros H. apply usedPct_mono. exact H. Qed.

(** At each of the four counts the exact percentage has just stepped up. *)
Lemma exact_steps_at_ties (t : Z) :
  t ∈ Binary64.rounding_ties -> exact (t - 1) = exact t - 1.
Proof.
  intros Hin. unfold Binary64.rounding_ties in Hin.
  repeat (apply elem_of_cons in Hin as [-> | Hin]; [vm_compute; reflexivity|]).
  inversion Hin.
Qed.

Lemma runtime_monotone (a b : Z) :
  0 <= a -> a <= b -> b <= CHECKED -> Binary64.usedPct a <= Binary64.usedPct b.
Proof.
  intros Ha Hab Hb.
  destruct (Z.eq_dec a b) as [-> | Hne]; [lia|].
  rewrite (runtime_agrees a), (runtime_agrees b) by lia.
  assert (Hlow : (if bool_decide (a ∈ Binary64.rounding_ties)
                  then exact a - 1 else exact a) <= exact a)
    by (destruct (bool_decide _); lia).
  destruct (bool_decide (b ∈ Binary64.rounding_ties)) eqn:Eb.
  - apply bool_decide_eq_true in Eb.
    rewrite <- (exact_steps_at_ties b Eb).
    pose proof (exact_mono a (b - 1) ltac:(lia)). lia.
  - pose proof (exact_mono a b Hab). lia.
Qed.

Lemma nondecreasing_cons (x y : Z) (l : list Z) :
  nondecreasing (x :: y :: l) = (x <=? y) && nondecreasing (y :: l).
Proof. reflexivity. Qed.

Lemma runtime_trace_rising (ops : list Op) : forall t,
  raising t ops = true ->
  0 <= tokens t ->
  Forall (fun n => n <= CHECKED) (tokens t :: token_trace t ops) ->
  nondecreasing (runtime_trace t ops) = true.
Proof.
  induction ops as [|o ops IH]; intros t Hr Ht Hall; [reflexivity|].
  destruct (raising_step t o ops Hr) as [Hle Hrest].
  apply Forall_cons in Hall as [Hhere Hall]. cbn [token_trace] in Hall.
  pose proof Hall as Hall'. apply Forall_cons in Hall' as [Hnext _].
  unfold runtime_trace in *. cbn [token_trace fmap list_fmap].
  rewrite nondecreasing_cons.
  apply andb_true_iff. split.
  - apply Z.leb_le, runtime_monotone; lia.
  - apply (IH (fst (step t o))); [exact Hrest | lia | exact Hall].
Qed.

(** *** The claim on the percentage *)

(** C5, amended.  Over every sequence of tracker calls that contains no
    [reset ()], no [addTokens] of a negative amount and no [setTokens (n)] with
    [n] below the count held at that moment, the token count never
    decreases, and neither do the successive values of [usedPct ()]: the
    percentage of the exact quotient at every count, and the percentage the
    runtime computes in binary64 as long as the counts lie between 0 and
    210 000, where it is the exact one but for four counts at which it is
    one less. *)
Theorem usedPct_nondecreasing_when_raising (t : ContextTracker) (ops : list Op) :
  raising t ops = true ->
  nondecreasing (tokens t :: token_trace t ops) = true /\
  nondecreasing (usedPct t :: pct_trace t ops) = true /\
  (0 <= tokens t ->
   Forall (fun n => n <= CHECKED) (tokens t :: token_trace t ops) ->
   nondecreasing (runtime_trace t ops) = true) /\
  (forall n : Z,
      0 <= n <= CHECKED ->
      Binary64.usedPct n =
      if bool_decide (n ∈ Binary64.rounding_ties)
      then usedPct (setTokens n fresh) - 1 else usedPct (setTokens n fresh)).
Proof.
  intros Hr. split; [|split; [|split]].
  - revert t Hr. induction ops as [|o ops IH]; intros t Hr; [reflexivity|].
    destruct (raising_step t o ops Hr) as [Hle Hrest].
    cbn [token_trace]. rewrite nondecreasing_cons, (IH _ Hrest), andb_true_r.
    apply Z.leb_le, Hle.
  - revert t Hr. induction ops as [|o ops IH]; intros t Hr; [reflexivity|].
    destruct (raising_step t o ops Hr) as [Hle Hrest].
    cbn [pct_trace]. rewrite nondecreasing_cons, (IH _ Hrest), andb_true_r.
    apply Z.leb_le, usedPct_mono, Hle.
  - apply runtime_trace_rising, Hr.
  - apply runtime_agrees.
Qed.

Lemma usedPct_nondecreasing_when_raising_witness :
  (nondecreasing (tokens fresh ::
     token_trace fresh [AddTokens 4000; SetTokens 60000; CheckWarnings; AddTokens 500]) = true /\
   nondecreasing (usedPct fresh ::
     pct_trace fresh [AddTokens 4000; SetTokens 60000; CheckWarnings; AddTokens 500]) = true /\
   nondecreasing
     (runtime_trace fresh [AddTokens 4000; SetTokens 60000; CheckWarnings; AddTokens 500])
     = true) /\
  runtime_trace fresh [AddTokens 4000; SetTokens 60000; CheckWarnings; AddTokens 500] =
    [9; 11; 30; 30; 30] /\
  runtime_trace fresh [AddTokens 100000; SetTokens 50000] = [9; 59; 25].
Proof.
  split; [|split; vm_compute; reflexivity].
  destruct (usedPct_nondecreasing_when_raising fresh
              [AddTokens 4000; SetTokens 60000; CheckWarnings; AddTokens 500] eq_refl)
    as (H1 & H2 & H3 & _).
  split; [exact H1|]. split; [exact H2|].
  apply H3; [vm_compute; discriminate|].
  unfold CHECKED. repeat constructor; vm_compute; discriminate.
Defined.

End Percent.

(** ** Rate limiter of the Telegram relay ([isRateLimited]) *)

Module RateLimit.

Definition RATE_LIMIT_WINDOW : Z := 60000.
Definition RATE_LIMIT_MAX : nat := 10.

(** [while (ts.length > 0 && ts[0] < now - RATE_LIMIT_WINDOW) ts.shift ()] *)
Fixpoint prune (now : Z) (ts : list Z) : list Z :=
  match ts with
  | t :: rest => if t <? now - RATE_LIMIT_WINDOW then prune now rest else ts
  | [] => []
  end.

(** [isRateLimited ()] when [Date.now ()] reads [now]: the verdict and the
    array [rateLimitTimestamps] afterwards. *)
Definition isRateLimited (now : Z) (ts : list Z) : bool * list Z :=
  let ts1 := prune now ts in
  if bool_decide (RATE_LIMIT_MAX <= length ts1)%nat then (true, ts1)
  else (false, ts1 ++ [now]).

(** The array, and the clock readings of the calls that were let through. *)
Record Limiter := {
  rateLimitTimestamps : list Z;
  admitted : list Z
}.

Definition idle : Limiter := {| rateLimitTimestamps := []; admitted := [] |}.

Definition call (st : Limiter) (now : Z) : Limiter :=
  let '(limited, ts) := isRateLimited now (rateLimitTimestamps st) in
  {| rateLimitTimestamps := ts;
     admitted := if limited then admitted st else admitted st ++ [now] |}.

(** The calls made at the clock readings [clocks], in that order. *)
Definition feed (st : Limiter) (clocks : list Z) : Limiter := fold_left call clocks st.

(** The admitted calls that are at most one window older than [now]. *)
Definition recent (now : Z) (ts : list Z) : list Z :=
  filter (fun t => now - RATE_LIMIT_WINDOW <= t) ts.

(** Twelve calls within a few milliseconds, then two a minute later. *)
Definition burst : list Z := [0; 1; 2; 3; 4; 5; 6; 7; 8; 9; 10; 11; 60000; 60001].

(** *** Facts about the rate limiter *)

Lemma length_prune (now : Z) (ts : list Z) : (length (prune now ts) <= length ts)%nat.
Proof.
  induction ts as [|t rest IH]; [reflexivity|].
  cbn [prune]. destruct (t <? now - RATE_LIMIT_WINDOW); cbn [length]; lia.
Qed.

Lemma call_capped (st : Limiter) (now : Z) :
  (length (rateLimitTimestamps st) <= RATE_LIMIT_MAX)%nat ->
  (length (rateLimitTimestamps (call st now)) <= RATE_LIMIT_MAX)%nat.
Proof.
  intros H. unfold call, isRateLimited.
  pose proof (length_prune now (rateLimitTimestamps st)) as Hp.
  case_bool_decide as Hfull; cbn [rateLimitTimestamps].
  - lia.
  - rewrite length_app. cbn [length]. lia.
Qed.

Lemma feed_capped (clocks : list Z) : forall st,
  (length (rateLimitTimestamps st) <= RATE_LIMIT_MAX)%nat ->
  (length (rateLimitTimestamps (feed st clocks)) <= RATE_LIMIT_MAX)%nat.
Proof.
  induction clocks as [|c cs IH]; intros st H; [exact H|].
  apply IH, call_capped, H.
Qed.

Lemma recent_all (now : Z) (ts : list Z) :
  Forall (fun t => now - RATE_LIMIT_WINDOW <= t) ts -> recent now ts = ts.
Proof.
  unfold recent. induction 1 as [|t rest Ht _ IH]; [reflexivity|].
  rewrite filter_cons_True by exact Ht. f_equal. exact IH.
Qed.

(** On an ascending array, pruning from the front keeps exactly the entries
    of the last window. *)
Lemma prune_recent (now : Z) (ts : list Z) :
  StronglySorted Z.le ts -> prune now ts = recent now ts.
Proof.
  induction ts as [|t rest IH]; intros Hs; [reflexivity|].
  apply StronglySorted_cons in Hs as [Hall Hs].
  cbn [prune]. destruct (t <? now - RATE_LIMIT_WINDOW) eqn:E.
  - apply Z.ltb_lt in E. unfold recent. rewrite filter_cons_False by lia.
    apply IH, Hs.
  - apply Z.ltb_ge in E. symmetry. apply recent_all.
    constructor; [exact E|].
    eapply Forall_impl; [exact Hall|]. cbn. intros; lia.
Qed.

Lemma recent_recent (lo hi : Z) (ts : list Z) :
  lo <= hi -> recent hi (recent lo ts) = recent hi ts.
Proof.
  intros Hle. unfold recent. induction ts as [|t rest IH]; [reflexivity|].
  rewrite (filter_cons _ t rest). destruct (decide (lo - RATE_LIMIT_WINDOW <= t)).
  - rewrite !(filter_cons _ t). destruct (decide (hi - RATE_LIMIT_WINDOW <= t)); [f_equal|]; exact IH.
  - rewrite (filter_cons_False _ t rest) by lia. exact IH.
Qed.

Lemma recent_sorted (now : Z) (ts : list Z) :
  StronglySorted Z.le ts -> StronglySorted Z.le (recent now ts).
Proof.
  unfold recent. induction ts as [|t rest IH]; intros Hs; [constructor|].
  apply StronglySorted_cons in Hs as [Hall Hs].
  rewrite filter_cons. destruct (decide _); [|apply IH, Hs].
  apply StronglySorted_cons. split; [|apply IH, Hs].
  apply Forall_forall. intros x Hx. apply list_elem_of_filter in Hx as [_ Hx].
  rewrite Forall_forall in Hall. apply Hall, Hx.
Qed.

(** What holds after a call made when the clock read [hi]: the admitted
    readings ascend and none is later than [hi], and the array holds those of
    the window that ends at [hi]. *)
Definition tracks (hi : Z) (st : Limiter) : Prop :=
  StronglySorted Z.le (admitted st) /\
  Forall (fun t => t <= hi) (admitted st) /\
  rateLimitTimestamps st = recent hi (admitted st).

Lemma call_verdict (hi now : Z) (st : Limiter) :
  tracks hi st -> hi <= now ->
  fst (isRateLimited now (rateLimitTimestamps st)) =
  bool_decide (RATE_LIMIT_MAX <= length (recent now (admitted st)))%nat.
Proof.
  intros (Hs & Hle & Hts) Hnow. unfold isRateLimited.
  rewrite Hts, prune_recent by (apply recent_sorted, Hs).
  rewrite recent_recent by exact Hnow.
  case_bool_decide; reflexivity.
Qed.

Lemma call_tracks (hi now : Z) (st : Limiter) :
  tracks hi st -> hi <= now -> tracks now (call st now).
Proof.
  intros (Hs & Hle & Hts) Hnow. unfold call, isRateLimited.
  rewrite Hts, prune_recent by (apply recent_sorted, Hs).
  rewrite recent_recent by exact Hnow.
  case_bool_decide as Hfull; unfold tracks; cbn [admitted rateLimitTimestamps].
  - split; [exact Hs|]. split; [|reflexivity].
    eapply Forall_impl; [exact Hle|]. cbn. intros; lia.
  - split; [|split].
    + apply StronglySorted_app. split; [|split; [exact Hs | repeat constructor]].
      intros x y Hx Hy. apply list_elem_of_singleton in Hy. subst y.
      rewrite Forall_forall in Hle. specialize (Hle x Hx). lia.
    + apply Forall_app. split; [|repeat constructor; lia].
      eapply Forall_impl; [exact Hle|]. cbn. intros; lia.
    + unfold recent. rewrite filter_app. f_equal.
      rewrite filter_cons_True by (unfold RATE_LIMIT_WINDOW; lia). reflexivity.
Qed.

Lemma idle_tracks (hi : Z) : tracks hi idle.
Proof. unfold tracks, idle. cbn. repeat split; constructor. Qed.

Lemma last_cons (cs : list Z) : forall c hi, List.last (c :: cs) hi = List.last cs c.
Proof.
  induction cs as [|d ds IH]; intros c hi; [reflexivity|].
  change (List.last (c :: d :: ds) hi) with (List.last (d :: ds) hi).
  rewrite !IH. reflexivity.
Qed.

Lemma feed_tracks (clocks : list Z) : forall hi st,
  tracks hi st -> StronglySorted Z.le (hi :: clocks) ->
  tracks (List.last clocks hi) (feed st clocks).
Proof.
  induction clocks as [|c cs IH]; intros hi st Ht Hs; [exact Ht|].
  apply StronglySorted_cons in Hs as [Hall Hs].
  change (feed st (c :: cs)) with (feed (call st c) cs).
  rewrite last_cons.
  apply IH; [|exact Hs].
  apply (call_tracks hi); [exact Ht|]. apply Forall_cons in Hall as [Hc _]. exact Hc.
Qed.

(** Before a call at [now] that follows the calls at [pre], the state tracks
    some reading that is not later than [now]. *)
Lemma feed_tracks_before (pre : list Z) (now : Z) :
  StronglySorted Z.le (pre ++ [now]) ->
  exists hi, hi <= now /\ tracks hi (feed idle pre).
Proof.
  intros Hs. destruct pre as [|c cs].
  - exists now. split; [lia | apply idle_tracks].
  - exists (List.last cs c). split.
    + assert (Hin : List.last cs c ∈ c :: cs).
      { clear. revert c. induction cs as [|d ds IH]; intros c; [apply elem_of_cons; auto|].
        rewrite last_cons. apply elem_of_cons. right. apply IH. }
      eapply (StronglySorted_app_1_elem_of _ (c :: cs) [now]);
        [exact Hs | exact Hin | apply list_elem_of_singleton; reflexivity].
    + change (feed idle (c :: cs)) with (feed (call idle c) cs).
      apply feed_tracks.
      * apply (call_tracks c); [apply idle_tracks | lia].
      * apply StronglySorted_app_1_l in Hs. exact Hs.
Qed.

Lemma sorted_drop (l : list Z) : forall (i : nat) (x : Z),
  StronglySorted Z.le l -> l !! i = Some x -> Forall (Z.le x) (drop i l).
Proof.
  induction l as [|a l IH]; intros i x Hs Hi; [discriminate|].
  apply StronglySorted_cons in Hs as [Hall Hs].
  destruct i as [|i].
  - cbn in Hi. injection Hi as <-. cbn [drop]. constructor; [lia | exact Hall].
  - cbn [drop]. apply IH; assumption.
Qed.

Lemma recent_tail (now : Z) (l : list Z) (i : nat) (x : Z) :
  StronglySorted Z.le l -> l !! i = Some x -> now - RATE_LIMIT_WINDOW <= x ->
  (length l - i <= length (recent now l))%nat.
Proof.
  intros Hs Hi Hx.
  rewrite <- (take_drop i l) at 2. unfold recent. rewrite filter_app, length_app.
  fold (recent now (drop i l)). rewrite (recent_all now (drop i l)).
  - rewrite length_drop. lia.
  - eapply Forall_impl; [apply (sorted_drop l i x Hs Hi)|]. cbn. intros; lia.
Qed.

Lemma feed_snoc (st : Limiter) (pre : list Z) (now : Z) :
  feed st (pre ++ [now]) = call (feed st pre) now.
Proof. unfold feed. rewrite fold_left_app. reflexivity. Qed.

(** *** Properties of the rate limiter *)

(** X1.  Whatever the clock reads at each call, forwards or backwards, the
    array [rateLimitTimestamps] never holds more than [RATE_LIMIT_MAX] = 10
    entries. *)
Theorem timestamps_never_exceed_max (clocks : list Z) :
  (length (rateLimitTimestamps (feed idle clocks)) <= RATE_LIMIT_MAX)%nat.
Proof. apply feed_capped. cbn. unfold RATE_LIMIT_MAX. lia. Qed.

(** X2.  While the clock does not go backwards, a call is refused exactly
    when ten or more of the calls let through so far were made no more than
    60 000 ms before it; refused calls do not count. *)
Theorem limited_iff_ten_in_window (pre : list Z) (now : Z) :
  StronglySorted Z.le (pre ++ [now]) ->
  fst (isRateLimited now (rateLimitTimestamps (feed idle pre))) =
  bool_decide (10 <= length (recent now (admitted (feed idle pre))))%nat.
Proof.
  intros Hs. destruct (feed_tracks_before pre now Hs) as (hi & Hhi & Ht).
  apply (call_verdict hi); assumption.
Qed.

Lemma limited_iff_ten_in_window_witness :
  fst (isRateLimited 70000 (rateLimitTimestamps (feed idle burst))) =
  bool_decide (10 <= length (recent 70000 (admitted (feed idle burst))))%nat.
Proof.
  apply (limited_iff_ten_in_window burst 70000).
  unfold burst. cbn [app]. repeat constructor; lia.
Defined.

(** X3.  While the clock does not go backwards, any eleven calls let through
    one after the other span more than 60 000 ms: the eleventh comes more
    than a window after the first. *)
Theorem eleven_admitted_span_a_window (clocks : list Z) (i : nat) (x y : Z) :
  StronglySorted Z.le clocks ->
  admitted (feed idle clocks) !! i = Some x ->
  admitted (feed idle clocks) !! (i + 10)%nat = Some y ->
  x + RATE_LIMIT_WINDOW < y.
Proof.
  revert i x y. induction clocks as [|now pre IH] using rev_ind; intros i x y Hs Hx Hy.
  { discriminate. }
  pose proof (StronglySorted_app_1_l _ _ _ Hs) as Hpre.
  destruct (feed_tracks_before pre now Hs) as (hi & Hhi & Ht).
  pose proof (call_verdict hi now _ Ht Hhi) as Hv.
  rewrite feed_snoc in Hx, Hy. unfold call in Hx, Hy.
  destruct (isRateLimited now (rateLimitTimestamps (feed idle pre))) as [limited ts].
  cbn [fst admitted] in *.
  destruct limited; [apply (IH i); assumption|].
  symmetry in Hv. apply bool_decide_eq_false in Hv.
  destruct (decide (i + 10 < length (admitted (feed idle pre)))%nat) as [Hin | Hout].
  - rewrite lookup_app_l in Hx by lia. rewrite lookup_app_l in Hy by lia.
    apply (IH i); assumption.
  - assert (Hlen : (i + 10)%nat = length (admitted (feed idle pre))).
    { apply lookup_lt_Some in Hy. rewrite length_app in Hy. cbn in Hy. lia. }
    rewrite Hlen, list_lookup_middle in Hy by reflexivity. injection Hy as <-.
    rewrite lookup_app_l in Hx by lia.
    destruct (decide (x + RATE_LIMIT_WINDOW < now)) as [Hok | Hnear]; [exact Hok|].
    exfalso. apply Hv.
    destruct Ht as (Hsorted & _ & _).
    pose proof (recent_tail now _ i x Hsorted Hx) as Hrec.
    unfold RATE_LIMIT_MAX in *. lia.
Qed.

Lemma eleven_admitted_span_a_window_witness :
  0 + RATE_LIMIT_WINDOW < 60001.
Proof.
  apply (eleven_admitted_span_a_window burst 0 0 60001).
  - unfold burst. repeat constructor; lia.
  - reflexivity.
  - reflexivity.
Defined.

End RateLimit.

(** ** Delivery of a response in Telegram-sized pieces ([sendResponse]) *)

Module Send.
Import Js.

Definition MAX_LENGTH : Z := 4000.

(** [u.lastIndexOf (pat, position)] for a non-empty [pat] and a position
    that is not negative: the greatest index, at most [position], at which
    [pat] occurs, or -1. *)
Fixpoint lastIndexOf_upto (pat u : jsstring) (position : Z) : Z :=
  match u with
  | [] => -1
  | _ :: u' =>
      let r := lastIndexOf_upto pat u' (position - 1) in
      if 0 <=? r then r + 1
      else if (0 <=? position) && starts_with pat u then 0 else -1
  end.

(** [u.substring (from, to)]: both indices are clamped to the string and
    swapped when they come in the wrong order. *)
Definition substring (u : jsstring) (from to : Z) : jsstring :=
  let a := Z.max 0 (Z.min from (len u)) in
  let b := Z.max 0 (Z.min to (len u)) in
  take (Z.to_nat (Z.max a b - Z.min a b)) (drop (Z.to_nat (Z.min a b)) u).

Definition substring_from (u : jsstring) (from : Z) : jsstring :=
  substring u from (len u).

(** The four attempts at a split index, in the order of the source. *)
Definition splitIndex (remaining : jsstring) : Z :=
  let a := lastIndexOf_upto [lf; lf] remaining MAX_LENGTH in
  if negb (a =? -1) then a
  else
    let b := lastIndexOf_upto [lf] remaining MAX_LENGTH in
    if negb (b =? -1) then b
    else
      let c := lastIndexOf_upto [space] remaining MAX_LENGTH in
      if negb (c =? -1) then c else MAX_LENGTH.

(** The [while] loop, with the replies it makes; [fuel] bounds the number of
    iterations. *)
Fixpoint send_loop (fuel : nat) (remaining : jsstring) : option (list jsstring) :=
  match fuel with
  | O => None
  | S k =>
      if negb (0 <? len remaining) then Some []
      else if len remaining <=? MAX_LENGTH then Some [remaining]
      else
        match send_loop k (trim (substring_from remaining (splitIndex remaining))) with
        | Some replies => Some (substring remaining 0 (splitIndex remaining) :: replies)
        | None => None
        end
  end.

(** The text messages [sendResponse] replies with, in order (the voice note
    of driving mode is a separate reply and is left out).  The loop shortens
    [remaining] at every turn, so as many turns as the response has code
    units, and one, are enough. *)
Definition sendResponse (response : jsstring) : option (list jsstring) :=
  if len response <=? MAX_LENGTH then Some [response]
  else send_loop (S (length response)) response.

(** The code units of a string that are not white space. *)
Definition ink (u : jsstring) : jsstring := filter (fun c => is_space c = false) u.

(** The string does not begin with a line feed or a space. *)
Definition starts_clean (u : jsstring) : bool :=
  match u with
  | c :: _ => negb ((c =? lf)%N || (c =? space)%N)
  | [] => true
  end.

(** A response of 9 001 code units: two runs of letters with a space between. *)
Definition long_response : jsstring :=
  replicate 4500 97%N ++ [space] ++ replicate 4500 98%N.

(** *** Facts about the splitting *)

Lemma lastIndexOf_upto_spec (pat u : jsstring) : forall position,
  lastIndexOf_upto pat u position = -1 \/
  (0 <= lastIndexOf_upto pat u position <= position /\
   lastIndexOf_upto pat u position < len u /\
   starts_with pat (drop (Z.to_nat (lastIndexOf_upto pat u position)) u) = true).
Proof.
  induction u as [|c u IH]; intros position; [left; reflexivity|].
  cbn [lastIndexOf_upto]. rewrite len_cons.
  destruct (IH (position - 1)) as [Hnone | (Hr & Hlt & Hocc)].
  - rewrite Hnone. cbn [Z.leb Z.compare].
    destruct ((0 <=? position) && starts_with pat (c :: u)) eqn:E; [|left; reflexivity].
    apply andb_true_iff in E as [Hp Hs]. apply Z.leb_le in Hp.
    right. pose proof (len_nonneg u). repeat split; try lia. exact Hs.
  - replace (0 <=? lastIndexOf_upto pat u (position - 1)) with true
      by (symmetry; apply Z.leb_le; lia).
    right. repeat split; try lia.
    replace (Z.to_nat (lastIndexOf_upto pat u (position - 1) + 1))
      with (S (Z.to_nat (lastIndexOf_upto pat u (position - 1)))) by lia.
    exact Hocc.
Qed.

(** The split index lies within the first [MAX_LENGTH] code units, and when
    it is 0 the string begins with a line feed or a space. *)
Lemma splitIndex_spec (u : jsstring) :
  0 <= splitIndex u <= MAX_LENGTH /\
  (splitIndex u = 0 -> exists c rest, u = c :: rest /\ (c = lf \/ c = space)).
Proof.
  unfold splitIndex.
  assert (Hhead : forall pat c0 pat', pat = c0 :: pat' ->
            forall p, lastIndexOf_upto pat u p = 0 ->
            exists c rest, u = c :: rest /\ c = c0).
  { intros pat c0 pat' -> p H0.
    destruct (lastIndexOf_upto_spec (c0 :: pat') u p) as [Hn | (_ & _ & Hocc)]; [lia|].
    rewrite H0 in Hocc. cbn [Z.to_nat drop] in Hocc.
    destruct u as [|c rest]; [discriminate|].
    cbn [starts_with] in Hocc. apply andb_true_iff in Hocc as [Hc _].
    apply N.eqb_eq in Hc. exists c, rest. split; [reflexivity | congruence]. }
  destruct (lastIndexOf_upto_spec [lf; lf] u MAX_LENGTH) as [Ha | (Ha & _)].
  - rewrite Ha, Z.eqb_refl. cbn [negb].
    destruct (lastIndexOf_upto_spec [lf] u MAX_LENGTH) as [Hb | (Hb & _)].
    + rewrite Hb, Z.eqb_refl. cbn [negb].
      destruct (lastIndexOf_upto_spec [space] u MAX_LENGTH) as [Hc | (Hc & _)].
      * rewrite Hc, Z.eqb_refl. cbn [negb]. unfold MAX_LENGTH. split; [lia | intros; lia].
      * replace (lastIndexOf_upto [space] u MAX_LENGTH =? -1) with false
          by (symmetry; apply Z.eqb_neq; lia).
        cbn [negb]. split; [lia|]. intros H0.
        destruct (Hhead [space] space [] eq_refl _ H0) as (c & rest & -> & ->). eauto.
    + replace (lastIndexOf_upto [lf] u MAX_LENGTH =? -1) with false
        by (symmetry; apply Z.eqb_neq; lia).
      cbn [negb]. split; [lia|]. intros H0.
      destruct (Hhead [lf] lf [] eq_refl _ H0) as (c & rest & -> & ->). eauto.
  - replace (lastIndexOf_upto [lf; lf] u MAX_LENGTH =? -1) with false
      by (symmetry; apply Z.eqb_neq; lia).
    cbn [negb]. split; [lia|]. intros H0.
    destruct (Hhead [lf; lf] lf [lf] eq_refl _ H0) as (c & rest & -> & ->). eauto.
Qed.

Lemma substring_split (u : jsstring) (i : Z) :
  0 <= i <= len u ->
  substring u 0 i = take (Z.to_nat i) u /\ substring_from u i = drop (Z.to_nat i) u.
Proof.
  intros Hi. unfold substring_from, substring.
  pose proof (len_nonneg u) as Hn.
  rewrite !Z.min_id.
  replace (Z.max 0 (Z.min 0 (len u))) with 0 by lia.
  replace (Z.max 0 (Z.min i (len u))) with i by lia.
  replace (Z.max 0 (len u)) with (len u) by lia.
  replace (Z.min 0 i) with 0 by lia. replace (Z.max 0 i) with i by lia.
  replace (Z.min i (len u)) with i by lia. replace (Z.max i (len u)) with (len u) by lia.
  split.
  - cbn [Z.to_nat drop]. f_equal. lia.
  - apply take_ge. rewrite length_drop. unfold len. lia.
Qed.

Lemma ink_trimStart (u : jsstring) : ink (trimStart u) = ink u.
Proof.
  induction u as [|c u IH]; [reflexivity|].
  cbn [trimStart]. destruct (is_space c) eqn:E; [|reflexivity].
  unfold ink at 2. rewrite filter_cons_False by congruence. exact IH.
Qed.

Lemma ink_trim (u : jsstring) : ink (trim u) = ink u.
Proof.
  unfold trim, trimEnd, ink.
  rewrite filter_reverse. fold (ink (trimStart (reverse (trimStart u)))).
  rewrite ink_trimStart. unfold ink. rewrite filter_reverse, reverse_involutive.
  apply ink_trimStart.
Qed.

Lemma trimStart_head (u : jsstring) :
  trimStart u = [] \/ exists c rest, trimStart u = c :: rest /\ is_space c = false.
Proof.
  induction u as [|c u IH]; [left; reflexivity|].
  cbn [trimStart]. destruct (is_space c) eqn:E; [exact IH|].
  right. eauto.
Qed.

Lemma trimStart_snoc (l : jsstring) (c : N) :
  is_space c = false -> exists l', trimStart (l ++ [c]) = l' ++ [c].
Proof.
  intros Hc. induction l as [|a l IH].
  - exists []. cbn. rewrite Hc. reflexivity.
  - cbn [app trimStart]. destruct (is_space a); [exact IH|].
    exists (a :: l). reflexivity.
Qed.

(** What [trim] returns is empty or begins with a code unit that is not
    white space. *)
Lemma trim_head (u : jsstring) :
  trim u = [] \/ exists c rest, trim u = c :: rest /\ is_space c = false.
Proof.
  unfold trim, trimEnd.
  destruct (trimStart_head u) as [-> | (c & rest & -> & Hc)]; [left; reflexivity|].
  right. rewrite reverse_cons.
  destruct (trimStart_snoc (reverse rest) c Hc) as (l' & ->).
  rewrite reverse_snoc. eauto.
Qed.

Lemma len_trimStart_lt (c : N) (rest : jsstring) :
  is_space c = true -> len (trimStart (c :: rest)) < len (c :: rest).
Proof.
  intros Hc. cbn [trimStart]. rewrite Hc, len_cons.
  pose proof (Relay.len_trimStart rest). lia.
Qed.

(** One turn of the loop leaves strictly less to send. *)
Lemma remaining_shrinks (u : jsstring) :
  MAX_LENGTH < len u ->
  len (trim (substring_from u (splitIndex u))) < len u.
Proof.
  intros Hlong. destruct (splitIndex_spec u) as [Hi Hzero].
  destruct (substring_split u (splitIndex u) ltac:(lia)) as [_ ->].
  pose proof (Relay.len_trim (drop (Z.to_nat (splitIndex u)) u)) as Htrim.
  destruct (Z.eq_dec (splitIndex u) 0) as [H0 | Hpos].
  - destruct (Hzero H0) as (c & rest & -> & Hc).
    rewrite H0. change (Z.to_nat 0) with 0%nat. cbn [drop].
    assert (Hsp : is_space c = true) by (destruct Hc as [-> | ->]; reflexivity).
    unfold trim, trimEnd.
    pose proof (len_trimStart_lt c rest Hsp) as H1.
    pose proof (Relay.len_trimStart (reverse (trimStart (c :: rest)))) as H2.
    unfold len in *. rewrite !length_reverse in *. lia.
  - unfold len in *. rewrite length_drop in Htrim. lia.
Qed.

Lemma ink_app (u v : jsstring) : ink (u ++ v) = ink u ++ ink v.
Proof. unfold ink. apply filter_app. Qed.

Lemma clean_after_trim (u : jsstring) : starts_clean (trim u) = true.
Proof.
  destruct (trim_head u) as [-> | (c & rest & -> & Hc)]; [reflexivity|].
  cbn [starts_clean].
  destruct (c =? lf)%N eqn:E1; [apply N.eqb_eq in E1; subst c; discriminate|].
  destruct (c =? space)%N eqn:E2; [apply N.eqb_eq in E2; subst c; discriminate|].
  reflexivity.
Qed.

(** With fuel beyond the length of what remains, the loop ends, and its
    replies are short enough, keep the ink, and are not empty when what
    remains begins cleanly. *)
Lemma send_loop_spec (fuel : nat) : forall u : jsstring,
  (length u < fuel)%nat ->
  exists replies,
    send_loop fuel u = Some replies /\
    Forall (fun r => len r <= MAX_LENGTH) replies /\
    ink (concat replies) = ink u /\
    (starts_clean u = true -> Forall (fun r => truthy r = true) replies).
Proof.
  induction fuel as [|k IH]; intros u Hfuel; [lia|].
  cbn [send_loop].
  destruct (0 <? len u) eqn:Hpos; cbn [negb].
  2:{ exists []. apply Z.ltb_ge in Hpos.
      assert (u = []) as -> by (destruct u; [reflexivity | rewrite len_cons in Hpos; pose proof (len_nonneg u); lia]).
      repeat split; constructor. }
  apply Z.ltb_lt in Hpos.
  destruct (len u <=? MAX_LENGTH) eqn:Hshort.
  { exists [u]. apply Z.leb_le in Hshort. repeat split.
    - repeat constructor. exact Hshort.
    - cbn [concat]. rewrite app_nil_r. reflexivity.
    - intros _. repeat constructor. apply Relay.truthy_len. exact Hpos. }
  apply Z.leb_gt in Hshort.
  destruct (splitIndex_spec u) as [Hi Hzero].
  pose proof (remaining_shrinks u Hshort) as Hless.
  destruct (IH (trim (substring_from u (splitIndex u)))) as (rs & Hrun & Hfit & Hink & Hfull).
  { unfold len in Hless. lia. }
  rewrite Hrun. eexists. split; [reflexivity|].
  destruct (substring_split u (splitIndex u) ltac:(lia)) as [Htake Hdrop].
  rewrite Htake. rewrite Hdrop in Hink.
  split; [|split].
  - constructor; [|exact Hfit]. unfold len. rewrite length_take. lia.
  - cbn [concat]. rewrite ink_app, Hink, ink_trim, <- ink_app, take_drop. reflexivity.
  - intros Hclean. constructor; [|apply Hfull, clean_after_trim].
    apply Relay.truthy_len. unfold len in *. rewrite length_take.
    destruct (Z.eq_dec (splitIndex u) 0) as [H0 | Hne]; [|lia].
    exfalso. destruct (Hzero H0) as (c & rest & -> & Hc).
    cbn [starts_clean] in Hclean. destruct Hc as [-> | ->]; discriminate.
Qed.

Lemma sendResponse_spec (response : jsstring) :
  exists replies,
    sendResponse response = Some replies /\
    Forall (fun r => len r <= MAX_LENGTH) replies /\
    ink (concat replies) = ink response /\
    (truthy response = true -> starts_clean response = true ->
     Forall (fun r => truthy r = true) replies).
Proof.
  unfold sendResponse. destruct (len response <=? MAX_LENGTH) eqn:Hshort.
  - exists [response]. apply Z.leb_le in Hshort. repeat split.
    + repeat constructor. exact Hshort.
    + cbn [concat]. rewrite app_nil_r. reflexivity.
    + intros Ht _. repeat constructor. exact Ht.
  - destruct (send_loop_spec (S (length response)) response ltac:(lia))
      as (rs & Hrun & Hfit & Hink & Hfull).
    exists rs. repeat split; auto.
Qed.

(** *** Properties of the delivery *)

(** X4.  For every response the loop of [sendResponse] comes to an end, and
    no text message it replies with is longer than 4 000 code units. *)
Theorem replies_fit_the_limit (response : jsstring) :
  exists replies,
    sendResponse response = Some replies /\
    Forall (fun r => len r <= MAX_LENGTH) replies.
Proof.
  destruct (sendResponse_spec response) as (rs & Hrun & Hfit & _).
  exists rs. split; assumption.
Qed.

(** X5.  Splitting loses nothing but white space: the code units of the
    replies that are not white space are those of the response, in the same
    order. *)
Theorem replies_keep_the_ink (response : jsstring) (replies : list jsstring) :
  sendResponse response = Some replies ->
  ink (concat replies) = ink response.
Proof.
  intros Hrun. destruct (sendResponse_spec response) as (rs & Hrun' & _ & Hink & _).
  congruence.
Qed.

Lemma replies_keep_the_ink_witness :
  ink (concat [replicate 4000 97%N; replicate 500 97%N; replicate 4000 98%N;
               replicate 500 98%N]) = ink long_response.
Proof.
  apply (replies_keep_the_ink long_response). vm_compute. reflexivity.
Defined.

(** X6.  A response that is not empty and does not begin with a line feed or
    a space is never delivered with an empty reply among the pieces. *)
Theorem no_reply_is_empty (response : jsstring) :
  truthy response = true ->
  starts_clean response = true ->
  exists replies,
    sendResponse response = Some replies /\
    Forall (fun r => truthy r = true) replies.
Proof.
  intros Ht Hc. destruct (sendResponse_spec response) as (rs & Hrun & _ & _ & Hfull).
  exists rs. split; [exact Hrun | apply Hfull; assumption].
Qed.

Lemma no_reply_is_empty_witness :
  exists replies,
    sendResponse long_response = Some replies /\
    Forall (fun r => truthy r = true) replies.
Proof.
  apply (no_reply_is_empty long_response); reflexivity.
Defined.

End Send.

(** ** Project names of the session sync *)

Module Project.
Import Js.

Definition dash : N := 45%N.

(** The part of [u] before its first dash, and the parts after it. *)
Fixpoint split_parts (u : jsstring) : jsstring * list jsstring :=
  match u with
  | [] => ([], [])
  | c :: u' =>
      let '(p, rest) := split_parts u' in
      if (c =? dash)%N then ([], p :: rest) else (c :: p, rest)
  end.

(** [u.split ("-")] *)
Definition split (u : jsstring) : list jsstring :=
  let '(p, rest) := split_parts u in p :: rest.

(** [parts.indexOf (x)] on an array of strings. *)
Fixpoint indexOf (x : jsstring) (parts : list jsstring) : Z :=
  match parts with
  | [] => -1
  | p :: rest =>
      if bool_decide (p = x) then 0
      else let r := indexOf x rest in if r =? -1 then -1 else r + 1
  end.

Definition projectFromDirName (dirName : jsstring) : jsstring :=
  let parts := split dirName in
  let userIdx := indexOf (str "Users") parts in
  if (0 <=? userIdx) && (userIdx + 2 <? Z.of_nat (length parts)) then
    let projectParts := drop (Z.to_nat (userIdx + 2)) parts in
    let joined := join [dash] projectParts in
    if truthy joined then joined else str "home"
  else if truthy dirName then dirName else str "unknown".

(** *** Facts about splitting and joining *)

Lemma split_cons_dash (u : jsstring) : split (dash :: u) = [] :: split u.
Proof.
  unfold split. cbn [split_parts]. destruct (split_parts u) as [p rest].
  reflexivity.
Qed.

Lemma split_cons_other (c : N) (u : jsstring) :
  c <> dash ->
  split (c :: u) =
  match split u with
  | p :: rest => (c :: p) :: rest
  | [] => []
  end.
Proof.
  intros Hc. unfold split. cbn [split_parts]. destruct (split_parts u) as [p rest].
  destruct (N.eqb_spec c dash); [contradiction | reflexivity].
Qed.

Lemma split_app_dash (a b : jsstring) :
  dash ∉ a -> split (a ++ dash :: b) = a :: split b.
Proof.
  induction a as [|c a IH]; intros Ha.
  - apply split_cons_dash.
  - cbn [app]. rewrite split_cons_other by (intros ->; apply Ha; left).
    rewrite IH by (intros H; apply Ha; right; exact H). reflexivity.
Qed.

Lemma split_no_dash (a : jsstring) : dash ∉ a -> split a = [a].
Proof.
  induction a as [|c a IH]; intros Ha; [reflexivity|].
  rewrite split_cons_other by (intros ->; apply Ha; left).
  rewrite IH by (intros H; apply Ha; right; exact H). reflexivity.
Qed.

Lemma join_cons_head (c : N) (p : jsstring) (rest : list jsstring) :
  join [dash] ((c :: p) :: rest) = c :: join [dash] (p :: rest).
Proof. destruct rest; reflexivity. Qed.

Lemma join_split (u : jsstring) : join [dash] (split u) = u.
Proof.
  induction u as [|c u IH]; [reflexivity|].
  destruct (N.eq_dec c dash) as [-> | Hc].
  - rewrite split_cons_dash.
    change (join [dash] ([] :: split u)) with
      (match split u with [] => [] | _ => [] ++ [dash] ++ join [dash] (split u) end).
    unfold split in *. destruct (split_parts u) as [p rest].
    cbn [app]. rewrite IH. reflexivity.
  - rewrite split_cons_other by exact Hc.
    unfold split in *. destruct (split_parts u) as [p rest].
    rewrite join_cons_head, IH. reflexivity.
Qed.

Lemma users_has_no_dash : dash ∉ str "Users".
Proof. intros H. vm_compute in H. repeat (apply elem_of_cons in H as [H | H]; [discriminate|]). inversion H. Qed.

Lemma split_user_prefix (user rest : jsstring) :
  dash ∉ user ->
  split (str "-Users-" ++ user ++ dash :: rest) = [] :: str "Users" :: user :: split rest.
Proof.
  intros Hu.
  change (str "-Users-" ++ user ++ dash :: rest)
    with ([] ++ dash :: (str "Users" ++ dash :: (user ++ dash :: rest))).
  rewrite split_app_dash by (intros H; inversion H).
  rewrite split_app_dash by exact users_has_no_dash.
  rewrite split_app_dash by exact Hu. reflexivity.
Qed.

(** *** Properties of the project name *)

(** X7.  From a directory name of the form [-Users-<user>-<rest>], where
    the user name has no dash, [projectFromDirName] returns [<rest>] as it
    stands, dashes included, and [home] when [<rest>] is empty. *)
Theorem project_is_what_follows_the_user (user rest : jsstring) :
  dash ∉ user ->
  projectFromDirName (str "-Users-" ++ user ++ dash :: rest) =
  if truthy rest then rest else str "home".
Proof.
  intros Hu. unfold projectFromDirName. rewrite split_user_prefix by exact Hu.
  cbn [indexOf].
  rewrite (bool_decide_eq_false_2 ([] = str "Users")) by discriminate.
  rewrite (bool_decide_eq_true_2 (str "Users" = str "Users")) by reflexivity.
  change (if 0 =? -1 then -1 else 0 + 1) with 1.
  replace (1 + 2 <? Z.of_nat (length ([] :: str "Users" :: user :: split rest)))
    with true.
  2:{ symmetry. apply Z.ltb_lt. cbn [length]. unfold split.
      destruct (split_parts rest). cbn [length]. lia. }
  change (Z.to_nat (1 + 2)) with 3%nat. cbn [drop Z.leb Z.compare andb].
  rewrite drop_0, join_split. reflexivity.
Qed.

Lemma project_is_what_follows_the_user_witness :
  projectFromDirName (str "-Users-" ++ str "ada" ++ dash :: str "my-agent-relay") =
  str "my-agent-relay".
Proof.
  apply (project_is_what_follows_the_user (str "ada") (str "my-agent-relay")).
  vm_compute. intros H.
  repeat (apply elem_of_cons in H as [H | H]; [discriminate|]). inversion H.
Defined.

(** X8.  A directory name [-Users-<user>] with nothing after the user name
    is returned unchanged; it is not renamed to [home]. *)
Theorem bare_home_directory_keeps_its_name (user : jsstring) :
  dash ∉ user ->
  projectFromDirName (str "-Users-" ++ user) = str "-Users-" ++ user.
Proof.
  intros Hu. unfold projectFromDirName.
  change (str "-Users-" ++ user) with ([] ++ dash :: (str "Users" ++ dash :: user)).
  rewrite split_app_dash by (intros H; inversion H).
  rewrite split_app_dash by exact users_has_no_dash.
  rewrite split_no_dash by exact Hu.
  cbn [indexOf].
  rewrite (bool_decide_eq_false_2 ([] = str "Users")) by discriminate.
  rewrite (bool_decide_eq_true_2 (str "Users" = str "Users")) by reflexivity.
  reflexivity.
Qed.

Lemma bare_home_directory_keeps_its_name_witness :
  projectFromDirName (str "-Users-" ++ str "ada") = str "-Users-" ++ str "ada".
Proof.
  apply (bare_home_directory_keeps_its_name (str "ada")).
  vm_compute. intros H.
  repeat (apply elem_of_cons in H as [H | H]; [discriminate|]). inversion H.
Defined.

End Project.

(** ** Protected paths *)

Module Sensitive.
Import Js.

Definition tilde : N := 126%N.
Definition dollar : N := 36%N.

Definition SENSITIVE_PATH_PREFIXES : list jsstring :=
  [str "~/.ssh/"; str "~/.env"; str "~/.bashrc"; str "~/.zshrc";
   str "~/.bash_profile"; str "~/.profile";
   str "~/.gitconfig"; str "~/.claude/settings"; str "~/.claude/credentials";
   str "/etc/"; str "~/.gnupg/"; str "~/.aws/"; str "~/.kube/"].

(** The replacement text [String.prototype.replace] builds from a template
    when the pattern has no capture groups: [$$] is a dollar sign, [$&] the
    match, and [$`] and [$'] what precedes and follows it; every other code
    unit stands for itself. *)
Fixpoint substitute (matched before after template : jsstring) : jsstring :=
  match template with
  | [] => []
  | d :: t =>
      if (d =? dollar)%N then
        match t with
        | c :: t' =>
            if (c =? dollar)%N then dollar :: substitute matched before after t'
            else if (c =? 96)%N then before ++ substitute matched before after t'
            else if (c =? 38)%N then matched ++ substitute matched before after t'
            else if (c =? 39)%N then after ++ substitute matched before after t'
            else d :: substitute matched before after t
        | [] => [d]
        end
      else d :: substitute matched before after t
  end.

(** [u.replace (/^~/, HOME)] *)
Definition expand (HOME u : jsstring) : jsstring :=
  match u with
  | c :: rest => if (c =? tilde)%N then substitute [tilde] [] rest HOME ++ rest else u
  | [] => []
  end.

(** [u.replace (pat, rep)] for a string [pat] and a replacement without a
    dollar sign: the first occurrence of [pat] is replaced. *)
Fixpoint replace_first (pat rep u : jsstring) {struct u} : jsstring :=
  if starts_with pat u then rep ++ drop (length pat) u
  else
    match u with
    | [] => []
    | c :: u' => c :: replace_first pat rep u'
    end.

Definition isSensitivePath (HOME filePath : jsstring) : bool :=
  let normalized := expand HOME filePath in
  let withTilde :=
    if starts_with [tilde] filePath then filePath
    else replace_first HOME [tilde] filePath in
  existsb (fun prefix =>
             let expandedPrefix := expand HOME prefix in
             starts_with expandedPrefix normalized || starts_with prefix withTilde)
          SENSITIVE_PATH_PREFIXES.

(** *** Facts about the string operations *)

Lemma starts_with_app (p rest : jsstring) : starts_with p (p ++ rest) = true.
Proof.
  induction p as [|c p IH]; [reflexivity|].
  cbn [app starts_with]. rewrite N.eqb_refl, IH. reflexivity.
Qed.

Lemma starts_with_app_l (a b u : jsstring) :
  starts_with (a ++ b) u = true -> starts_with a u = true.
Proof.
  revert u. induction a as [|c a IH]; intros u H; [reflexivity|].
  destruct u as [|d u]; [discriminate|].
  cbn [app starts_with] in *. apply andb_true_iff in H as [Hc H].
  rewrite Hc, (IH u H). reflexivity.
Qed.

Lemma starts_with_includes (pat u : jsstring) :
  starts_with pat u = true -> includes pat u = true.
Proof. intros H. destruct u; cbn [includes]; rewrite H; reflexivity. Qed.

Lemma replace_first_absent (pat rep u : jsstring) :
  includes pat u = false -> replace_first pat rep u = u.
Proof.
  induction u as [|c u IH]; intros H.
  - cbn [includes] in H. apply orb_false_iff in H as [H _].
    cbn [replace_first]. rewrite H. reflexivity.
  - cbn [includes] in H. apply orb_false_iff in H as [H H'].
    cbn [replace_first]. rewrite H, (IH H'). reflexivity.
Qed.

Lemma substitute_plain (matched before after template : jsstring) :
  dollar ∉ template -> substitute matched before after template = template.
Proof.
  induction template as [|d t IH]; intros Hd; [reflexivity|].
  cbn [substitute].
  destruct (N.eqb_spec d dollar) as [-> | _]; [exfalso; apply Hd; left|].
  rewrite IH by (intros H; apply Hd; right; exact H). reflexivity.
Qed.

Lemma expand_tilde (HOME p : jsstring) :
  dollar ∉ HOME -> expand HOME (tilde :: p) = HOME ++ p.
Proof.
  intros Hd. unfold expand. rewrite N.eqb_refl, substitute_plain by exact Hd.
  reflexivity.
Qed.

Lemma expand_other (HOME u : jsstring) :
  starts_with [tilde] u = false -> expand HOME u = u.
Proof.
  destruct u as [|c u]; [reflexivity|]. cbn [starts_with expand].
  rewrite andb_true_r, N.eqb_sym. intros ->. reflexivity.
Qed.

Lemma existsb_elem {A : Type} (f : A -> bool) (l : list A) (x : A) :
  x ∈ l -> f x = true -> existsb f l = true.
Proof.
  intros Hx Hf. apply existsb_exists. exists x. split; [|exact Hf].
  apply list_elem_of_In. exact Hx.
Qed.

Lemma existsb_none {A : Type} (f : A -> bool) (l : list A) :
  (forall x, x ∈ l -> f x = false) -> existsb f l = false.
Proof.
  intros H. induction l as [|a l IH]; [reflexivity|].
  cbn [existsb]. rewrite (H a) by left.
  apply IH. intros x Hx. apply H. right. exact Hx.
Qed.

Lemma prefix_shape (prefix : jsstring) :
  prefix ∈ SENSITIVE_PATH_PREFIXES ->
  (exists p, prefix = tilde :: p) \/ prefix = str "/etc/".
Proof.
  intros H. unfold SENSITIVE_PATH_PREFIXES in H.
  repeat (apply elem_of_cons in H as [-> | H];
          [first [right; reflexivity | left; eexists; reflexivity]|]).
  inversion H.
Qed.

(** *** Properties of the check *)

(** X9.  Whatever the home directory is, a path that begins with one of the
    listed prefixes, as written in the list, is sensitive. *)
Theorem listed_prefix_is_sensitive (HOME prefix rest : jsstring) :
  prefix ∈ SENSITIVE_PATH_PREFIXES ->
  isSensitivePath HOME (prefix ++ rest) = true.
Proof.
  intros Hin. unfold isSensitivePath.
  apply (existsb_elem _ _ prefix Hin). cbv beta zeta.
  destruct (starts_with [tilde] (prefix ++ rest)) eqn:Ht.
  - rewrite starts_with_app. apply orb_true_r.
  - rewrite (expand_other HOME (prefix ++ rest)) by exact Ht.
    rewrite expand_other, starts_with_app; [reflexivity|].
    destruct prefix as [|c p]; [reflexivity|].
    cbn [app starts_with] in *. exact Ht.
Qed.

Lemma listed_prefix_is_sensitive_witness :
  isSensitivePath (str "/home/ada") (str "~/.env" ++ str "oy/config") = true.
Proof.
  apply (listed_prefix_is_sensitive (str "/home/ada") (str "~/.env") (str "oy/config")).
  unfold SENSITIVE_PATH_PREFIXES. right. left.
Defined.

(** X10.  A path under the home directory is sensitive when what follows
    the home directory is what follows the tilde in a listed prefix, as long
    as the home directory holds no dollar sign and the path does not begin
    with a tilde. *)
Theorem path_under_home_is_sensitive (HOME p rest : jsstring) :
  dollar ∉ HOME ->
  starts_with [tilde] (HOME ++ p ++ rest) = false ->
  tilde :: p ∈ SENSITIVE_PATH_PREFIXES ->
  isSensitivePath HOME (HOME ++ p ++ rest) = true.
Proof.
  intros Hd Ht Hin. unfold isSensitivePath.
  apply (existsb_elem _ _ (tilde :: p) Hin). cbv beta zeta.
  rewrite expand_tilde by exact Hd.
  rewrite expand_other by exact Ht.
  rewrite app_assoc, starts_with_app. reflexivity.
Qed.

Lemma path_under_home_is_sensitive_witness :
  isSensitivePath (str "/home/ada")
    (str "/home/ada" ++ str "/.ssh/" ++ str "id_rsa") = true.
Proof.
  apply (path_under_home_is_sensitive (str "/home/ada") (str "/.ssh/") (str "id_rsa")).
  - vm_compute. intros H.
    repeat (apply elem_of_cons in H as [H | H]; [discriminate|]). inversion H.
  - reflexivity.
  - left.
Defined.

(** X11.  The check is on the text of the path alone: with a home directory
    that holds no dollar sign, a path that does not begin with a tilde or
    with [/etc/] and in which the home directory does not occur is never
    sensitive, wherever it leads. *)
Theorem other_paths_are_not_sensitive (HOME filePath : jsstring) :
  dollar ∉ HOME ->
  starts_with [tilde] filePath = false ->
  starts_with (str "/etc/") filePath = false ->
  includes HOME filePath = false ->
  isSensitivePath HOME filePath = false.
Proof.
  intros Hd Ht Hetc Hhome. unfold isSensitivePath.
  rewrite Ht, (replace_first_absent _ _ _ Hhome), (expand_other _ _ Ht).
  apply existsb_none. intros prefix Hin.
  destruct (prefix_shape prefix Hin) as [[p ->] | ->].
  - rewrite expand_tilde by exact Hd. apply orb_false_iff. split.
    + destruct (starts_with (HOME ++ p) filePath) eqn:E; [|reflexivity].
      apply starts_with_app_l, starts_with_includes in E. congruence.
    + destruct (starts_with (tilde :: p) filePath) eqn:E; [|reflexivity].
      apply (starts_with_app_l [tilde] p) in E. congruence.
  - rewrite expand_other by reflexivity. rewrite Hetc.
    reflexivity.
Qed.

Lemma other_paths_are_not_sensitive_witness :
  isSensitivePath (str "/home/ada") (str "../ada/.ssh/id_rsa") = false.
Proof.
  apply (other_paths_are_not_sensitive (str "/home/ada") (str "../ada/.ssh/id_rsa")).
  - vm_compute. intros H.
    repeat (apply elem_of_cons in H as [H | H]; [discriminate|]). inversion H.
  - reflexivity.
  - reflexivity.
  - reflexivity.
Defined.

End Sensitive.

(** ** The context gauge *)

Module Gauge.
Import Js Tracker.

Definition full_block : N := 9608%N.
Definition light_shade : N := 9617%N.

(** [Math.round ((p / 100) * total)] with [total = 10], as the runtime
    computes it on an integer [p]. *)
Definition filled (p : Z) : Z :=
  Binary64.js_round
    (PrimFloat.mul (PrimFloat.div (Binary64.of_int p) (Binary64.of_int 100))
                   (Binary64.of_int 10)).

(** [c.repeat (count)]: a negative count is a [RangeError]. *)
Definition repeat_unit (c : N) (count : Z) : option jsstring :=
  if count <? 0 then None else Some (replicate (Z.to_nat count) c).

(** [progressBar (pct)], [None] when it throws.  The three [return]
    statements build the same string. *)
Definition progressBar (pct : option Z) (t : ContextTracker) : option jsstring :=
  let p := match pct with Some p => p | None => usedPct t end in
  let total := 10 in
  let empty := total - filled p in
  match repeat_unit full_block (filled p), repeat_unit light_shade empty with
  | Some black, Some white => Some ([91%N] ++ black ++ white ++ [93%N])
  | _, _ => None
  end.

(** The bar with [k] cells filled out of ten. *)
Definition bar (k : Z) : jsstring :=
  [91%N] ++ replicate (Z.to_nat k) full_block ++
  replicate (Z.to_nat (10 - k)) light_shade ++ [93%N].

Definition filled_is_nearest_tenth (p : Z) : bool := filled p =? (p + 5) / 10.

Definition unwarned (t : ContextTracker) : Prop :=
  pct10 (warnings t) = false /\ pct5 (warnings t) = false.

(** *** Facts *)

Lemma usedPct_closed_form (t : ContextTracker) :
  usedPct t = Z.min 100 ((tokens t + 1000) / 2000).
Proof.
  unfold usedPct, round_div, CONTEXT_WINDOW. f_equal.
  replace (2 * (tokens t * 100) + 200000) with ((tokens t + 1000) * 200) by lia.
  change (2 * 200000) with (2000 * 200).
  apply Z.div_mul_cancel_r; lia.
Qed.

Lemma usedPct_range (t : ContextTracker) : 0 <= tokens t -> 0 <= usedPct t <= 100.
Proof.
  intros H. rewrite usedPct_closed_form.
  assert (0 <= (tokens t + 1000) / 2000) by (apply Z.div_pos; lia). lia.
Qed.

Lemma filled_on_percentages (p : Z) : 0 <= p <= 100 -> filled p = (p + 5) / 10.
Proof.
  intros Hp.
  assert (Hall : Binary64.holds_from filled_is_nearest_tenth 101 0 = true)
    by (vm_compute; reflexivity).
  apply Z.eqb_eq.
  apply (Binary64.holds_from_spec filled_is_nearest_tenth 101 0 p Hall). lia.
Qed.

Lemma bar_drawn (p : Z) :
  0 <= p <= 100 ->
  (match repeat_unit full_block (filled p), repeat_unit light_shade (10 - filled p) with
   | Some black, Some white => Some ([91%N] ++ black ++ white ++ [93%N])
   | _, _ => None
   end) = Some (bar ((p + 5) / 10)) /\
  len (bar ((p + 5) / 10)) = 12.
Proof.
  intros Hp.
  assert (Hk : 0 <= (p + 5) / 10 <= 10).
  { assert ((p + 5) / 10 < 11) by (apply Z.div_lt_upper_bound; lia).
    split; [apply Z.div_pos; lia | lia]. }
  split.
  - rewrite (filled_on_percentages p Hp). unfold repeat_unit.
    replace ((p + 5) / 10 <? 0) with false by (symmetry; apply Z.ltb_ge; lia).
    replace (10 - (p + 5) / 10 <? 0) with false by (symmetry; apply Z.ltb_ge; lia).
    reflexivity.
  - unfold bar, len. rewrite !length_app, !length_replicate. cbn [length]. lia.
Qed.

(** *** Properties of the gauge *)

(** X12.  As long as the token count is not negative, the used and the
    remaining percentage both lie between 0 and 100. *)
Theorem percentages_stay_in_range (t : ContextTracker) :
  0 <= tokens t ->
  0 <= usedPct t <= 100 /\ 0 <= remainingPct t <= 100.
Proof.
  intros H. pose proof (usedPct_range t H). unfold remainingPct. lia.
Qed.

Lemma percentages_stay_in_range_witness :
  0 <= usedPct (setTokens 250000 fresh) <= 100 /\
  0 <= remainingPct (setTokens 250000 fresh) <= 100.
Proof.
  apply (percentages_stay_in_range (setTokens 250000 fresh)). cbn. lia.
Defined.

(** X13.  In token counts: a tracker that has given no warning yet stays
    silent below 179 000 tokens, announces that compaction approaches from
    179 000 up to 189 000, and that it is imminent from 189 000 on.  Both
    thresholds are counts at which the exact percentage ends in one half;
    there, and one token below, the percentage the runtime computes in
    binary64 is the exact one. *)
Theorem warning_thresholds_in_tokens (t : ContextTracker) :
  unwarned t ->
  fst (checkWarnings t) =
    (if 189000 <=? tokens t
     then Some (CompactionImminent (usedPct t) (remainingPct t))
     else if 179000 <=? tokens t
          then Some (CompactionApproaching (usedPct t) (remainingPct t))
          else None) /\
  Binary64.usedPct <$> [178999; 179000; 188999; 189000] = [89; 90; 94; 95].
Proof.
  intros [H10 H5]. split; [|vm_compute; reflexivity]. unfold checkWarnings. rewrite H10, H5. cbn [negb].
  rewrite !andb_true_r. unfold remainingPct. rewrite usedPct_closed_form.
  destruct (189000 <=? tokens t) eqn:E1.
  - apply Z.leb_le in E1.
    assert (95 <= (tokens t + 1000) / 2000) by (apply Z.div_le_lower_bound; lia).
    replace (100 - Z.min 100 ((tokens t + 1000) / 2000) <=? 5) with true
      by (symmetry; apply Z.leb_le; lia).
    reflexivity.
  - apply Z.leb_gt in E1.
    assert ((tokens t + 1000) / 2000 < 95) by (apply Z.div_lt_upper_bound; lia).
    replace (100 - Z.min 100 ((tokens t + 1000) / 2000) <=? 5) with false
      by (symmetry; apply Z.leb_gt; lia).
    destruct (179000 <=? tokens t) eqn:E2.
    + apply Z.leb_le in E2.
      assert (90 <= (tokens t + 1000) / 2000) by (apply Z.div_le_lower_bound; lia).
      replace (100 - Z.min 100 ((tokens t + 1000) / 2000) <=? 10) with true
        by (symmetry; apply Z.leb_le; lia).
      reflexivity.
    + apply Z.leb_gt in E2.
      assert ((tokens t + 1000) / 2000 < 90) by (apply Z.div_lt_upper_bound; lia).
      replace (100 - Z.min 100 ((tokens t + 1000) / 2000) <=? 10) with false
        by (symmetry; apply Z.leb_gt; lia).
      reflexivity.
Qed.

Lemma warning_thresholds_in_tokens_witness :
  fst (checkWarnings (setTokens 180000 fresh)) = Some (CompactionApproaching 90 10) /\
  Binary64.usedPct <$> [178999; 179000; 188999; 189000] = [89; 90; 94; 95].
Proof.
  apply (warning_thresholds_in_tokens (setTokens 180000 fresh)).
  split; reflexivity.
Defined.

(** X14.  On a percentage between 0 and 100, given or taken from a tracker
    whose token count is not negative, [progressBar] does not throw, and
    the bar it draws has ten cells between its brackets, of which the
    nearest tenth of the percentage is filled. *)
Theorem progress_bar_has_ten_cells (pct : option Z) (t : ContextTracker) :
  0 <= tokens t ->
  (forall p, pct = Some p -> 0 <= p <= 100) ->
  let p := match pct with Some p => p | None => usedPct t end in
  progressBar pct t = Some (bar ((p + 5) / 10)) /\ len (bar ((p + 5) / 10)) = 12.
Proof.
  intros Ht Hpct p. unfold progressBar. fold p. apply bar_drawn.
  subst p. destruct pct as [q|]; [apply Hpct; reflexivity | apply usedPct_range, Ht].
Qed.

Lemma progress_bar_has_ten_cells_witness :
  progressBar None fresh = Some (bar 1) /\ len (bar 1) = 12.
Proof.
  apply (progress_bar_has_ten_cells None fresh).
  - change (0 <= 18000). lia.
  - intros p H. discriminate H.
Defined.

End Gauge.

(** ** What a pass of the session sync stores *)

Module Archive.
Import Js Decoder.

Section Runtime.

Context {Number : Type}.
Variable number_falsy : Number -> bool.
Variable JSON_parse : jsstring -> option (@Json Number).
Variable ToString : @Json Number -> jsstring.
Variable now_iso : jsstring.
Variable redactSecrets : jsstring -> jsstring.
Variable processMemoryIntents : jsstring -> jsstring.

Local Abbreviation decoded := (Decoder.decoded number_falsy JSON_parse ToString now_iso).
Local Abbreviation onMessage := (Decoder.onMessage redactSecrets processMemoryIntents).
Local Abbreviation flushAssistant :=
  (Decoder.flushAssistant redactSecrets processMemoryIntents).
Local Abbreviation syncFile :=
  (Decoder.syncFile number_falsy JSON_parse ToString now_iso
     redactSecrets processMemoryIntents).

(** The messages a pass decodes: those of the lines from [lastLine] on. *)
Definition messages (lines : list jsstring) (lastLine : nat)
  : list (@ParsedMessage Number) :=
  omap decoded (drop lastLine lines).

(** The state of a pass after its loop and the final [flushAssistant]. *)
Definition pass (ps : list (@ParsedMessage Number)) : @Sync Number :=
  flushAssistant (fold_left onMessage ps fresh_sync).

Definition is_user (p : @ParsedMessage Number) : bool :=
  match type p with user_text => true | assistant_text => false end.

(** The user texts among what was stored. *)
Definition user_texts (stored : list Saved) : list jsstring :=
  omap (fun s => match s with SavedUser t => Some t | SavedAssistant _ => None end)
       stored.

(** The assistant text as it is stored. *)
Definition archived (text : jsstring) : Saved :=
  SavedAssistant (processMemoryIntents (redactSecrets text)).

(** Assistant messages only, none shorter than the one before it, the first
    no shorter than [n] code units. *)
Fixpoint growing (n : Z) (ps : list (@ParsedMessage Number)) : Prop :=
  match ps with
  | [] => True
  | p :: rest =>
      type p = assistant_text /\ n <= len (text p) /\ growing (len (text p)) rest
  end.

(** The text of the last message, [cur] when there is none. *)
Fixpoint final_text (cur : jsstring) (ps : list (@ParsedMessage Number)) : jsstring :=
  match ps with
  | [] => cur
  | p :: rest => final_text (text p) rest
  end.

(** *** Facts *)

Lemma syncFile_pass (lines : list jsstring) (lastLine : nat) :
  (lastLine < length lines)%nat ->
  syncFile lines lastLine =
  Normal (synced (pass (messages lines lastLine)),
          saved (pass (messages lines lastLine)), length lines).
Proof.
  intros H. unfold Decoder.syncFile.
  rewrite bool_decide_eq_false_2 by lia.
  rewrite syncLoop_fold. reflexivity.
Qed.

Lemma syncFile_nothing_new (lines : list jsstring) (lastLine : nat) :
  (length lines <= lastLine)%nat ->
  syncFile lines lastLine = Normal (0, [], lastLine).
Proof.
  intros H. unfold Decoder.syncFile. rewrite bool_decide_eq_true_2 by lia.
  reflexivity.
Qed.

Lemma messages_nothing_new (lines : list jsstring) (lastLine : nat) :
  (length lines <= lastLine)%nat -> messages lines lastLine = [].
Proof. intros H. unfold messages. rewrite drop_ge by lia. reflexivity. Qed.

Definition counted (st : @Sync Number) : Prop :=
  synced st = Z.of_nat (length (saved st)).

Lemma flushAssistant_counted (st : @Sync Number) :
  counted st -> counted (flushAssistant st).
Proof.
  unfold counted, Decoder.flushAssistant. intros H.
  destruct (truthy (lastAssistantText st)); cbn [negb synced saved]; [|exact H].
  rewrite length_app. cbn [length]. lia.
Qed.

Lemma onMessage_counted (st : @Sync Number) (p : ParsedMessage) :
  counted st -> counted (onMessage st p).
Proof.
  intros H. unfold Decoder.onMessage. destruct (type p).
  - apply flushAssistant_counted in H. unfold counted in *. cbn [synced saved].
    rewrite length_app. cbn [length]. lia.
  - destruct (len (lastAssistantText st) <=? len (text p)).
    + exact H.
    + apply flushAssistant_counted in H. exact H.
Qed.

Lemma fold_counted (ps : list ParsedMessage) : forall st : @Sync Number,
  counted st -> counted (fold_left onMessage ps st).
Proof.
  induction ps as [|p ps IH]; intros st H; [exact H|].
  cbn [fold_left]. apply IH, onMessage_counted, H.
Qed.

Lemma user_texts_app (a b : list Saved) :
  user_texts (a ++ b) = user_texts a ++ user_texts b.
Proof. unfold user_texts. apply omap_app. Qed.

Lemma flushAssistant_users (st : @Sync Number) :
  user_texts (saved (flushAssistant st)) = user_texts (saved st).
Proof.
  unfold Decoder.flushAssistant.
  destruct (truthy (lastAssistantText st)); cbn [negb saved]; [|reflexivity].
  rewrite user_texts_app. cbn. apply app_nil_r.
Qed.

Lemma onMessage_users (st : @Sync Number) (p : ParsedMessage) :
  user_texts (saved (onMessage st p)) =
  user_texts (saved st) ++ (if is_user p then [redactSecrets (text p)] else []).
Proof.
  unfold Decoder.onMessage, is_user. destruct (type p).
  - cbn [saved]. rewrite user_texts_app, flushAssistant_users. reflexivity.
  - rewrite app_nil_r.
    destruct (len (lastAssistantText st) <=? len (text p)); cbn [buffer saved];
      [reflexivity | apply flushAssistant_users].
Qed.

Lemma fold_users (ps : list ParsedMessage) : forall st : @Sync Number,
  user_texts (saved (fold_left onMessage ps st)) =
  user_texts (saved st) ++
  ((fun p => redactSecrets (text p)) <$> filter (fun p => is_user p = true) ps).
Proof.
  induction ps as [|p ps IH]; intros st.
  - cbn. rewrite app_nil_r. reflexivity.
  - cbn [fold_left]. rewrite IH, onMessage_users, filter_cons.
    destruct (is_user p) eqn:E.
    + rewrite decide_True by reflexivity. rewrite <- app_assoc. reflexivity.
    + rewrite decide_False by discriminate. rewrite app_nil_r. reflexivity.
Qed.

Lemma pass_users (ps : list ParsedMessage) :
  user_texts (saved (pass ps)) =
  (fun p => redactSecrets (text p)) <$> filter (fun p => is_user p = true) ps.
Proof. unfold pass. rewrite flushAssistant_users, fold_users. reflexivity. Qed.

Lemma fold_growing (ps : list ParsedMessage) : forall st : @Sync Number,
  growing (len (lastAssistantText st)) ps ->
  saved (fold_left onMessage ps st) = saved st /\
  synced (fold_left onMessage ps st) = synced st /\
  lastAssistantText (fold_left onMessage ps st) = final_text (lastAssistantText st) ps.
Proof.
  induction ps as [|p ps IH]; intros st H; [repeat split|].
  cbn [growing] in H. destruct H as (Hty & Hlen & Hrest).
  cbn [fold_left final_text].
  assert (Hstep : onMessage st p = buffer p st).
  { unfold Decoder.onMessage. rewrite Hty.
    replace (len (lastAssistantText st) <=? len (text p)) with true
      by (symmetry; apply Z.leb_le; exact Hlen).
    reflexivity. }
  rewrite Hstep. apply (IH (buffer p st)). exact Hrest.
Qed.

Lemma pass_growing (ps : list ParsedMessage) :
  growing 0 ps ->
  truthy (final_text [] ps) = true ->
  synced (pass ps) = 1 /\ saved (pass ps) = [archived (final_text [] ps)].
Proof.
  intros Hg Ht. unfold pass.
  destruct (fold_growing ps fresh_sync Hg) as (Hsaved & Hsynced & Hlast).
  unfold Decoder.flushAssistant. rewrite Hlast. cbn [fresh_sync lastAssistantText].
  rewrite Ht. cbn [negb synced saved]. rewrite Hsaved, Hsynced. split; reflexivity.
Qed.

Lemma messages_nonempty (lines : list jsstring) (lastLine : nat) :
  messages lines lastLine <> [] -> (lastLine < length lines)%nat.
Proof.
  intros H. destruct (decide (lastLine < length lines)%nat) as [Hlt | Hge]; [exact Hlt|].
  exfalso. apply H, messages_nothing_new. lia.
Qed.

(** *** Properties of a pass *)

(** X15.  [syncFile] returns, and the number it returns is the number of
    messages it stored. *)
Theorem returned_count_is_number_stored (lines : list jsstring) (lastLine : nat) :
  exists (count : Z) (stored : list Saved) (next : nat),
    syncFile lines lastLine = Normal (count, stored, next) /\
    count = Z.of_nat (length stored).
Proof.
  destruct (decide (lastLine < length lines)%nat) as [Hlt | Hge].
  - rewrite syncFile_pass by exact Hlt. do 3 eexists. split; [reflexivity|].
    apply flushAssistant_counted, fold_counted. reflexivity.
  - rewrite syncFile_nothing_new by lia. do 3 eexists. split; reflexivity.
Qed.

(** X16.  Every user message decoded from the new lines is stored exactly
    once, redacted, and in the order of the lines. *)
Theorem user_messages_stored_once_in_order (lines : list jsstring) (lastLine : nat) :
  exists (count : Z) (stored : list Saved) (next : nat),
    syncFile lines lastLine = Normal (count, stored, next) /\
    user_texts stored =
    (fun p => redactSecrets (text p)) <$>
      filter (fun p => is_user p = true) (messages lines lastLine).
Proof.
  destruct (decide (lastLine < length lines)%nat) as [Hlt | Hge].
  - rewrite syncFile_pass by exact Hlt. do 3 eexists. split; [reflexivity|].
    apply pass_users.
  - rewrite syncFile_nothing_new, messages_nothing_new by lia.
    do 3 eexists. split; reflexivity.
Qed.

(** X17.  Syncing a file, and syncing it again from the recorded line after
    lines were appended, stores the same user texts as one pass over the
    grown file. *)
Theorem two_passes_store_the_users_of_one
  (lines more : list jsstring)
  (n1 n2 n : Z) (s1 s2 s : list Saved) (l1 l2 l : nat) :
  syncFile lines 0 = Normal (n1, s1, l1) ->
  syncFile (lines ++ more) l1 = Normal (n2, s2, l2) ->
  syncFile (lines ++ more) 0 = Normal (n, s, l) ->
  user_texts s = user_texts s1 ++ user_texts s2.
Proof.
  intros H1 H2 H.
  assert (Hone : forall ls k c st nx, syncFile ls k = Normal (c, st, nx) ->
            user_texts st =
            (fun p => redactSecrets (text p)) <$>
              filter (fun p => is_user p = true) (messages ls k) /\
            (nx = if decide (k < length ls)%nat then length ls else k)).
  { intros ls k c st nx Hrun.
    destruct (decide (k < length ls)%nat) as [Hlt | Hge].
    - rewrite syncFile_pass in Hrun by exact Hlt. injection Hrun as _ <- <-.
      split; [apply pass_users | reflexivity].
    - rewrite syncFile_nothing_new in Hrun by lia. injection Hrun as _ <- <-.
      rewrite messages_nothing_new by lia. split; reflexivity. }
  destruct (Hone _ _ _ _ _ H1) as [U1 L1].
  destruct (Hone _ _ _ _ _ H2) as [U2 _].
  destruct (Hone _ _ _ _ _ H) as [U _].
  assert (Hl1 : l1 = length lines).
  { rewrite L1. destruct (decide (0 < length lines)%nat); lia. }
  rewrite U, U1, U2, Hl1. unfold messages.
  rewrite drop_0, drop_app_length, drop_0, omap_app, filter_app, fmap_app.
  reflexivity.
Qed.

(** X18.  A turn that streams in as assistant messages, none shorter than
    the one before it, is stored once, with the text of its last message. *)
Theorem streamed_turn_is_stored_once (lines : list jsstring) :
  growing 0 (messages lines 0) ->
  truthy (final_text [] (messages lines 0)) = true ->
  syncFile lines 0 =
  Normal (1, [archived (final_text [] (messages lines 0))], length lines).
Proof.
  intros Hg Ht.
  assert (Hne : messages lines 0 <> []).
  { intros Hnil. rewrite Hnil in Ht. discriminate Ht. }
  rewrite syncFile_pass by (apply messages_nonempty, Hne).
  destruct (pass_growing _ Hg Ht) as [-> ->]. reflexivity.
Qed.

(** X19.  The streaming updates of a turn are merged within a pass only:
    when a pass ends between two updates of a turn, the turn is stored by
    both passes, first with the shorter text and then with the longer,
    where one pass over the same lines stores the longer text alone. *)
Theorem turn_split_between_passes_is_stored_twice
  (lines more : list jsstring) (a b : @ParsedMessage Number) :
  messages lines 0 = [a] ->
  omap decoded more = [b] ->
  type a = assistant_text ->
  type b = assistant_text ->
  truthy (text a) = true ->
  len (text a) <= len (text b) ->
  syncFile lines 0 = Normal (1, [archived (text a)], length lines) /\
  syncFile (lines ++ more) (length lines) =
    Normal (1, [archived (text b)], length (lines ++ more)) /\
  syncFile (lines ++ more) 0 =
    Normal (1, [archived (text b)], length (lines ++ more)).
Proof.
  intros Ha Hb Hta Htb Htruthy Hlen.
  pose proof (len_nonneg (text a)) as Hpos.
  assert (Htruthy_b : truthy (text b) = true).
  { apply Relay.truthy_len. apply Relay.truthy_len in Htruthy. lia. }
  assert (Hsecond : messages (lines ++ more) (length lines) = [b]).
  { unfold messages. rewrite drop_app_length. exact Hb. }
  assert (Hboth : messages (lines ++ more) 0 = [a; b]).
  { unfold messages in *. rewrite drop_0 in *. rewrite omap_app, Ha, Hb. reflexivity. }
  split; [|split].
  - rewrite syncFile_pass by (apply messages_nonempty; rewrite Ha; discriminate).
    rewrite Ha.
    destruct (pass_growing [a]) as [-> ->]; cbn [growing final_text]; auto.
  - rewrite syncFile_pass by (apply messages_nonempty; rewrite Hsecond; discriminate).
    rewrite Hsecond.
    destruct (pass_growing [b]) as [-> ->]; cbn [growing final_text]; auto.
    split; [exact Htb | split; [lia | exact I]].
  - rewrite syncFile_pass by (apply messages_nonempty; rewrite Hboth; discriminate).
    rewrite Hboth.
    destruct (pass_growing [a; b]) as [-> ->]; cbn [growing final_text]; auto.
Qed.

End Runtime.

(** A runtime to run a pass on: a line [a<text>] stands for the JSON of an
    assistant message with one text block, a line [u<text>] for that of a
    user message, and no other line parses. *)
Definition assistant_line (t : jsstring) : @Json Z :=
  JObject [(str "type", JString (str "assistant"));
           (str "message",
            JObject [(str "role", JString (str "assistant"));
                     (str "content",
                      JArray [JObject [(str "type", JString (str "text"));
                                       (str "text", JString t)]])])].

Definition user_line (t : jsstring) : @Json Z :=
  JObject [(str "type", JString (str "user"));
           (str "message",
            JObject [(str "role", JString (str "user"));
                     (str "content", JString t)])].

Definition parse_tagged (line : jsstring) : option (@Json Z) :=
  match line with
  | c :: t =>
      if (c =? 97)%N then Some (assistant_line t)
      else if (c =? 117)%N then Some (user_line t)
      else None
  | [] => None
  end.

Lemma two_passes_store_the_users_of_one_witness :
  user_texts [SavedUser (str "hi"); SavedAssistant (str "hello"); SavedUser (str "bye")] =
  user_texts [SavedUser (str "hi"); SavedAssistant (str "hello")] ++
  user_texts [SavedUser (str "bye")].
Proof.
  apply (two_passes_store_the_users_of_one (Z.eqb 0) parse_tagged (fun _ => []) []
           (fun s => s) (fun s => s)
           [str "uhi"; str "ahel"; str "ahello"] [str "ubye"]
           2 1 3 _ _ _ 3%nat 4%nat 4%nat); vm_compute; reflexivity.
Defined.

Lemma streamed_turn_is_stored_once_witness :
  syncFile (Z.eqb 0) parse_tagged (fun _ => []) [] (fun s => s) (fun s => s)
    [str "ahel"; str "{"; str "ahello"; str "ahello."] 0 =
  Normal (1, [SavedAssistant (str "hello.")], 4%nat).
Proof.
  apply (streamed_turn_is_stored_once (Z.eqb 0) parse_tagged (fun _ => []) []
           (fun s => s) (fun s => s) [str "ahel"; str "{"; str "ahello"; str "ahello."]).
  - vm_compute. repeat split; discriminate.
  - reflexivity.
Defined.

Lemma turn_split_between_passes_is_stored_twice_witness :
  syncFile (Z.eqb 0) parse_tagged (fun _ => []) [] (fun s => s) (fun s => s)
    [str "ahel"] 0 = Normal (1, [SavedAssistant (str "hel")], 1%nat) /\
  syncFile (Z.eqb 0) parse_tagged (fun _ => []) [] (fun s => s) (fun s => s)
    ([str "ahel"] ++ [str "ahello"]) 1 =
    Normal (1, [SavedAssistant (str "hello")], 2%nat) /\
  syncFile (Z.eqb 0) parse_tagged (fun _ => []) [] (fun s => s) (fun s => s)
    ([str "ahel"] ++ [str "ahello"]) 0 =
    Normal (1, [SavedAssistant (str "hello")], 2%nat).
Proof.
  apply (turn_split_between_passes_is_stored_twice (Z.eqb 0) parse_tagged (fun _ => []) []
           (fun s => s) (fun s => s) [str "ahel"] [str "ahello"]
           {| type := assistant_text; text := str "hel";
              timestamp := JString []; sessionId := JString [] |}
           {| type := assistant_text; text := str "hello";
              timestamp := JString []; sessionId := JString [] |});
    try reflexivity.
  vm_compute. discriminate.
Defined.

End Archive.

(** ** From the stream to the chat: the flush scheduler with [sendResponse] *)

Module Delivery.
Import Js Relay.

Definition text_of (e : Emission) : jsstring :=
  match e with
  | Chunk _ _ _ text => text
  | Tail _ _ _ text => text
  | ResultText text => text
  end.

(** The emission is a piece of turn [k]. *)
Definition of_turn (k : nat) (e : Emission) : bool :=
  match e with
  | Chunk turn _ _ _ => bool_decide (turn = k)
  | Tail turn _ _ _ => bool_decide (turn = k)
  | ResultText _ => false
  end.

(** The text messages the chat receives for a delivery log: the replies of
    [sendResponse] on each emission, in order. *)
Fixpoint telegram (log : list Emission) : option (list jsstring) :=
  match log with
  | [] => Some []
  | e :: rest =>
      match Send.sendResponse (text_of e), telegram rest with
      | Some replies, Some later => Some (replies ++ later)
      | _, _ => None
      end
  end.

(** A turn streaming in: every assistant text begins with the text before
    it, and no result has come yet. *)
Fixpoint extends (cur : jsstring) (ms : list Msg) : Prop :=
  match ms with
  | [] => True
  | Assistant text _ :: rest => cur `prefix_of` text /\ extends text rest
  | Other :: rest => extends cur rest
  | Result _ :: _ => False
  end.

(** The text of the last assistant message, [cur] when there is none. *)
Fixpoint last_text (cur : jsstring) (ms : list Msg) : jsstring :=
  match ms with
  | [] => cur
  | Assistant text _ :: rest => last_text text rest
  | _ :: rest => last_text cur rest
  end.

(** The result string of a result message does not begin with a line feed
    or a space. *)
Definition clean_result (m : Msg) : bool :=
  match m with
  | Result result => Send.starts_clean result
  | _ => true
  end.

(** An emission [sendResponse] splits without an empty reply. *)
Definition sendable (e : Emission) : Prop :=
  truthy (text_of e) = true /\ Send.starts_clean (text_of e) = true.

(** The state of a turn that streams in: no turn archived, and what was
    delivered is, white space apart, the text up to the offset. *)
Definition streaming (s : Stream) : Prop :=
  allResponses s = [] /\
  offset_ok s /\
  Send.ink (concat (text_of <$> delivered s)) =
  Send.ink (take (Z.to_nat (currentTurnSent s)) (currentTurnText s)).

(** The texts of the assistant messages of a stream, and its result
    strings. *)
Definition texts (ms : list Msg) : list jsstring :=
  omap (fun m => match m with Assistant text _ => Some text | _ => None end) ms.

Definition result_strings (ms : list Msg) : list jsstring :=
  omap (fun m => match m with Result result => Some result | _ => None end) ms.

(** The text of a piece is what its offsets name in [src], trimmed: the
    [cut] code units from [from] on for a chunk, all from [from] on for the
    tail. *)
Definition cut_out (src : jsstring) (e : Emission) : Prop :=
  match e with
  | Chunk _ from cut text => text = trim (slice (slice_from src from) 0 cut)
  | Tail _ from cut text => text = trim (slice_from src from) /\ from + cut = len src
  | ResultText _ => False
  end.

(** What a message may add to the log, read in the state [s] it leaves: a
    chunk of the current turn, cut out of the current text and ending at the
    offset; the tail of the current text from the offset on; or a result
    string. *)
Definition emitted_in (s : Stream) (e : Emission) : Prop :=
  match e with
  | Chunk turn from cut _ =>
      turn = length (allResponses s) /\ from + cut = currentTurnSent s /\
      cut_out (currentTurnText s) e
  | Tail _ from _ _ => from = currentTurnSent s /\ cut_out (currentTurnText s) e
  | ResultText _ => True
  end.

(** The emission has its text from the stream [ms]: cut out of one of its
    assistant texts, or one of its result strings. *)
Definition sourced (ms : list Msg) (e : Emission) : Prop :=
  (exists src, src ∈ texts ms /\ cut_out src e) \/
  (exists result, result ∈ result_strings ms /\ e = ResultText result).

(** The texts of the pieces delivered for turn [k]. *)
Definition turn_pieces (k : nat) (log : list Emission) : list jsstring :=
  text_of <$> filter (fun e => of_turn k e = true) log.

(** The emission is no piece of a turn after turn [k]. *)
Definition up_to_turn (k : nat) (e : Emission) : Prop :=
  match e with
  | Chunk turn _ _ _ => (turn <= k)%nat
  | Tail turn _ _ _ => (turn <= k)%nat
  | ResultText _ => True
  end.

(** Every assistant text opens a new turn or extends the text of the
    current one, and no result has come yet. *)
Fixpoint orderly (cur : jsstring) (ms : list Msg) : Prop :=
  match ms with
  | [] => True
  | Assistant text _ :: rest =>
      (truthy text = true -> isNewTurn text cur = true \/ cur `prefix_of` text) /\
      orderly (if truthy text then text else cur) rest
  | Other :: rest => orderly cur rest
  | Result _ :: _ => False
  end.

(** What was delivered of the current turn is, white space apart, its text
    up to the offset, and no piece belongs to a later turn. *)
Definition tracked (s : Stream) : Prop :=
  offset_ok s /\
  Forall (up_to_turn (length (allResponses s))) (delivered s) /\
  Send.ink (concat (turn_pieces (length (allResponses s)) (delivered s))) =
  Send.ink (take (Z.to_nat (currentTurnSent s)) (currentTurnText s)).

(** Nothing was delivered yet, or the current turn has text. *)
Definition voiced (s : Stream) : Prop :=
  delivered s = [] \/ truthy (currentTurnText s) = true.

(** The emission is a piece of a turn, not a result string. *)
Definition is_piece (e : Emission) : bool :=
  match e with ResultText _ => false | _ => true end.

(** Two turns, the first in two updates, and their result. *)
Definition two_turns : list Msg :=
  [Assistant partial_answer 1000; Other; Assistant longer_answer 2000;
   Assistant (str "Done.") 2500].

(** A turn in two updates and its result, and a stream in which a second
    turn opens before the first was sent. *)
Definition greeting : list Msg :=
  [Assistant (str "Hello") 1000; Other; Assistant (str "Hello, world.") 5000].

Definition interrupted : Stream :=
  run (start 0) [Assistant (str "Hello, world.") 1000].

(** *** Facts *)

Lemma slice_from_drop (u : jsstring) (k : Z) :
  0 <= k <= len u -> slice_from u k = drop (Z.to_nat k) u.
Proof.
  intros Hk. unfold slice_from, slice, clamp.
  replace (k <? 0) with false by (symmetry; apply Z.ltb_ge; lia).
  replace (len u <? 0) with false by (symmetry; apply Z.ltb_ge; apply len_nonneg).
  rewrite Z.min_id, (Z.min_l k) by lia.
  apply take_ge. unfold len in *. rewrite length_drop. lia.
Qed.

Lemma slice_take (u : jsstring) (k : Z) :
  0 <= k <= len u -> slice u 0 k = take (Z.to_nat k) u.
Proof.
  intros Hk. unfold slice, clamp.
  replace (0 <? 0) with false by reflexivity.
  replace (k <? 0) with false by (symmetry; apply Z.ltb_ge; lia).
  rewrite (Z.min_l 0), (Z.min_l k), Z.sub_0_r by lia.
  change (Z.to_nat 0) with 0%nat. rewrite drop_0. reflexivity.
Qed.

Lemma ink_nil_of_falsy (u : jsstring) : truthy u = false -> Send.ink u = [].
Proof. destruct u; [reflexivity | discriminate]. Qed.

Lemma telegram_app (a b : list Emission) :
  telegram (a ++ b) =
  match telegram a, telegram b with
  | Some x, Some y => Some (x ++ y)
  | _, _ => None
  end.
Proof.
  induction a as [|e a IH]; cbn [app telegram].
  - destruct (telegram b); reflexivity.
  - rewrite IH. destruct (Send.sendResponse (text_of e)); [|reflexivity].
    destruct (telegram a); [|reflexivity].
    destruct (telegram b); [|reflexivity].
    rewrite app_assoc. reflexivity.
Qed.

(** What the chat receives for a log: replies within the limit, with the
    ink of the log, and none empty when every emission is sendable. *)
Lemma telegram_spec (log : list Emission) :
  exists replies,
    telegram log = Some replies /\
    Forall (fun r => len r <= Send.MAX_LENGTH) replies /\
    Send.ink (concat replies) = Send.ink (concat (text_of <$> log)) /\
    (Forall sendable log -> Forall (fun r => truthy r = true) replies).
Proof.
  induction log as [|e log (later & Hrun & Hfit & Hink & Hfull)].
  - exists []. repeat split; constructor.
  - destruct (Send.sendResponse_spec (text_of e)) as (rs & Hrs & Hfit1 & Hink1 & Hfull1).
    exists (rs ++ later). cbn [telegram]. rewrite Hrs, Hrun.
    split; [reflexivity|]. split; [apply Forall_app; split; assumption|].
    split.
    + rewrite concat_app, fmap_cons. cbn [concat].
      rewrite !Send.ink_app, Hink1, Hink. reflexivity.
    + intros Hall. apply Forall_cons in Hall as [[Ht Hc] Hall].
      apply Forall_app. split; [apply Hfull1; assumption | apply Hfull, Hall].
Qed.

Lemma flush_sendable (now : Z) (s : Stream) :
  Forall sendable (delivered s) -> Forall sendable (delivered (flush now s)).
Proof.
  intros H. unfold flush.
  destruct (triggered _ _ _); [|exact H].
  destruct (truthy _) eqn:Ht; [|exact H]. cbn [delivered].
  apply Forall_app. split; [exact H|]. constructor; [|constructor].
  split; [exact Ht | apply Send.clean_after_trim].
Qed.

Lemma segment_delivered (text : jsstring) (s : Stream) :
  delivered (segment text s) = delivered s.
Proof. unfold segment. destruct (isNewTurn _ _); reflexivity. Qed.

Lemma step_sendable (s : Stream) (m : Msg) :
  clean_result m = true ->
  Forall sendable (delivered s) -> Forall sendable (delivered (step s m)).
Proof.
  intros Hm H. destruct m as [text now | result |]; cbn [step]; [| |exact H].
  - destruct (truthy text); [|exact H].
    apply flush_sendable. rewrite segment_delivered. exact H.
  - unfold onResult. cbn [delivered].
    set (remaining := trim (slice_from (currentTurnText s) (currentTurnSent s))).
    assert (Hlog1 : Forall sendable
              (if truthy remaining
               then delivered s ++
                    [Tail (length (allResponses s)) (currentTurnSent s)
                          (len (currentTurnText s) - currentTurnSent s) remaining]
               else delivered s)).
    { destruct (truthy remaining) eqn:Ht; [|exact H].
      apply Forall_app. split; [exact H|]. constructor; [|constructor].
      split; [exact Ht | apply Send.clean_after_trim]. }
    destruct (negb _ && truthy result) eqn:Hf; [|exact Hlog1].
    apply andb_true_iff in Hf as [_ Hr].
    apply Forall_app. split; [exact Hlog1|]. constructor; [|constructor].
    split; [exact Hr | exact Hm].
Qed.

Lemma run_sendable (ms : list Msg) : forall s,
  forallb clean_result ms = true ->
  Forall sendable (delivered s) -> Forall sendable (delivered (run s ms)).
Proof.
  induction ms as [|m ms IH]; intros s Hms H; [exact H|].
  cbn [forallb] in Hms. apply andb_true_iff in Hms as [Hm Hms].
  apply (IH (step s m) Hms), step_sendable; assumption.
Qed.

Lemma flush_streaming (now : Z) (s : Stream) :
  streaming s -> streaming (flush now s).
Proof.
  intros (Hall & Hoff & Hink).
  pose proof (flush_offset_ok now s Hoff) as Hoff'.
  revert Hoff'. unfold flush. rewrite (slice_from_drop _ _ Hoff).
  set (unsent := drop (Z.to_nat (currentTurnSent s)) (currentTurnText s)).
  destruct (triggered _ _ _); [|intros _; exact (conj Hall (conj Hoff Hink))].
  destruct (truthy _) eqn:Ht; [|intros _; exact (conj Hall (conj Hoff Hink))].
  intros Hoff'. split; [exact Hall|]. split; [exact Hoff'|].
  pose proof (flushEnd_bounds unsent) as Hb.
  cbn [currentTurnSent currentTurnText delivered].
  rewrite fmap_app, concat_app, Send.ink_app, Hink. cbn [fmap list_fmap concat text_of].
  rewrite app_nil_r, Send.ink_trim, slice_take by lia.
  unfold offset_ok in Hoff.
  rewrite <- Send.ink_app. subst unsent. rewrite take_take_drop.
  rewrite Z2Nat.inj_add by lia. reflexivity.
Qed.

Lemma step_streaming (s : Stream) (text : jsstring) (now : Z) :
  currentTurnText s `prefix_of` text ->
  streaming s ->
  streaming (step s (Assistant text now)) /\
  currentTurnText (step s (Assistant text now)) = text.
Proof.
  intros [k Hk] (Hall & Hoff & Hink). cbn [step].
  destruct (truthy text) eqn:Ht.
  2:{ destruct text; [|discriminate]. symmetry in Hk.
      apply app_eq_nil in Hk as [Hcur _].
      split; [exact (conj Hall (conj Hoff Hink)) | exact Hcur]. }
  assert (Hnew : isNewTurn text (currentTurnText s) = false).
  { destruct (isNewTurn text (currentTurnText s)) eqn:E; [|reflexivity].
    apply isNewTurn_shorter in E. rewrite Hk in E. unfold len in E.
    rewrite length_app in E. lia. }
  split.
  - apply flush_streaming. unfold streaming, segment. rewrite Hnew.
    cbn [allResponses currentTurnText currentTurnSent delivered].
    split; [exact Hall|]. unfold offset_ok in *.
    cbn [currentTurnText currentTurnSent].
    split.
    + rewrite Hk. unfold len in *. rewrite length_app. lia.
    + rewrite Hink, Hk, take_app_le; [reflexivity|]. unfold len in Hoff. lia.
  - destruct (flush_text_state now (segment text s)) as [_ ->].
    unfold segment. destruct (isNewTurn _ _); reflexivity.
Qed.

Lemma run_streaming (ms : list Msg) : forall s,
  extends (currentTurnText s) ms ->
  streaming s ->
  streaming (run s ms) /\
  currentTurnText (run s ms) = last_text (currentTurnText s) ms.
Proof.
  induction ms as [|m ms IH]; intros s He Hs; [split; [exact Hs | reflexivity]|].
  destruct m as [text now | result |]; cbn [extends] in He; [| contradiction |].
  - destruct He as [Hp He].
    destruct (step_streaming s text now Hp Hs) as [Hs' Hcur].
    cbn [run fold_left last_text].
    change (fold_left step ms (step s (Assistant text now)))
      with (run (step s (Assistant text now)) ms).
    rewrite <- Hcur in He. destruct (IH _ He Hs') as [H1 H2].
    split; [exact H1|]. rewrite H2, Hcur. reflexivity.
  - cbn [run fold_left last_text step]. apply (IH s He Hs).
Qed.

Lemma onResult_streaming (result : jsstring) (s : Stream) :
  streaming s ->
  truthy (currentTurnText s) = true ->
  Send.ink (concat (text_of <$> delivered (onResult result s))) =
  Send.ink (currentTurnText s).
Proof.
  intros (Hall & Hoff & Hink) Ht. unfold onResult. cbn [delivered].
  rewrite Hall, Ht. cbn [app join].
  rewrite Ht. cbn [negb andb].
  rewrite slice_from_drop by exact Hoff.
  set (remaining := trim (drop (Z.to_nat (currentTurnSent s)) (currentTurnText s))).
  assert (Hrem : Send.ink remaining =
                 Send.ink (drop (Z.to_nat (currentTurnSent s)) (currentTurnText s)))
    by apply Send.ink_trim.
  destruct (truthy remaining) eqn:Hr.
  - rewrite fmap_app, concat_app, Send.ink_app, Hink. cbn [fmap list_fmap concat text_of].
    rewrite app_nil_r, Hrem, <- Send.ink_app, take_drop. reflexivity.
  - rewrite Hink. rewrite (ink_nil_of_falsy _ Hr) in Hrem.
    rewrite <- (take_drop (Z.to_nat (currentTurnSent s)) (currentTurnText s)) at 2.
    rewrite Send.ink_app, <- Hrem, app_nil_r. reflexivity.
Qed.

Lemma step_turns (s : Stream) (m : Msg) :
  (length (allResponses s) <= length (allResponses (step s m)))%nat /\
  exists new,
    delivered (step s m) = delivered s ++ new /\
    forall k, (k < length (allResponses s))%nat -> filter (fun e => of_turn k e = true) new = [].
Proof.
  destruct m as [text now | result |]; cbn [step].
  - destruct (truthy text) eqn:Ht.
    2:{ split; [lia|]. exists []. rewrite app_nil_r. split; reflexivity. }
    pose proof (flush_text_state now (segment text s)) as [Hall _].
    assert (Hseg : (length (allResponses s) <= length (allResponses (segment text s)))%nat).
    { unfold segment. destruct (isNewTurn _ _); cbn [allResponses]; [|lia].
      destruct (truthy (currentTurnText s)); [rewrite length_app|]; lia. }
    split; [rewrite Hall; exact Hseg|].
    unfold flush. destruct (triggered _ _ _).
    2:{ exists []. rewrite app_nil_r, segment_delivered. split; reflexivity. }
    destruct (truthy (trim _)).
    2:{ exists []. rewrite app_nil_r, segment_delivered. split; reflexivity. }
    cbn [delivered]. rewrite segment_delivered. eexists. split; [reflexivity|].
    intros k Hk. rewrite filter_cons. cbn [of_turn].
    rewrite decide_False; [reflexivity|].
    intros H. apply bool_decide_eq_true in H. lia.
  - unfold onResult. cbn [allResponses delivered]. split.
    + destruct (negb _ && _); destruct (truthy (currentTurnText s));
        rewrite ?length_app; lia.
    + set (remaining := trim _).
      destruct (truthy remaining); destruct (negb _ && _);
        rewrite <- ?app_assoc; eexists; (split; [try reflexivity|]).
      * intros k Hk. cbn [app]. rewrite !filter_cons. cbn [of_turn].
        rewrite decide_False; [rewrite decide_False; [reflexivity | discriminate]|].
        intros H. apply bool_decide_eq_true in H. lia.
      * intros k Hk. rewrite filter_cons. cbn [of_turn].
        rewrite decide_False; [reflexivity|].
        intros H. apply bool_decide_eq_true in H. lia.
      * intros k Hk. rewrite filter_cons. cbn [of_turn].
        rewrite decide_False; [reflexivity | discriminate].
      * symmetry. apply app_nil_r.
      * reflexivity.
  - split; [lia|]. exists []. rewrite app_nil_r. split; reflexivity.
Qed.

Lemma run_turns (ms : list Msg) : forall (s : Stream) (k : nat),
  (k < length (allResponses s))%nat ->
  filter (fun e => of_turn k e = true) (delivered (run s ms)) =
  filter (fun e => of_turn k e = true) (delivered s).
Proof.
  induction ms as [|m ms IH]; intros s k Hk; [reflexivity|].
  cbn [run fold_left]. destruct (step_turns s m) as (Hlen & new & Hnew & Hnone).
  change (fold_left step ms (step s m)) with (run (step s m) ms).
  rewrite (IH (step s m) k) by lia.
  rewrite Hnew, filter_app, (Hnone k Hk), app_nil_r. reflexivity.
Qed.

(** *** Properties of the delivery of a stream *)

(** X20.  Whatever streams in, every text message the relay sends for it is
    non-empty and at most 4 000 code units long, provided no result string
    begins with a line feed or a space. *)
Theorem chat_receives_sendable_texts (now : Z) (ms : list Msg) :
  forallb clean_result ms = true ->
  exists replies,
    telegram (delivered (run (start now) ms)) = Some replies /\
    Forall (fun r => truthy r = true /\ len r <= Send.MAX_LENGTH) replies.
Proof.
  intros Hms.
  destruct (telegram_spec (delivered (run (start now) ms)))
    as (replies & Hrun & Hfit & _ & Hfull).
  exists replies. split; [exact Hrun|].
  apply Forall_and. split; [|exact Hfit].
  apply Hfull, run_sendable; [exact Hms | constructor].
Qed.

Lemma chat_receives_sendable_texts_witness :
  exists replies,
    telegram (delivered (run (start 0) (greeting ++ [Result (str "done")]))) =
      Some replies /\
    Forall (fun r => truthy r = true /\ len r <= Send.MAX_LENGTH) replies.
Proof.
  apply (chat_receives_sendable_texts 0 (greeting ++ [Result (str "done")])).
  reflexivity.
Defined.

(** X21.  A turn that streams in, each text extending the one before it,
    and then ends with the result reaches the chat whole: white space
    apart, the text messages sent are the final text of the turn. *)
Theorem streamed_turn_reaches_the_chat_whole (now : Z) (ms : list Msg) (result : jsstring) :
  extends [] ms ->
  truthy (last_text [] ms) = true ->
  exists replies,
    telegram (delivered (run (start now) (ms ++ [Result result]))) = Some replies /\
    Send.ink (concat replies) = Send.ink (last_text [] ms).
Proof.
  intros He Ht.
  destruct (telegram_spec (delivered (run (start now) (ms ++ [Result result]))))
    as (replies & Hrun & _ & Hink & _).
  exists replies. split; [exact Hrun|]. rewrite Hink.
  unfold run. rewrite fold_left_app. cbn [fold_left step].
  destruct (run_streaming ms (start now)) as [Hs Hcur]; [exact He | |].
  { split; [reflexivity|]. split; [unfold offset_ok, len; cbn [start currentTurnSent currentTurnText length]; lia | reflexivity]. }
  change (fold_left step ms (start now)) with (run (start now) ms).
  cbn [start currentTurnText] in Hcur.
  rewrite onResult_streaming, Hcur; [reflexivity | exact Hs |].
  rewrite Hcur. exact Ht.
Qed.

Lemma streamed_turn_reaches_the_chat_whole_witness :
  exists replies,
    telegram (delivered (run (start 0) (greeting ++ [Result (str "done")]))) =
      Some replies /\
    Send.ink (concat replies) = Send.ink (str "Hello, world.").
Proof.
  apply (streamed_turn_reaches_the_chat_whole 0 greeting (str "done")).
  - cbn [greeting extends]. split; [exists (str "Hello"); reflexivity|].
    split; [exists (str ", world."); reflexivity | exact I].
  - reflexivity.
Defined.

(** *** Where the text of a piece comes from *)

Lemma step_emits (s : Stream) (m : Msg) :
  exists new,
    delivered (step s m) = delivered s ++ new /\
    Forall (emitted_in (step s m)) new /\
    Forall (fun e => match e with
                     | ResultText result => m = Result result
                     | _ => True
                     end) new.
Proof.
  destruct m as [text now | result |]; cbn [step].
  - destruct (truthy text); [|exists []; rewrite app_nil_r; repeat constructor].
    unfold flush.
    destruct (triggered _ _ _);
      [|exists []; rewrite app_nil_r, segment_delivered; repeat constructor].
    destruct (truthy (trim _));
      [|exists []; rewrite app_nil_r, segment_delivered; repeat constructor].
    cbn [delivered]. rewrite segment_delivered.
    eexists. split; [reflexivity|]. split; repeat constructor.
  - unfold onResult. cbn [delivered].
    set (remaining := trim (slice_from (currentTurnText s) (currentTurnSent s))).
    destruct (truthy remaining); destruct (negb _ && truthy result);
      rewrite <- ?app_assoc; eexists;
      (split; [try reflexivity; symmetry; apply app_nil_r|]);
      cbn [app]; split; repeat constructor; cbn [currentTurnSent currentTurnText]; lia.
  - exists []. rewrite app_nil_r. repeat constructor.
Qed.

Lemma step_current_text (s : Stream) (m : Msg) :
  currentTurnText (step s m) =
  match m with
  | Assistant text _ => if truthy text then text else currentTurnText s
  | _ => currentTurnText s
  end.
Proof.
  destruct m as [text now | result |]; [|reflexivity..].
  destruct (truthy text) eqn:Ht.
  - apply step_text_state, Ht.
  - cbn [step]. rewrite Ht. reflexivity.
Qed.

Lemma sourced_more (a b : list Msg) (e : Emission) :
  sourced b e -> sourced (a ++ b) e.
Proof.
  unfold sourced, texts, result_strings. rewrite !omap_app.
  intros [(src & Hin & Hcut) | (result & Hin & ->)].
  - left. exists src. split; [apply elem_of_app; right; exact Hin | exact Hcut].
  - right. exists result. split; [apply elem_of_app; right; exact Hin | reflexivity].
Qed.

Lemma sourced_earlier (a b : list Msg) (e : Emission) :
  sourced a e -> sourced (a ++ b) e.
Proof.
  unfold sourced, texts, result_strings. rewrite !omap_app.
  intros [(src & Hin & Hcut) | (result & Hin & ->)].
  - left. exists src. split; [apply elem_of_app; left; exact Hin | exact Hcut].
  - right. exists result. split; [apply elem_of_app; left; exact Hin | reflexivity].
Qed.

(** From a state whose current text came with the stream [seen], all that
    the messages [ms] add to the log has its text from [seen ++ ms]. *)
Lemma run_sourced (ms : list Msg) : forall (seen : list Msg) (s : Stream),
  currentTurnText s ∈ texts seen ->
  exists new,
    delivered (run s ms) = delivered s ++ new /\
    Forall (sourced (seen ++ ms)) new.
Proof.
  induction ms as [|m ms IH]; intros seen s Hcur.
  - exists []. rewrite app_nil_r. split; [reflexivity | constructor].
  - destruct (step_emits s m) as (new1 & Hnew1 & Hin1 & Hres1).
    assert (Hcur' : currentTurnText (step s m) ∈ texts (seen ++ [m])).
    { rewrite step_current_text. unfold texts. rewrite omap_app.
      destruct m as [text now | result |];
        try (apply elem_of_app; left; exact Hcur).
      destruct (truthy text); apply elem_of_app; [right; left | left; exact Hcur]. }
    destruct (IH (seen ++ [m]) (step s m) Hcur') as (new2 & Hnew2 & Hin2).
    exists (new1 ++ new2). cbn [run fold_left].
    change (fold_left step ms (step s m)) with (run (step s m) ms).
    rewrite Hnew2, Hnew1, <- app_assoc. split; [reflexivity|].
    rewrite <- app_assoc in Hin2. cbn [app] in Hin2.
    apply Forall_app. split; [|exact Hin2].
    rewrite Forall_forall in Hin1, Hres1. apply Forall_forall. intros e He.
    specialize (Hin1 e He). specialize (Hres1 e He).
    change (seen ++ m :: ms) with (seen ++ [m] ++ ms). rewrite app_assoc.
    apply sourced_earlier.
    destruct e as [turn from cut text | turn from cut text | result].
    + left. exists (currentTurnText (step s m)).
      split; [exact Hcur' | apply Hin1].
    + left. exists (currentTurnText (step s m)).
      split; [exact Hcur' | apply Hin1].
    + right. exists result. subst m. split; [|reflexivity].
      unfold result_strings. rewrite omap_app. apply elem_of_app. right. left.
Qed.

(** *** The pieces of a turn, white space apart *)

Lemma turn_pieces_app (k : nat) (a b : list Emission) :
  turn_pieces k (a ++ b) = turn_pieces k a ++ turn_pieces k b.
Proof. unfold turn_pieces. rewrite filter_app, fmap_app. reflexivity. Qed.

Lemma turn_pieces_later (k : nat) (log : list Emission) :
  Forall (up_to_turn k) log -> turn_pieces (S k) log = [].
Proof.
  induction log as [|e log IH]; intros Hall; [reflexivity|].
  apply Forall_cons in Hall as [He Hall].
  change (e :: log) with ([e] ++ log). rewrite turn_pieces_app, (IH Hall), app_nil_r.
  unfold turn_pieces. rewrite filter_cons.
  destruct e as [turn from cut text | turn from cut text | result]; cbn [of_turn up_to_turn] in *.
  - rewrite decide_False; [reflexivity|].
    intros H. apply bool_decide_eq_true in H. lia.
  - rewrite decide_False; [reflexivity|].
    intros H. apply bool_decide_eq_true in H. lia.
  - rewrite decide_False; [reflexivity | discriminate].
Qed.

Lemma up_to_turn_mono (k k' : nat) (log : list Emission) :
  (k <= k')%nat -> Forall (up_to_turn k) log -> Forall (up_to_turn k') log.
Proof.
  intros Hle Hall. apply (Forall_impl _ _ _ Hall). intros e He.
  destruct e; cbn [up_to_turn] in *; lia || exact I.
Qed.

Lemma segment_tracked (text : jsstring) (s : Stream) :
  isNewTurn text (currentTurnText s) = true \/ currentTurnText s `prefix_of` text ->
  tracked s -> tracked (segment text s).
Proof.
  intros Hm (Hoff & Hturns & Hink). unfold segment.
  destruct (isNewTurn text (currentTurnText s)) eqn:Hnew.
  - pose proof Hnew as Hcur. unfold isNewTurn in Hcur.
    apply andb_true_iff in Hcur as [_ Hcur]. rewrite Hcur.
    unfold tracked. cbn [allResponses currentTurnText currentTurnSent delivered].
    rewrite length_app. cbn [length].
    replace (length (allResponses s) + 1)%nat with (S (length (allResponses s))) by lia.
    split; [|split].
    + unfold offset_ok. cbn [currentTurnSent currentTurnText].
      pose proof (len_nonneg text). lia.
    + apply (up_to_turn_mono (length (allResponses s))); [lia | exact Hturns].
    + rewrite (turn_pieces_later _ _ Hturns). reflexivity.
  - destruct Hm as [Hm | [k Hk]]; [discriminate|].
    unfold tracked. cbn [allResponses currentTurnText currentTurnSent delivered].
    unfold offset_ok in *. cbn [currentTurnText currentTurnSent].
    split; [|split; [exact Hturns|]].
    + rewrite Hk. unfold len in *. rewrite length_app. lia.
    + rewrite Hink, Hk, take_app_le; [reflexivity|]. unfold len in Hoff. lia.
Qed.

Lemma flush_tracked (now : Z) (s : Stream) :
  tracked s -> tracked (flush now s).
Proof.
  intros (Hoff & Hturns & Hink).
  pose proof (flush_offset_ok now s Hoff) as Hoff'.
  revert Hoff'. unfold flush. rewrite (slice_from_drop _ _ Hoff).
  set (unsent := drop (Z.to_nat (currentTurnSent s)) (currentTurnText s)).
  destruct (triggered _ _ _); [|intros _; exact (conj Hoff (conj Hturns Hink))].
  destruct (truthy _) eqn:Ht; [|intros _; exact (conj Hoff (conj Hturns Hink))].
  intros Hoff'. split; [exact Hoff'|].
  pose proof (flushEnd_bounds unsent) as Hb.
  cbn [allResponses currentTurnSent currentTurnText delivered]. split.
  - apply Forall_app. split; [exact Hturns|]. constructor; [|constructor].
    cbn [up_to_turn]. lia.
  - rewrite turn_pieces_app, concat_app, Send.ink_app, Hink.
    unfold turn_pieces at 1. rewrite filter_cons. cbn [of_turn].
    rewrite decide_True by (apply bool_decide_eq_true; reflexivity).
    cbn [filter fmap list_fmap concat text_of].
    change (filter (fun e => of_turn (length (allResponses s)) e = true) [])
      with (@nil Emission).
    cbn [fmap list_fmap concat].
    rewrite app_nil_r, Send.ink_trim, slice_take by lia.
    unfold offset_ok in Hoff.
    rewrite <- Send.ink_app. subst unsent. rewrite take_take_drop.
    rewrite Z2Nat.inj_add by lia. reflexivity.
Qed.

Lemma orderly_app (a b : list Msg) : forall cur,
  orderly cur (a ++ b) -> orderly cur a.
Proof.
  induction a as [|m a IH]; intros cur H; [exact I|].
  destruct m as [text now | result |]; cbn [app orderly] in *.
  - destruct H as [Hm H]. split; [exact Hm | apply IH, H].
  - contradiction.
  - apply IH, H.
Qed.

Lemma run_tracked (ms : list Msg) : forall s,
  orderly (currentTurnText s) ms -> tracked s -> tracked (run s ms).
Proof.
  induction ms as [|m ms IH]; intros s Ho Ht; [exact Ht|].
  cbn [run fold_left]. change (fold_left step ms (step s m)) with (run (step s m) ms).
  destruct m as [text now | result |]; cbn [orderly] in Ho; [| contradiction |].
  - destruct Ho as [Hm Ho]. apply IH.
    + rewrite step_current_text. exact Ho.
    + cbn [step]. destruct (truthy text); [|exact Ht].
      apply flush_tracked, segment_tracked; [apply Hm; reflexivity | exact Ht].
  - apply IH; [exact Ho | exact Ht].
Qed.

Lemma onResult_tracked (result : jsstring) (s : Stream) :
  tracked s ->
  Send.ink (concat (turn_pieces (length (allResponses s))
                      (delivered (onResult result s)))) =
  Send.ink (currentTurnText s).
Proof.
  intros (Hoff & _ & Hink). unfold onResult. cbn [delivered].
  rewrite slice_from_drop by exact Hoff.
  set (remaining := trim (drop (Z.to_nat (currentTurnSent s)) (currentTurnText s))).
  assert (Hrem : Send.ink remaining =
                 Send.ink (drop (Z.to_nat (currentTurnSent s)) (currentTurnText s)))
    by apply Send.ink_trim.
  assert (Hlog1 :
    Send.ink (concat (turn_pieces (length (allResponses s))
      (if truthy remaining
       then delivered s ++
            [Tail (length (allResponses s)) (currentTurnSent s)
                  (len (currentTurnText s) - currentTurnSent s) remaining]
       else delivered s))) = Send.ink (currentTurnText s)).
  { destruct (truthy remaining) eqn:Hr.
    - rewrite turn_pieces_app, concat_app, Send.ink_app, Hink.
      unfold turn_pieces at 1. rewrite filter_cons. cbn [of_turn].
      rewrite decide_True by (apply bool_decide_eq_true; reflexivity).
      change (filter (fun e => of_turn (length (allResponses s)) e = true) [])
        with (@nil Emission).
      cbn [fmap list_fmap concat text_of].
      rewrite app_nil_r, Hrem, <- Send.ink_app, take_drop. reflexivity.
    - rewrite Hink. rewrite (ink_nil_of_falsy _ Hr) in Hrem.
      rewrite <- (take_drop (Z.to_nat (currentTurnSent s)) (currentTurnText s)) at 2.
      rewrite Send.ink_app, <- Hrem, app_nil_r. reflexivity. }
  destruct (negb _ && truthy result); [|exact Hlog1].
  rewrite turn_pieces_app, concat_app, Send.ink_app, Hlog1.
  unfold turn_pieces. rewrite filter_cons. cbn [of_turn].
  rewrite decide_False by discriminate. apply app_nil_r.
Qed.

Lemma join_last_truthy (sep : jsstring) (parts : list jsstring) (p : jsstring) :
  truthy p = true -> truthy (join sep (parts ++ [p])) = true.
Proof.
  intros Hp. induction parts as [|x rest IH]; [exact Hp|].
  change ((x :: rest) ++ [p]) with (x :: (rest ++ [p])).
  destruct (rest ++ [p]) as [|y more] eqn:E.
  - destruct rest; discriminate.
  - cbn [join]. destruct x as [|c x]; [|reflexivity].
    cbn [app]. destruct sep as [|c sep]; [exact IH | reflexivity].
Qed.

Lemma step_voiced (s : Stream) (m : Msg) :
  is_result m = false -> voiced s -> voiced (step s m).
Proof.
  intros Hm Hv. destruct m as [text now | result |]; [|discriminate | exact Hv].
  unfold voiced. rewrite step_current_text.
  destruct (truthy text) eqn:Ht.
  - right. exact Ht.
  - cbn [step]. rewrite Ht. exact Hv.
Qed.

Lemma step_pieces (s : Stream) (m : Msg) :
  is_result m = false ->
  forallb is_piece (delivered s) = true ->
  forallb is_piece (delivered (step s m)) = true.
Proof.
  intros Hm Hs. destruct (step_emits s m) as (new & -> & _ & Hres).
  rewrite forallb_app, Hs. cbn [andb].
  apply forallb_forall. intros e He. apply list_elem_of_In in He.
  rewrite Forall_forall in Hres. specialize (Hres e He).
  destruct e as [| | result]; [reflexivity | reflexivity|].
  subst m. discriminate.
Qed.

Lemma run_voiced (ms : list Msg) : forall s,
  forallb (fun m => negb (is_result m)) ms = true ->
  voiced s -> forallb is_piece (delivered s) = true ->
  voiced (run s ms) /\ forallb is_piece (delivered (run s ms)) = true.
Proof.
  induction ms as [|m ms IH]; intros s Hms Hv Hp; [split; assumption|].
  cbn [forallb] in Hms. apply andb_true_iff in Hms as [Hm Hms].
  apply negb_true_iff in Hm.
  cbn [run fold_left]. apply IH; [exact Hms | apply step_voiced | apply step_pieces]; assumption.
Qed.

(** The result string goes out only when nothing else has. *)
Lemma onResult_fallback (r x : jsstring) (s : Stream) :
  voiced s -> forallb is_piece (delivered s) = true ->
  ResultText x ∈ delivered (onResult r s) ->
  delivered (onResult r s) = [ResultText r].
Proof.
  intros Hv Hp. unfold onResult. cbn [delivered].
  destruct (truthy (currentTurnText s)) eqn:Hc.
  - rewrite (join_last_truthy _ _ _ Hc). cbn [negb andb]. intros Hin. exfalso.
    assert (Hall : forallb is_piece
              (if truthy (trim (slice_from (currentTurnText s) (currentTurnSent s)))
               then delivered s ++
                    [Tail (length (allResponses s)) (currentTurnSent s)
                          (len (currentTurnText s) - currentTurnSent s)
                          (trim (slice_from (currentTurnText s) (currentTurnSent s)))]
               else delivered s) = true).
    { destruct (truthy (trim (slice_from (currentTurnText s) (currentTurnSent s))));
        [|exact Hp].
      rewrite forallb_app, Hp. reflexivity. }
    rewrite forallb_forall in Hall. apply list_elem_of_In in Hin.
    specialize (Hall _ Hin). discriminate.
  - destruct Hv as [Hnil | Ht]; [|congruence].
    destruct (currentTurnText s) as [|c u]; [|discriminate].
    rewrite Hnil.
    replace (slice_from [] (currentTurnSent s)) with (@nil N).
    2:{ unfold slice_from, slice. rewrite drop_nil, take_nil. reflexivity. }
    change (trim []) with (@nil N). cbn [truthy].
    destruct (negb _ && truthy r); [reflexivity|]. intros Hin. inversion Hin.
Qed.

(** *** The claim on the offset *)

(** C6.  In every run (any messages, then the result), the offset
    [currentTurnSent] stays between 0 and the length of [currentTurnText]
    after each message; a message either leaves it where it was or advances
    it, unless it opens a new turn; the pieces delivered for a turn, the
    forced tail on the result included, each start where the one before
    ended; and the text of each piece is what its offsets name in the
    current text, trimmed: a chunk the code units from the offset before it
    up to the offset after it, the tail those from the offset to the end.
    The result string is sent only when nothing else was.  So nothing
    already sent is sent again: while the texts of a turn extend one
    another, what has been delivered of the turn is, white space apart,
    exactly its text up to the offset, and with the result exactly its
    whole text. *)
Theorem sent_offset_bounded_and_advancing (now0 : Z) (ms : list Msg) (r : jsstring) :
  forallb (fun m => negb (is_result m)) ms = true ->
  (forall k : nat, offset_ok (run (start now0) (take k (ms ++ [Result r])))) /\
  (forall (k : nat) (m : Msg),
      (ms ++ [Result r]) !! k = Some m ->
      currentTurnSent (run (start now0) (take k (ms ++ [Result r]))) <=
      currentTurnSent (step (run (start now0) (take k (ms ++ [Result r]))) m) \/
      (allResponses (step (run (start now0) (take k (ms ++ [Result r]))) m) =
       allResponses (run (start now0) (take k (ms ++ [Result r]))) ++
       [currentTurnText (run (start now0) (take k (ms ++ [Result r])))] /\
       is_result m = false)) /\
  contiguous 0 0 (delivered (run (start now0) (ms ++ [Result r]))) /\
  (forall (k : nat) (m : Msg),
      (ms ++ [Result r]) !! k = Some m ->
      exists new,
        delivered (step (run (start now0) (take k (ms ++ [Result r]))) m) =
        delivered (run (start now0) (take k (ms ++ [Result r]))) ++ new /\
        Forall (emitted_in (step (run (start now0) (take k (ms ++ [Result r]))) m)) new) /\
  (forall x : jsstring,
      ResultText x ∈ delivered (run (start now0) (ms ++ [Result r])) ->
      delivered (run (start now0) (ms ++ [Result r])) = [ResultText r]) /\
  (orderly [] ms ->
   (forall k : nat,
       Send.ink (concat (turn_pieces
                           (length (allResponses (run (start now0) (take k ms))))
                           (delivered (run (start now0) (take k ms))))) =
       Send.ink (take (Z.to_nat (currentTurnSent (run (start now0) (take k ms))))
                      (currentTurnText (run (start now0) (take k ms))))) /\
   Send.ink (concat (turn_pieces
                       (length (allResponses (run (start now0) ms)))
                       (delivered (run (start now0) (ms ++ [Result r]))))) =
   Send.ink (currentTurnText (run (start now0) ms))).
Proof.
  intros Hms.
  assert (Hstart : offset_ok (start now0)).
  { unfold offset_ok, start, len. cbn [currentTurnSent currentTurnText length]. lia. }
  assert (Hlog : log_ok (start now0)).
  { unfold log_ok. cbn. split; [exact I|]. left. split; reflexivity. }
  assert (Htracked : tracked (start now0)).
  { split; [exact Hstart|]. split; [constructor | reflexivity]. }
  split; [|split; [|split; [|split; [|split]]]].
  - intros k. apply run_offset_ok, Hstart.
  - intros k m _. apply step_advances.
  - unfold run. rewrite fold_left_app. cbn [fold_left step].
    apply onResult_contiguous.
    + apply run_offset_ok, Hstart.
    + apply run_log_ok; assumption.
  - intros k m _.
    destruct (step_emits (run (start now0) (take k (ms ++ [Result r]))) m)
      as (new & Hnew & Hin & _).
    exists new. split; assumption.
  - intros x. unfold run. rewrite fold_left_app. cbn [fold_left step].
    fold (run (start now0) ms).
    destruct (run_voiced ms (start now0) Hms) as [Hv Hp];
      [left; reflexivity | reflexivity |].
    apply onResult_fallback; assumption.
  - intros Ho. split.
    + intros k. apply run_tracked; [|exact Htracked].
      cbn [start currentTurnText].
      apply (orderly_app (take k ms) (drop k ms)). rewrite take_drop. exact Ho.
    + unfold run at 2. rewrite fold_left_app. cbn [fold_left step].
      apply onResult_tracked, run_tracked; [exact Ho | exact Htracked].
Qed.

Lemma sent_offset_bounded_and_advancing_witness :
  (forall k : nat,
      offset_ok (run (start 0) (take k (two_turns ++ [Result []])))) /\
  contiguous 0 0 (delivered (run (start 0) (two_turns ++ [Result []]))) /\
  Send.ink (concat (turn_pieces 1 (delivered (run (start 0) (two_turns ++ [Result []]))))) =
  Send.ink (str "Done.") /\
  delivered (run (start 0) (two_turns ++ [Result []])) =
  [Chunk 0 0 84 first_paragraph;
   Chunk 0 84 94
     (str "Second paragraph keeps streaming in and the tail grows past eighty code units, ending mid-wo");
   Tail 1 0 5 (str "Done.")] /\
  delivered (run (start 0) (two_turns ++ [Result (str "Finished")])) =
  delivered (run (start 0) (two_turns ++ [Result []])) /\
  delivered (run (start 0) ([Other] ++ [Result (str "Finished")])) =
  [ResultText (str "Finished")].
Proof.
  pose proof (sent_offset_bounded_and_advancing 0 two_turns [] eq_refl)
    as (H1 & _ & H3 & _ & _ & H5).
  split; [exact H1|]. split; [exact H3|]. split; [|split; [|split]];
    [|vm_compute; reflexivity..].
  - apply H5. cbn [two_turns orderly].
    split; [intros _; right; exists partial_answer; reflexivity|].
    split; [intros _; right;
            exists (str "agraph keeps streaming in and the tail grows past eighty code units, ending mid-wo");
            reflexivity|].
    split; [intros _; left; reflexivity | exact I].
Defined.

(** *** A turn that is superseded *)

(** X22.  Once a shorter text has opened a new turn, no piece of the turn
    before it is delivered any more, and the text of every piece delivered
    from then on is cut out of an assistant text that came with or after
    the one that opened the turn, or is a result string that came after
    it: what of the earlier turn was still unsent never reaches the chat. *)
Theorem unsent_tail_of_a_superseded_turn_is_dropped
  (s : Stream) (text : jsstring) (now : Z) (ms : list Msg) :
  truthy text = true ->
  isNewTurn text (currentTurnText s) = true ->
  filter (fun e => of_turn (length (allResponses s)) e = true)
         (delivered (run s (Assistant text now :: ms))) =
  filter (fun e => of_turn (length (allResponses s)) e = true) (delivered s) /\
  exists new,
    delivered (run s (Assistant text now :: ms)) = delivered s ++ new /\
    Forall (sourced (Assistant text now :: ms)) new.
Proof.
  intros Ht Hnew. split.
  - cbn [run fold_left].
    change (fold_left step ms (step s (Assistant text now)))
      with (run (step s (Assistant text now)) ms).
    destruct (step_text_state s text now Ht) as [Hall _].
    rewrite Hnew in Hall.
    rewrite run_turns by (rewrite Hall, length_app; cbn [length]; lia).
    cbn [step]. rewrite Ht. unfold flush.
    assert (Hseg : length (allResponses (segment text s)) = S (length (allResponses s))).
    { unfold segment. rewrite Hnew. cbn [allResponses].
      unfold isNewTurn in Hnew. apply andb_true_iff in Hnew as [_ ->].
      rewrite length_app. cbn [length]. lia. }
    destruct (triggered _ _ _); [|rewrite segment_delivered; reflexivity].
    destruct (truthy (trim _)); [|rewrite segment_delivered; reflexivity].
    cbn [delivered]. rewrite segment_delivered, filter_app, filter_cons.
    cbn [of_turn]. rewrite decide_False; [apply app_nil_r|].
    intros H. apply bool_decide_eq_true in H. lia.
  - destruct (step_emits s (Assistant text now)) as (new1 & Hnew1 & Hin1 & Hres1).
    assert (Hcur : currentTurnText (step s (Assistant text now)) = text).
    { rewrite step_current_text, Ht. reflexivity. }
    destruct (run_sourced ms [Assistant text now] (step s (Assistant text now)))
      as (new2 & Hnew2 & Hin2).
    { rewrite Hcur. cbn. left. }
    exists (new1 ++ new2). cbn [run fold_left].
    change (fold_left step ms (step s (Assistant text now)))
      with (run (step s (Assistant text now)) ms).
    rewrite Hnew2, Hnew1, <- app_assoc. split; [reflexivity|].
    apply Forall_app. split; [|exact Hin2].
    rewrite Forall_forall in Hin1, Hres1. apply Forall_forall. intros e He.
    specialize (Hin1 e He). specialize (Hres1 e He).
    change (Assistant text now :: ms) with ([Assistant text now] ++ ms).
    apply sourced_earlier. left. exists text. split; [left|].
    destruct e as [turn from cut t | turn from cut t | result];
      cbn [emitted_in] in Hin1; [| | discriminate].
    + destruct Hin1 as (_ & _ & Hc). rewrite Hcur in Hc. exact Hc.
    + destruct Hin1 as (_ & Hc). rewrite Hcur in Hc. exact Hc.
Qed.

Lemma unsent_tail_of_a_superseded_turn_is_dropped_witness :
  (filter (fun e => of_turn 0 e = true)
          (delivered (run interrupted [Assistant (str "Next.") 2000; Result []])) = [] /\
   exists new,
     delivered (run interrupted [Assistant (str "Next.") 2000; Result []]) = [] ++ new /\
     Forall (sourced [Assistant (str "Next.") 2000; Result []]) new) /\
  delivered (run interrupted [Assistant (str "Next.") 2000; Result []]) =
  [Tail 1 0 5 (str "Next.")].
Proof.
  split.
  - apply (unsent_tail_of_a_superseded_turn_is_dropped interrupted (str "Next.") 2000
             [Result []]); reflexivity.
  - vm_compute. reflexivity.
Defined.

End Delivery.

(** ** What the terminal shows *)

Module Screen.
Import Js Terminal.

(** The screen as the turns it shows: the texts closed by a separator, and
    the text written since the last one. *)
Definition show (acc : list jsstring * jsstring) (o : Output) : list jsstring * jsstring :=
  match o with
  | Separator => (acc.1 ++ [acc.2], [])
  | Printed text => (acc.1, acc.2 ++ text)
  end.

Definition shown (out : list Output) : list jsstring * jsstring :=
  fold_left show out ([], []).

(** Every message with text opens a new turn or extends the text of the
    current one. *)
Fixpoint orderly (c : Console) (ms : list (jsstring * jsstring)) : Prop :=
  match ms with
  | [] => True
  | m :: rest =>
      (truthy m.1 = true ->
       isNewTurn m.2 m.1 c = true \/ currentTurnText c `prefix_of` m.1) /\
      orderly (onAssistant m.1 m.2 c) rest
  end.

(** The screen shows the turns recorded, and the current one in full. *)
Definition faithful (c : Console) : Prop :=
  shown (written c) = (allResponses c, currentTurnText c) /\
  currentTurnPrinted c = len (currentTurnText c) /\
  uuid_has_text c.

(** *** Facts *)

Lemma shown_snoc (out : list Output) (o : Output) :
  shown (out ++ [o]) = show (shown out) o.
Proof. unfold shown. rewrite fold_left_app. reflexivity. Qed.

Lemma onAssistant_faithful (text msgUuid : jsstring) (c : Console) :
  (truthy text = true ->
   isNewTurn msgUuid text c = true \/ currentTurnText c `prefix_of` text) ->
  faithful c -> faithful (onAssistant text msgUuid c).
Proof.
  intros Hm (Hshown & Hprinted & Huuid). unfold onAssistant.
  destruct (truthy text) eqn:Ht; [|exact (conj Hshown (conj Hprinted Huuid))].
  specialize (Hm eq_refl).
  assert (Huuid' : forall a p u w,
            uuid_has_text {| allResponses := a; currentTurnText := text;
                             currentTurnPrinted := p; currentMsgUuid := u;
                             written := w |}).
  { intros a p u w _. exact Ht. }
  destruct (isNewTurn msgUuid text c) eqn:Hnew.
  - assert (Hcur : truthy (currentTurnText c) = true).
    { apply isNewTurn_spec in Hnew as [(_ & Hu & _) | [_ Hlt]].
      - apply Huuid, truthy_nonempty, Hu.
      - apply Relay.truthy_len. pose proof (len_nonneg text). lia. }
    rewrite Hcur. cbn [andb].
    rewrite (Delivery.slice_from_drop text 0) by (pose proof (len_nonneg text); lia).
    change (Z.to_nat 0) with 0%nat. rewrite drop_0, Ht.
    split; [|split; [reflexivity | apply Huuid']].
    cbn [written allResponses currentTurnText].
    rewrite !shown_snoc, Hshown. reflexivity.
  - destruct Hm as [Hm | [k Hk]]; [discriminate|]. cbn [andb].
    assert (Hdrop : slice_from text (currentTurnPrinted c) = k).
    { rewrite Hprinted, Delivery.slice_from_drop.
      - unfold len. rewrite Nat2Z.id, Hk. apply drop_app_length.
      - rewrite Hk. unfold len. rewrite length_app. lia. }
    rewrite Hdrop.
    destruct (truthy k) eqn:Hkt.
    + split; [|split; [reflexivity | apply Huuid']].
      cbn [written allResponses currentTurnText].
      rewrite shown_snoc, Hshown, Hk. reflexivity.
    + destruct k; [|discriminate]. rewrite app_nil_r in Hk.
      split; [|split; [|apply Huuid']]; cbn [written allResponses currentTurnText currentTurnPrinted].
      * rewrite Hshown, Hk. reflexivity.
      * rewrite Hprinted, Hk. reflexivity.
Qed.

Lemma feed_faithful (ms : list (jsstring * jsstring)) : forall c,
  orderly c ms -> faithful c -> faithful (feed c ms).
Proof.
  induction ms as [|m ms IH]; intros c Ho Hf; [exact Hf|].
  cbn [orderly] in Ho. destruct Ho as [Hm Ho].
  apply (IH _ Ho), onAssistant_faithful; assumption.
Qed.

(** *** Property of the terminal output *)

(** X23.  On the terminal nothing of a turn is held back: when every
    message opens a new turn or extends the text of the current one, the
    texts written between the separators are the turns recorded so far, and
    the text written since the last separator is the whole current text. *)
Theorem terminal_shows_every_turn_in_full (ms : list (jsstring * jsstring)) :
  orderly start ms ->
  shown (written (feed start ms)) =
  (allResponses (feed start ms), currentTurnText (feed start ms)).
Proof.
  intros Ho. apply (feed_faithful ms start Ho).
  split; [reflexivity|]. split; [reflexivity|]. intros H. discriminate H.
Qed.

Lemma terminal_shows_every_turn_in_full_witness :
  shown (written (feed start [(str "Hi", []); (str "Hi there", []); (str "Sure,", [])])) =
  ([str "Hi there"], str "Sure,").
Proof.
  apply (terminal_shows_every_turn_in_full
           [(str "Hi", []); (str "Hi there", []); (str "Sure,", [])]).
  cbn [orderly fst snd].
  split; [intros _; right; exists (str "Hi"); reflexivity|].
  split; [intros _; right; exists (str " there"); reflexivity|].
  split; [intros _; left; reflexivity | exact I].
Defined.

End Screen.

(** ** The fact budget of the memory context *)

Module Memory.
Import Js.

Definition MAX_MEMORY_CHARS : Z := 4000.

(** [`- ${f.content}`] *)
Definition line (content : jsstring) : jsstring := str "- " ++ content.

(** [data.slice (-50)] on an array. *)
Definition recent (data : list jsstring) : list jsstring :=
  drop (length data - 50) data.

(** The [for] loop over [recentFacts], from a given [charCount]: the lines
    pushed to [facts]. *)
Fixpoint collect (remaining charCount : Z) (recentFacts : list jsstring) : list jsstring :=
  match recentFacts with
  | [] => []
  | f :: rest =>
      if remaining <? charCount + len (line f) then []
      else line f :: collect remaining (charCount + len (line f) + 1) rest
  end.

(** The array [facts] of [getMemoryContext], where the parts pushed before
    are [partsLength] code units long when joined. *)
Definition keyFacts (partsLength : Z) (data : list jsstring) : list jsstring :=
  let remaining := MAX_MEMORY_CHARS - partsLength in
  if 200 <? remaining then collect remaining 0 (recent data) else [].

(** The code units of the lines, with one line feed after each. *)
Definition weight (lines : list jsstring) : Z :=
  foldr (fun l acc => len l + 1 + acc) 0 lines.

(** *** Facts *)

Lemma len_join_lines (lines : list jsstring) :
  lines <> [] -> len (join [lf] lines) = weight lines - 1.
Proof.
  induction lines as [|l rest IH]; [congruence|]. intros _.
  destruct rest as [|l' rest'].
  - cbn [join weight foldr]. lia.
  - change (join [lf] (l :: l' :: rest')) with (l ++ [lf] ++ join [lf] (l' :: rest')).
    unfold len in *. rewrite !length_app, Nat2Z.inj_add, Nat2Z.inj_add.
    rewrite IH by discriminate. cbn [weight foldr length]. unfold len. lia.
Qed.

Lemma weight_nonneg (lines : list jsstring) : 0 <= weight lines.
Proof.
  induction lines as [|l rest IH]; cbn [weight foldr]; [lia|].
  fold (weight rest). pose proof (len_nonneg l). lia.
Qed.

(** The loop takes the longest run of the recent facts, from the first on,
    that fits the budget. *)
Lemma collect_spec (remaining : Z) (facts : list jsstring) : forall charCount,
  exists k : nat,
    collect remaining charCount facts = line <$> take k facts /\
    (collect remaining charCount facts <> [] ->
     charCount + weight (collect remaining charCount facts) - 1 <= remaining) /\
    ((k < length facts)%nat ->
     remaining < charCount + weight (line <$> take (S k) facts) - 1).
Proof.
  induction facts as [|f rest IH]; intros charCount.
  - exists 0%nat. cbn [collect firstn fmap list_fmap length]. split; [reflexivity|].
    split; [congruence | lia].
  - cbn [collect].
    destruct (remaining <? charCount + len (line f)) eqn:E.
    + apply Z.ltb_lt in E. exists 0%nat. split; [reflexivity|].
      split; [congruence|]. intros _.
      cbn [firstn fmap list_fmap weight foldr]. rewrite take_0. cbn [fmap list_fmap foldr]. lia.
    + apply Z.ltb_ge in E.
      destruct (IH (charCount + len (line f) + 1)) as (k & Heq & Hfit & Hmax).
      exists (S k). split; [cbn [firstn fmap list_fmap]; rewrite Heq; reflexivity|].
      split.
      * intros _. cbn [weight foldr].
        fold (weight (collect remaining (charCount + len (line f) + 1) rest)).
        destruct (collect remaining (charCount + len (line f) + 1) rest) eqn:Hc.
        -- cbn [weight foldr]. lia.
        -- rewrite <- Hc in *. specialize (Hfit ltac:(rewrite Hc; discriminate)). lia.
      * intros Hk. cbn [length] in Hk. specialize (Hmax ltac:(lia)).
        change (line <$> take (S (S k)) (f :: rest))
          with (line f :: (line <$> take (S k) rest)).
        cbn [weight foldr]. fold (weight (line <$> take (S k) rest)). lia.
Qed.

(** *** Properties of the fact budget *)

(** X24.  The fact lines chosen for the memory context, joined by line
    feeds, never take more than what the parts before them leave of the
    4 000 code units. *)
Theorem fact_lines_fit_the_budget (partsLength : Z) (data : list jsstring) :
  keyFacts partsLength data <> [] ->
  len (join [lf] (keyFacts partsLength data)) <= MAX_MEMORY_CHARS - partsLength.
Proof.
  intros Hne. rewrite len_join_lines by exact Hne.
  unfold keyFacts in *.
  destruct (200 <? MAX_MEMORY_CHARS - partsLength); [|congruence].
  destruct (collect_spec (MAX_MEMORY_CHARS - partsLength) (recent data) 0)
    as (_ & _ & Hfit & _).
  specialize (Hfit Hne). lia.
Qed.

Lemma fact_lines_fit_the_budget_witness :
  len (join [lf] (keyFacts 3790 [str "likes tea"; str "lives in Lisbon"])) <=
  MAX_MEMORY_CHARS - 3790.
Proof.
  apply (fact_lines_fit_the_budget 3790 [str "likes tea"; str "lives in Lisbon"]).
  vm_compute. discriminate.
Defined.

(** X25.  Of the last fifty facts the context takes the oldest first: the
    lines chosen are those of the longest run of these facts, from the
    first on, that fits the budget, so when the budget runs out it is the
    most recent facts that are left out. *)
Theorem facts_kept_are_the_oldest_of_the_recent (partsLength : Z) (data : list jsstring) :
  200 < MAX_MEMORY_CHARS - partsLength ->
  exists k : nat,
    keyFacts partsLength data = line <$> take k (recent data) /\
    ((k < length (recent data))%nat ->
     MAX_MEMORY_CHARS - partsLength <
     len (join [lf] (line <$> take (S k) (recent data)))).
Proof.
  intros Hroom. unfold keyFacts.
  replace (200 <? MAX_MEMORY_CHARS - partsLength) with true
    by (symmetry; apply Z.ltb_lt; exact Hroom).
  destruct (collect_spec (MAX_MEMORY_CHARS - partsLength) (recent data) 0)
    as (k & Heq & _ & Hmax).
  exists k. split; [exact Heq|]. intros Hk. specialize (Hmax Hk).
  rewrite len_join_lines; [lia|].
  destruct (recent data); [cbn [length] in Hk; lia | discriminate].
Qed.

Lemma facts_kept_are_the_oldest_of_the_recent_witness :
  exists k : nat,
    keyFacts 3790 [str "likes tea"; str "lives in Lisbon"] =
      line <$> take k (recent [str "likes tea"; str "lives in Lisbon"]) /\
    ((k < length (recent [str "likes tea"; str "lives in Lisbon"]))%nat ->
     MAX_MEMORY_CHARS - 3790 <
     len (join [lf] (line <$> take (S k) (recent [str "likes tea"; str "lives in Lisbon"])))).
Proof.
  apply (facts_kept_are_the_oldest_of_the_recent 3790
           [str "likes tea"; str "lives in Lisbon"]).
  unfold MAX_MEMORY_CHARS. lia.
Defined.

End Memory.

(** ** The shared streaming loop ([processQueryStream]) *)

Module Core.
Import Js.

(** The calls made on the callbacks that carry text. *)
Inductive Callback :=
| OnText (fullText newChunk : jsstring)
| OnResult (fullResponse : jsstring).

(** The local variables of the loop, the callbacks called, and the
    responses handed to [saveMessage]. *)
Record Loop := {
  allResponses : list jsstring;
  currentTurnText : jsstring;
  calls : list Callback;
  saved : list jsstring
}.

Definition start : Loop :=
  {| allResponses := []; currentTurnText := []; calls := []; saved := [] |}.

Section Cleaning.

(** The memory-intent pass, which rewrites a response before it is saved. *)
Variable processMemoryIntents : jsstring -> jsstring.

(** One iteration of [for await (const msg of q)], as far as the text state
    goes. *)
Definition step (l : Loop) (m : Relay.Msg) : Loop :=
  match m with
  | Relay.Assistant text _ =>
      if truthy text then
        {| allResponses :=
             if Relay.isNewTurn text (currentTurnText l)
             then (if truthy (currentTurnText l)
                   then allResponses l ++ [currentTurnText l] else allResponses l)
             else allResponses l;
           currentTurnText := text;
           calls := calls l ++ [OnText text text];
           saved := saved l |}
      else l
  | Relay.Result result =>
      let all1 :=
        if truthy (currentTurnText l)
        then allResponses l ++ [currentTurnText l] else allResponses l in
      let joined := join Relay.paragraph_break all1 in
      let fullResponse :=
        if negb (truthy joined) && truthy result then result else joined in
      let cleaned := processMemoryIntents fullResponse in
      {| allResponses := all1;
         currentTurnText := currentTurnText l;
         calls := calls l ++
                  [OnResult (if truthy fullResponse then cleaned else fullResponse)];
         saved := if truthy fullResponse then saved l ++ [cleaned] else saved l |}
  | Relay.Other => l
  end.

Definition run (l : Loop) (ms : list Relay.Msg) : Loop := fold_left step ms l.

(** What the Telegram relay hands to [saveMessage] in its [result] branch,
    from the state its loop is in after that branch. *)
Definition telegram_saves (s : Relay.Stream) : list jsstring :=
  let finalResponse := join Relay.paragraph_break (Relay.allResponses s) in
  if truthy finalResponse then [processMemoryIntents finalResponse] else [].

(** The two loops are in the same text state, and every archived turn has
    text. *)
Definition aligned (s : Relay.Stream) (l : Loop) : Prop :=
  Relay.allResponses s = allResponses l /\
  Relay.currentTurnText s = currentTurnText l /\
  Forall (fun t => truthy t = true) (allResponses l).

(** *** Facts *)

Lemma step_aligned (s : Relay.Stream) (l : Loop) (m : Relay.Msg) :
  Relay.is_result m = false ->
  aligned s l -> aligned (Relay.step s m) (step l m) /\ saved (step l m) = saved l.
Proof.
  intros Hm (Hall & Hcur & Htruthy).
  destruct m as [text now | result |]; [|discriminate|].
  2:{ split; [exact (conj Hall (conj Hcur Htruthy)) | reflexivity]. }
  cbn [step]. destruct (truthy text) eqn:Ht.
  2:{ cbn [Relay.step]. rewrite Ht.
      split; [exact (conj Hall (conj Hcur Htruthy)) | reflexivity]. }
  destruct (Relay.step_text_state s text now Ht) as [Ha Hc].
  split; [|reflexivity].
  unfold aligned. rewrite Ha, Hc, Hall, Hcur.
  cbn [allResponses currentTurnText].
  destruct (Relay.isNewTurn text (currentTurnText l)) eqn:Hnew.
  - unfold Relay.isNewTurn in Hnew. apply andb_true_iff in Hnew as [_ Hcurt].
    rewrite Hcurt. split; [reflexivity|]. split; [reflexivity|].
    apply Forall_app. split; [exact Htruthy|]. constructor; [exact Hcurt | constructor].
  - split; [reflexivity|]. split; [reflexivity | exact Htruthy].
Qed.

Lemma run_aligned (ms : list Relay.Msg) : forall (s : Relay.Stream) (l : Loop),
  forallb (fun m => negb (Relay.is_result m)) ms = true ->
  aligned s l -> aligned (Relay.run s ms) (run l ms) /\ saved (run l ms) = saved l.
Proof.
  induction ms as [|m ms IH]; intros s l Hms Ha; [split; [exact Ha | reflexivity]|].
  cbn [forallb] in Hms. apply andb_true_iff in Hms as [Hm Hms].
  apply negb_true_iff in Hm.
  destruct (step_aligned s l m Hm Ha) as [Ha' Hs'].
  cbn [Relay.run run fold_left].
  destruct (IH _ _ Hms Ha') as [Ha'' Hs''].
  split; [exact Ha''|]. unfold run in Hs''. rewrite Hs''. exact Hs'.
Qed.

Lemma join_truthy (parts : list jsstring) :
  Forall (fun t => truthy t = true) parts ->
  truthy (join Relay.paragraph_break parts) = false -> parts = [].
Proof.
  intros Hall Hj. destruct parts as [|p rest]; [reflexivity|]. exfalso.
  apply Forall_cons in Hall as [Hp _].
  destruct p as [|c p]; [discriminate|].
  destruct rest; cbn in Hj; discriminate.
Qed.

Lemma result_aligned (s : Relay.Stream) (l : Loop) (result : jsstring) :
  aligned s l ->
  saved (step l (Relay.Result result)) =
  saved l ++ telegram_saves (Relay.onResult result s).
Proof.
  intros (Hall & Hcur & Htruthy). cbn [step saved].
  unfold telegram_saves, Relay.onResult. cbn [Relay.allResponses].
  rewrite Hall, Hcur.
  set (all1 := if truthy (currentTurnText l)
               then allResponses l ++ [currentTurnText l] else allResponses l).
  assert (Hall1 : Forall (fun t => truthy t = true) all1).
  { unfold all1. destruct (truthy (currentTurnText l)) eqn:E; [|exact Htruthy].
    apply Forall_app. split; [exact Htruthy|]. constructor; [exact E | constructor]. }
  destruct (truthy (join Relay.paragraph_break all1)) eqn:Hj; cbn [negb andb].
  - rewrite Hj. reflexivity.
  - rewrite (join_truthy all1 Hall1 Hj). cbn [app join].
    destruct (truthy result) eqn:Hr.
    + cbn [app join]. rewrite Hr. reflexivity.
    + cbn [join truthy]. symmetry. apply app_nil_r.
Qed.

(** *** Property of the two loops *)

(** X26.  On a stream that ends with its one result message, the loop of
    the Telegram relay saves the response that the shared loop
    [processQueryStream] saves: the same turns, joined and cleaned alike,
    with the same fall-back to the result string. *)
Theorem relay_saves_what_the_shared_loop_saves
  (now : Z) (ms : list Relay.Msg) (result : jsstring) :
  forallb (fun m => negb (Relay.is_result m)) ms = true ->
  saved (run start (ms ++ [Relay.Result result])) =
  telegram_saves (Relay.run (Relay.start now) (ms ++ [Relay.Result result])).
Proof.
  intros Hms. unfold run, Relay.run. rewrite !fold_left_app. cbn [fold_left].
  destruct (run_aligned ms (Relay.start now) start Hms) as [Ha Hs].
  { split; [reflexivity|]. split; [reflexivity | constructor]. }
  unfold run, Relay.run in Ha, Hs.
  cbn [Relay.step].
  rewrite (result_aligned _ _ result Ha), Hs. reflexivity.
Qed.

End Cleaning.

Lemma relay_saves_what_the_shared_loop_saves_witness :
  saved (run (fun s => s) start
           ([Relay.Assistant (str "Hello") 1000; Relay.Assistant (str "Hi") 2000]
            ++ [Relay.Result []])) =
  telegram_saves (fun s => s)
    (Relay.run (Relay.start 0)
       ([Relay.Assistant (str "Hello") 1000; Relay.Assistant (str "Hi") 2000]
        ++ [Relay.Result []])).
Proof.
  apply (relay_saves_what_the_shared_loop_saves (fun s => s) 0
           [Relay.Assistant (str "Hello") 1000; Relay.Assistant (str "Hi") 2000] []).
  reflexivity.
Defined.

End Core.
